(** * The A2/A3 task-graph execution engine: scheduler, worker and bring-up

    A shallow embedding of the device-side runtime:

    - [src/runtime/runtime_a2a3/core/common/pto_task.h]   (data layout)
    - [src/runtime/runtime_a2a3/core/aicore/aicore_kernel.cpp] (worker loop)
    - [src/runtime/runtime_a2a3/core/aicpu/aicpu_kernel.cpp]   (single scheduler)
    - [runtime/src/runtime/aicpu/graphexecutor.cpp]            (multi-thread scheduler)
    - [runtime/src/platform/a2a3/aicpu/kernel.cpp]             (bring-up manager)

    C integers are integers of [Z]; the atomic read-modify-write operations
    wrap around at 32 bits.  Arrays are lists read with [!!] and updated with
    [<[ _ := _ ]>]; an access outside the array is undefined behaviour in the
    source and makes the embedded function return [None].  Shared memory is
    explicit state; the stores a scheduler makes to the handshake cells are
    also logged, in program order, so that the order of two stores to one
    cell can be stated. *)

From Stdlib Require Import ZArith Lia Bool.
From stdpp Require Import base option list.

Local Open Scope Z_scope.

(* ===================================================================== *)
(** ** 32-bit integers *)
(* ===================================================================== *)

Module Int32.

Definition min_int : Z := - 2 ^ 31.
Definition max_int : Z := 2 ^ 31 - 1.

(** The value an [int32_t] holds after a two's-complement wrap-around. *)
Definition wrap (z : Z) : Z := (z + 2 ^ 31) mod 2 ^ 32 - 2 ^ 31.

Definition in_range (z : Z) : Prop := min_int <= z <= max_int.

(** [std::atomic<int>::fetch_add] / [fetch_sub]: the stored value wraps. *)
Definition add (a b : Z) : Z := wrap (a + b).
Definition sub (a b : Z) : Z := wrap (a - b).

End Int32.

(* ===================================================================== *)
(** ** The handshake cell ([PTOHandshake], pto_task.h:132-140) *)
(* ===================================================================== *)

Module Cell.

Record Handshake := mkHandshake {
  aicpu_ready : Z;   (* AICPU ready signal *)
  aicore_done : Z;   (* AICore ready signal (core_id + 1) *)
  control     : Z;   (* 0 = run, 1 = quit *)
  task        : Z;   (* task pointer, 0 = no task *)
  task_status : Z;   (* 0 = idle/done, 1 = busy *)
  core_type   : Z    (* 0 = AIC, 1 = AIV *)
}.

Definition set_task (p : Z) (h : Handshake) : Handshake :=
  mkHandshake (aicpu_ready h) (aicore_done h) (control h) p
              (task_status h) (core_type h).

Definition set_task_status (v : Z) (h : Handshake) : Handshake :=
  mkHandshake (aicpu_ready h) (aicore_done h) (control h) (task h)
              v (core_type h).

Definition set_aicore_done (v : Z) (h : Handshake) : Handshake :=
  mkHandshake (aicpu_ready h) v (control h) (task h)
              (task_status h) (core_type h).

(** A cell before a launch: every field zero but the core type. *)
Definition reset (kind : Z) : Handshake := mkHandshake 0 0 0 0 0 kind.

(** One store of a scheduler to a handshake cell. *)
Inductive Store :=
| StTask   (core_id : Z) (p : Z)    (* hank[core_id].task = p *)
| StStatus (core_id : Z) (v : Z).   (* hank[core_id].task_status = v *)

Definition update (c : Z) (f : Handshake -> Handshake)
           (hank : list Handshake) : list Handshake :=
  if (0 <=? c) then
    match hank !! Z.to_nat c with
    | Some h => <[ Z.to_nat c := f h ]> hank
    | None => hank
    end
  else hank.

Definition apply_store (s : Store) (hank : list Handshake) : list Handshake :=
  match s with
  | StTask c p => update c (set_task p) hank
  | StStatus c v => update c (set_task_status v) hank
  end.

(** Memory after a sequence of stores, oldest first. *)
Definition replay (tr : list Store) (hank : list Handshake) : list Handshake :=
  fold_left (fun m s => apply_store s m) tr hank.

Definition get (hank : list Handshake) (c : Z) : option Handshake :=
  if (0 <=? c) then hank !! Z.to_nat c else None.

(** A cell the scheduler may dispatch to: no task, not busy. *)
Definition idle (h : Handshake) : Prop := task_status h = 0 /\ task h = 0.

(** A cell whose worker has finished a task the scheduler has not yet
    collected. *)
Definition completed (h : Handshake) : Prop := task_status h = 0 /\ task h <> 0.

(** The doorbell never rings on an empty cell. *)
Definition published (h : Handshake) : Prop := task_status h = 1 -> task h <> 0.

(** Every store to [task_status] writes 1 and comes directly after the
    store of a non-null pointer to the [task] of the same cell. *)
Definition writes_in_order (tr : list Store) : Prop :=
  forall pre c v post, tr = pre ++ StStatus c v :: post ->
    v = 1 /\ exists pre' p, pre = pre' ++ [StTask c p] /\ p <> 0.

(** After no prefix of the stores is there a cell with
    [task_status == 1] and [task == 0]. *)
Definition no_bare_doorbell (hank : list Handshake) (tr : list Store) : Prop :=
  forall pre post, tr = pre ++ post -> Forall published (replay pre hank).

(** A log made of collections ([task = 0] on a cell that is not busy) and
    publications ([task = p] with [p != 0], then [task_status = 1]). *)
Inductive well_ordered (hank0 : list Handshake) : list Store -> Prop :=
| wo_nil : well_ordered hank0 []
| wo_clear tr c h :
    well_ordered hank0 tr ->
    get (replay tr hank0) c = Some h -> task_status h = 0 ->
    well_ordered hank0 (tr ++ [StTask c 0])
| wo_publish tr c p :
    p <> 0 ->
    well_ordered hank0 tr ->
    well_ordered hank0 (tr ++ [StTask c p; StStatus c 1]).

(** The stores made since [(hank0, log0)] form a well-ordered log and
    account for the present contents of the cells. *)
Definition extends (hank0 : list Handshake) (log0 : list Store)
           (hank : list Handshake) (log : list Store) : Prop :=
  exists tr, log = log0 ++ tr /\ hank = replay tr hank0 /\
             well_ordered hank0 tr.

Definition set_aicpu_ready (v : Z) (h : Handshake) : Handshake :=
  mkHandshake v (aicore_done h) (control h) (task h)
              (task_status h) (core_type h).

Definition set_control (v : Z) (h : Handshake) : Handshake :=
  mkHandshake (aicpu_ready h) (aicore_done h) v (task h)
              (task_status h) (core_type h).

(** A cell the schedulers pass over: it holds a task and its worker has
    not cleared [task_status] yet. *)
Definition busy (h : Handshake) : Prop := task h <> 0 /\ task_status h <> 0.

(** [hank[i].field = v] for one field, as a read-modify-write of the
    cell; outside the array it is undefined behaviour. *)
Definition poke (f : Handshake -> Handshake) (i : Z) (hank : list Handshake)
  : option (list Handshake) :=
  match get hank i with
  | Some h => Some (<[ Z.to_nat i := f h ]> hank)
  | None => None
  end.


End Cell.

(* ===================================================================== *)
(** ** Tasks in device memory *)
(* ===================================================================== *)

Module Layout.

(** Where the task array lies: the address of [tasks[0]] and the size of
    one task record.  For [PTOTaskGraph] the array starts 8 bytes into the
    graph and a [PTOTask] takes 560 bytes. *)
Record t := mk { tasks_base : Z; task_size : Z }.

Definition wf (L : t) : Prop := 0 < tasks_base L /\ 0 < task_size L.

(** [&tasks[i]] as an integer, the value stored in a cell's [task]. *)
Definition addr (L : t) (i : Z) : Z := tasks_base L + i * task_size L.

(** The index of the task record a pointer designates. *)
Definition index (L : t) (p : Z) : option Z :=
  let off := p - tasks_base L in
  if (0 <=? off) && (off mod task_size L =? 0)
  then Some (off / task_size L) else None.

Definition pto (graph : Z) : t := mk (graph + 8) 560.

End Layout.

(* ===================================================================== *)
(** ** The worker loop (aicore_kernel.cpp) *)
(* ===================================================================== *)

Module AiCore.
Import Cell.

(** What one pass through the polling loop did. *)
Inductive Outcome :=
| Quit                      (* control == 1: leave the loop *)
| Idle                      (* nothing to do *)
| Executed (task_ptr : Z).  (* execute_task(task_ptr) was called *)

(** [execute_task] (aicore_kernel.cpp:69-82).  [bin_addr p] is the
    [functionBinAddr] field of the task at address [p]; the result lists
    the kernel entry points that were invoked. *)
Definition execute_task (bin_addr : Z -> Z) (task_ptr : Z) : list Z :=
  if task_ptr =? 0 then []
  else if bin_addr task_ptr =? 0 then []
  else [bin_addr task_ptr].

(** One iteration of the main loop (aicore_kernel.cpp:125-142) on the
    contents of the worker's own cell after the cache invalidate. *)
Definition poll (h : Handshake) : Handshake * Outcome :=
  if control h =? 1 then (h, Quit)
  else if negb (task h =? 0) then (set_task_status 0 h, Executed (task h))
  else (h, Idle).

(** The two bring-up phases (aicore_kernel.cpp:116-122): once
    [aicpu_ready] is seen non-zero the worker acknowledges. *)
Definition bring_up (blockIdx : Z) (h : Handshake) : option Handshake :=
  if aicpu_ready h =? 0 then None
  else Some (set_aicore_done (blockIdx + 1) h).

Definition dispatches (h : Handshake) : Prop :=
  exists p, snd (poll h) = Executed p.

(** The index of the cell a worker polls (aicore_kernel.cpp:104-113): a
    Cube worker takes its block index, a Vector worker is numbered after
    the [block_num] Cube workers.  [blockIdx] is an [int]. *)
Definition aic_block_idx (block_idx : Z) : Z := Int32.wrap block_idx.

Definition aiv_block_idx (block_idx subblockdim subblockid block_num : Z) : Z :=
  Int32.wrap (block_idx * subblockdim + subblockid + block_num).

(** A worker that has seen [aicpu_ready] acknowledges; one that has not
    keeps waiting. *)
Definition acknowledge (blockIdx : Z) (h : Handshake) : Handshake :=
  match bring_up blockIdx h with
  | Some h' => h'
  | None => h
  end.

End AiCore.

(* ===================================================================== *)
(** ** Loops and arrays *)
(* ===================================================================== *)

Module Loop.

(** A [for] loop whose body may hit undefined behaviour. *)
Fixpoint foreach {S A : Type} (body : A -> S -> option S)
         (l : list A) (s : S) : option S :=
  match l with
  | [] => Some s
  | a :: l' => match body a s with
               | Some s' => foreach body l' s'
               | None => None
               end
  end.

(** The values of [i] in [for (i = 0; i < n; i++)]. *)
Definition upto (n : Z) : list Z := map Z.of_nat (seq 0 (Z.to_nat n)).

(** [a[i]] for an array held as a list. *)
Definition read {A : Type} (a : list A) (i : Z) : option A :=
  if 0 <=? i then a !! Z.to_nat i else None.

(** [a[i] = v]. *)
Definition write {A : Type} (a : list A) (i : Z) (v : A) : option (list A) :=
  if (0 <=? i) && (i <? Z.of_nat (length a))
  then Some (<[ Z.to_nat i := v ]> a) else None.

End Loop.

(* ===================================================================== *)
(** ** The single-thread scheduler (aicpu_kernel.cpp) *)
(* ===================================================================== *)

Module AicpuKernel.
Import Cell Loop.

Definition PTO_TASK_PENDING  : Z := 0.
Definition PTO_TASK_READY    : Z := 1.
Definition PTO_TASK_RUNNING  : Z := 2.
Definition PTO_TASK_COMPLETE : Z := 3.

(** [PTOTask] (pto_task.h:72-95), without the fields the scheduler never
    reads.  [dependents] holds the first [num_dependents] entries of the
    array of that name. *)
Record PTOTask := mkTask {
  task_id         : Z;
  functionBinAddr : Z;
  dep_count       : Z;
  deps_remaining  : Z;
  dependents      : list Z;
  status          : Z;
  core_type       : Z
}.

Definition set_status (st : Z) (t : PTOTask) : PTOTask :=
  mkTask (task_id t) (functionBinAddr t) (dep_count t) (deps_remaining t)
         (dependents t) st (core_type t).

Definition set_deps_remaining (n : Z) (t : PTOTask) : PTOTask :=
  mkTask (task_id t) (functionBinAddr t) (dep_count t) n
         (dependents t) (status t) (core_type t).

(** [PTOTaskGraph] (pto_task.h:110-114). *)
Record PTOTaskGraph := mkGraph {
  num_tasks       : Z;
  tasks_completed : Z;
  tasks           : list PTOTask
}.

Definition set_tasks (ts : list PTOTask) (g : PTOTaskGraph) : PTOTaskGraph :=
  mkGraph (num_tasks g) (tasks_completed g) ts.

(** Device memory as the scheduler sees it, and the stores it has made to
    the handshake cells so far. *)
Record World := mkWorld {
  graph : PTOTaskGraph;
  hank  : list Handshake;
  log   : list Store
}.

Definition store (s : Store) (w : World) : World :=
  mkWorld (graph w) (apply_store s (hank w)) (log w ++ [s]).

Definition update_task (i : Z) (f : PTOTask -> PTOTask) (g : PTOTaskGraph)
  : option PTOTaskGraph :=
  match read (tasks g) i with
  | Some t => Some (set_tasks (<[ Z.to_nat i := f t ]> (tasks g)) g)
  | None => None
  end.

(** The inner loop of [schedule_tasks] (aicpu_kernel.cpp:119-141): the
    first ready task of the wanted core type, scanning [n] task ids from
    [task_id] upwards. *)
Fixpoint find_ready (ts : list PTOTask) (kind : Z) (n : nat) (task_id : Z)
  : option (option Z) :=
  match n with
  | O => Some None
  | S n' =>
      match read ts task_id with
      | None => None
      | Some t =>
          if negb (status t =? PTO_TASK_READY) then find_ready ts kind n' (task_id + 1)
          else if negb (core_type t =? kind) then find_ready ts kind n' (task_id + 1)
          else Some (Some task_id)
      end
  end.

(** aicpu_kernel.cpp:132-135, in program order. *)
Definition assign (L : Layout.t) (core_id task_id : Z) (w : World) : option World :=
  match update_task task_id (set_status PTO_TASK_RUNNING) (graph w) with
  | Some g' =>
      let w1 := mkWorld g' (hank w) (log w) in
      let w2 := store (StTask core_id (Layout.addr L task_id)) w1 in
      Some (store (StStatus core_id 1) w2)
  | None => None
  end.

(** The core type [schedule_tasks] gives a core (aicpu_kernel.cpp:116). *)
Definition core_kind (aic_num core_id : Z) : Z :=
  if core_id <? aic_num then 0 else 1.

(** The body of the loop over cores (aicpu_kernel.cpp:107-142); the
    second component counts the assignments. *)
Definition schedule_core (L : Layout.t) (aic_num : Z) (core_id : Z)
           (wa : World * Z) : option (World * Z) :=
  let (w, assigned) := wa in
  match Cell.get (hank w) core_id with
  | None => None
  | Some core_hank =>
      if negb (task core_hank =? 0) && negb (task_status core_hank =? 0)
      then Some wa
      else
        match find_ready (tasks (graph w)) (core_kind aic_num core_id)
                         (Z.to_nat (num_tasks (graph w))) 0 with
        | None => None
        | Some None => Some wa
        | Some (Some task_id) =>
            match assign L core_id task_id w with
            | Some w' => Some (w', assigned + 1)
            | None => None
            end
        end
  end.

Definition schedule_tasks (L : Layout.t) (core_num aic_num : Z) (w : World)
  : option (World * Z) :=
  foreach (schedule_core L aic_num) (upto core_num) (w, 0).

(** What the body of the loop over dependents does to the dependent
    (aicpu_kernel.cpp:177-184): [__atomic_sub_fetch], then the test. *)
Definition release (dep_task : PTOTask) : PTOTask :=
  let remaining := Int32.sub (deps_remaining dep_task) 1 in
  let t1 := set_deps_remaining remaining dep_task in
  if (remaining =? 0) && (status dep_task =? PTO_TASK_PENDING)
  then set_status PTO_TASK_READY t1 else t1.

(** The body of the loop over dependents (aicpu_kernel.cpp:173-185). *)
Definition resolve_dependent (dep_id : Z) (g : PTOTaskGraph) : option PTOTaskGraph :=
  update_task dep_id release g.

(** The body of the loop over cores in [check_completions]
    (aicpu_kernel.cpp:158-191). *)
Definition complete_core (L : Layout.t) (core_id : Z) (wc : World * Z)
  : option (World * Z) :=
  let (w, completed) := wc in
  match Cell.get (hank w) core_id with
  | None => None
  | Some core_hank =>
      if negb (task core_hank =? 0) && (task_status core_hank =? 0) then
        match Layout.index L (task core_hank) with
        | None => None
        | Some i =>
            match read (tasks (graph w)) i with
            | None => None
            | Some t =>
                let g0 := graph w in
                match update_task i (set_status PTO_TASK_COMPLETE)
                        (mkGraph (num_tasks g0) (Int32.add (tasks_completed g0) 1) (tasks g0)) with
                | None => None
                | Some g1 =>
                    match foreach resolve_dependent (dependents t) g1 with
                    | None => None
                    | Some g2 =>
                        Some (store (StTask core_id 0) (mkWorld g2 (hank w) (log w)),
                              completed + 1)
                    end
                end
            end
        end
      else Some wc
  end.

Definition check_completions (L : Layout.t) (core_num : Z) (w : World)
  : option (World * Z) :=
  foreach (complete_core L) (upto core_num) (w, 0).

(** The initialisation loop of [execute_graph] (aicpu_kernel.cpp:221-227):
    tasks without dependencies become ready. *)
Definition mark_initial (i : Z) (g : PTOTaskGraph) : option PTOTaskGraph :=
  update_task i (fun t => if dep_count t =? 0 then set_status PTO_TASK_READY t else t) g.

Definition execute_graph_init (g : PTOTaskGraph) : option PTOTaskGraph :=
  foreach mark_initial (upto (num_tasks g)) g.

(** One turn of the main loop of [execute_graph] (aicpu_kernel.cpp:230-233). *)
Definition main_loop_turn (L : Layout.t) (core_num aic_num : Z) (w : World)
  : option World :=
  match schedule_tasks L core_num aic_num w with
  | Some (w1, _) =>
      match check_completions L core_num w1 with
      | Some (w2, _) => Some w2
      | None => None
      end
  | None => None
  end.

(** The worker of core [c] runs one iteration of its loop. *)
Definition worker_turn (c : Z) (w : World) : World :=
  mkWorld (graph w) (update c (fun h => fst (AiCore.poll h)) (hank w)) (log w).

(** The host gives the cells their kind by position, AIC cores first
    (a2a3_runtime.c:473-480 and 659-666). *)
Definition host_layout (aic_num : Z) (cells : list Handshake) : Prop :=
forall c h, Cell.get cells c = Some h -> Cell.core_type h = core_kind aic_num c.

(** The stores since [w0] went to cells of the task's kind, and neither a
    task nor a cell has changed its kind. *)
Definition pto_affine (L : Layout.t) (aic_num : Z) (w0 w : World) : Prop :=
(forall i, core_type <$> read (tasks (graph w)) i
           = core_type <$> read (tasks (graph w0)) i) /\
(forall c, Cell.core_type <$> Cell.get (hank w) c
           = Cell.core_type <$> Cell.get (hank w0) c) /\
exists tr, log w = log w0 ++ tr /\
  forall c p, StTask c p ∈ tr ->
    exists i t h, p = Layout.addr L i /\
                  read (tasks (graph w0)) i = Some t /\
                  Cell.get (hank w0) c = Some h /\
                  core_type t = core_kind aic_num c.

(** A state in which [schedule_tasks] stays inside its arrays. *)
Definition in_bounds (core_num : Z) (w : World) : Prop :=
core_num <= Z.of_nat (length (hank w)) /\
num_tasks (graph w) <= Z.of_nat (length (tasks (graph w))).

(** Task [i] passes the two tests of the inner loop of [schedule_tasks]
    (aicpu_kernel.cpp:123-130) for a core of kind [kind]. *)
Definition ready_for (ts : list PTOTask) (kind i : Z) : Prop :=
exists t, read ts i = Some t /\ status t = PTO_TASK_READY /\ core_type t = kind.

(** The two stores that hand task [snd ci] to core [fst ci]. *)
Definition handed (L : Layout.t) (ci : Z * Z) : list Store :=
[StTask (fst ci) (Layout.addr L (snd ci)); StStatus (fst ci) 1].

(** The test [check_completions] makes on a cell (aicpu_kernel.cpp:162),
    and what the call does to a cell inside its range. *)
Definition collectable (h : Handshake) : bool :=
negb (task h =? 0) && (task_status h =? 0).

Definition collect_cell (h : Handshake) : Handshake :=
if collectable h then set_task 0 h else h.

Definition collectable_at (cells : list Handshake) (c : Z) : bool :=
match Cell.get cells c with
| Some h => collectable h
| None => false
end.

(** Phase 1 of [handshake_aicore] (aicpu_kernel.cpp:49-52). *)
Definition signal_ready (core_num : Z) (cells : list Handshake)
  : option (list Handshake) :=
foreach (poke (set_aicpu_ready 1)) (upto core_num) cells.

(** Phase 2 of [handshake_aicore] (aicpu_kernel.cpp:55-61) falls through
    every busy-wait: all the cores have acknowledged. *)
Definition acknowledged (core_num : Z) (cells : list Handshake) : bool :=
forallb (fun i => match Cell.get cells i with
                  | Some h => negb (aicore_done h =? 0)
                  | None => false
                  end)
        (upto core_num).

(** [shutdown_aicore] (aicpu_kernel.cpp:73-84). *)
Definition shutdown_aicore (core_num : Z) (cells : list Handshake)
  : option (list Handshake) :=
foreach (poke (set_control 1)) (upto core_num) cells.

(** The workers of the cores [0 .. core_num) go through their bring-up,
    each on its own cell. *)
Definition workers_acknowledge (core_num : Z) (cells : list Handshake)
  : list Handshake :=
fold_left (fun hk c => update c (AiCore.acknowledge c) hk) (upto core_num) cells.

(** Every worker runs one iteration of its polling loop. *)
Definition workers_turn (core_num : Z) (w : World) : World :=
fold_left (fun w c => worker_turn c w) (upto core_num) w.

(** One turn of the main loop in which every worker polls once between
    [schedule_tasks] and [check_completions]; the result carries the two
    return values. *)
Definition synchronous_turn (L : Layout.t) (core_num aic_num : Z) (w : World)
  : option (World * Z * Z) :=
match schedule_tasks L core_num aic_num w with
| Some (w1, assigned) =>
    match check_completions L core_num (workers_turn core_num w1) with
    | Some (w2, collected) => Some (w2, assigned, collected)
    | None => None
    end
| None => None
end.

End AicpuKernel.

(* ===================================================================== *)
(** ** The multi-thread scheduler (graphexecutor.cpp) *)
(* ===================================================================== *)

Module GraphExecutor.
Import Cell Loop.

(** Modelled from the spec: [graph.h] is not part of the sources; a [Task]
    has the fields [execute] reads ([task_id], [fanout], [fanout_count],
    the atomic [fanin], [core_type]) and the [functionBinAddr] of the
    device layout.  [fanout] holds the first [fanout_count] entries. *)
Record Task := mkTask {
  task_id         : Z;
  functionBinAddr : Z;
  fanin           : Z;
  fanout          : list Z;
  core_type       : Z
}.

Definition set_fanin (n : Z) (t : Task) : Task :=
  mkTask (task_id t) (functionBinAddr t) n (fanout t) (core_type t).

(** Modelled from the spec: the [Graph] of [graph.h], a flat array of
    tasks and their number. *)
Record Graph := mkGraph {
  num_tasks : Z;
  tasks     : list Task
}.

(** Modelled from the spec: [Graph::get_task_count]. *)
Definition get_task_count (g : Graph) : Z := num_tasks g.

(** Modelled from the spec: [Graph::get_task], the record of a task id. *)
Definition get_task (g : Graph) (id : Z) : option Task := read (tasks g) id.

(** Modelled from the spec: [Graph::get_initial_ready_tasks], all tasks
    with [fanin == 0], by increasing id. *)
Definition get_initial_ready_tasks (g : Graph) : list Z :=
  List.filter (fun id => match get_task g id with
                         | Some t => fanin t =? 0
                         | None => false
                         end)
              (upto (num_tasks g)).

(** The file-scope state of graphexecutor.cpp:9-24. *)
Record Shared := mkShared {
  ready_queue_aic : list Z;
  ready_count_aic : Z;
  ready_queue_aiv : list Z;
  ready_count_aiv : Z;
  completed_tasks : Z;
  total_tasks     : Z;
  init_done       : bool;
  finished_count  : Z
}.

(** The task ids a ready queue holds, oldest first. *)
Definition queued (slots : list Z) (count : Z) : list Z :=
  take (Z.to_nat count) slots.

Record World := mkWorld {
  g    : Graph;
  hank : list Handshake;
  sh   : Shared;
  log  : list Store
}.

(** The locals of one call of [execute] (graphexecutor.cpp:101-103). *)
Record Local := mkLocal {
  cur_thread_completed       : Z;
  cur_thread_tasks_in_flight : Z;
  task_count                 : Z
}.

Definition store (s : Store) (w : World) : World :=
  mkWorld (g w) (apply_store s (hank w)) (sh w) (log w ++ [s]).

(** graphexecutor.cpp:133-136 and 139-142: under the queue's mutex, write
    the slot, then bump the count. *)
Definition push_aic (id : Z) (s : Shared) : option Shared :=
  match write (ready_queue_aic s) (ready_count_aic s) id with
  | Some q => Some (mkShared q (Int32.add (ready_count_aic s) 1)
                      (ready_queue_aiv s) (ready_count_aiv s)
                      (completed_tasks s) (total_tasks s) (init_done s)
                      (finished_count s))
  | None => None
  end.

Definition push_aiv (id : Z) (s : Shared) : option Shared :=
  match write (ready_queue_aiv s) (ready_count_aiv s) id with
  | Some q => Some (mkShared (ready_queue_aic s) (ready_count_aic s)
                      q (Int32.add (ready_count_aiv s) 1)
                      (completed_tasks s) (total_tasks s) (init_done s)
                      (finished_count s))
  | None => None
  end.

Definition push_ready (kind id : Z) (s : Shared) : option Shared :=
  if kind =? 0 then push_aic id s else push_aiv id s.

(** graphexecutor.cpp:170-176 and 187-193: the count is read, found
    positive, decremented, and the slot below it is taken. *)
Definition pop_aic (s : Shared) : option (option (Z * Shared)) :=
  let count := ready_count_aic s in
  if 0 <? count then
    match read (ready_queue_aic s) (count - 1) with
    | Some id => Some (Some (id,
                      mkShared (ready_queue_aic s) (Int32.sub count 1)
                        (ready_queue_aiv s) (ready_count_aiv s)
                        (completed_tasks s) (total_tasks s) (init_done s)
                        (finished_count s)))
    | None => None
    end
  else Some None.

Definition pop_aiv (s : Shared) : option (option (Z * Shared)) :=
  let count := ready_count_aiv s in
  if 0 <? count then
    match read (ready_queue_aiv s) (count - 1) with
    | Some id => Some (Some (id,
                      mkShared (ready_queue_aic s) (ready_count_aic s)
                        (ready_queue_aiv s) (Int32.sub count 1)
                        (completed_tasks s) (total_tasks s) (init_done s)
                        (finished_count s)))
    | None => None
    end
  else Some None.

Definition set_fanin_at (id n : Z) (gr : Graph) : Graph :=
  match get_task gr id with
  | Some t => mkGraph (num_tasks gr) (<[ Z.to_nat id := set_fanin n t ]> (tasks gr))
  | None => gr
  end.

(** The body of the loop over the fanout (graphexecutor.cpp:123-146). *)
Definition resolve_successor (dep_id : Z) (gs : Graph * Shared)
  : option (Graph * Shared) :=
  let (gr, s) := gs in
  match get_task gr dep_id with
  | None => None
  | Some dep =>
      let prev_fanin := fanin dep in
      let gr' := set_fanin_at dep_id (Int32.sub prev_fanin 1) gr in
      if prev_fanin =? 1 then
        match push_ready (core_type dep) dep_id s with
        | Some s' => Some (gr', s')
        | None => None
        end
      else Some (gr', s)
  end.

Definition count_completed (s : Shared) : Shared :=
  mkShared (ready_queue_aic s) (ready_count_aic s)
           (ready_queue_aiv s) (ready_count_aiv s)
           (Int32.add (completed_tasks s) 1) (total_tasks s) (init_done s)
           (finished_count s).

(** Phase 1 for one core (graphexecutor.cpp:110-154). *)
Definition collect_core (L : Layout.t) (core_id : Z) (wl : World * Local)
  : option (World * Local) :=
  let (w, l) := wl in
  match Cell.get (hank w) core_id with
  | None => None
  | Some h =>
      if (task_status h =? 0) && negb (task h =? 0) then
        match Layout.index L (task h) with
        | None => None
        | Some i =>
            match get_task (g w) i with
            | None => None
            | Some t =>
                match foreach resolve_successor (fanout t) (g w, sh w) with
                | None => None
                | Some (g', s') =>
                    Some (store (StTask core_id 0)
                            (mkWorld g' (hank w) (count_completed s') (log w)),
                          mkLocal (cur_thread_completed l + 1)
                                  (cur_thread_tasks_in_flight l - 1)
                                  (task_count l))
                end
            end
        end
      else Some wl
  end.

(** graphexecutor.cpp:176-183 and 193-200: the two stores that publish a
    task, in program order. *)
Definition publish (L : Layout.t) (core_id task_id : Z) (s' : Shared)
           (wl : World * Local) : option (World * Local) :=
  let (w, l) := wl in
  match get_task (g w) task_id with
  | None => None
  | Some _ =>
      let w1 := mkWorld (g w) (hank w) s' (log w) in
      let w2 := store (StTask core_id (Layout.addr L task_id)) w1 in
      Some (store (StStatus core_id 1) w2,
            mkLocal (cur_thread_completed l)
                    (cur_thread_tasks_in_flight l + 1) (task_count l))
  end.

(** Phase 2 for one core (graphexecutor.cpp:162-205).  The core's turn is
    one step: the unlocked read of the count and the read under the mutex
    see the same value. *)
Definition dispatch_core (L : Layout.t) (core_id : Z) (wl : World * Local)
  : option (World * Local) :=
  match Cell.get (hank (fst wl)) core_id with
  | None => None
  | Some h =>
      if (task_status h =? 0) && (task h =? 0) then
        if Cell.core_type h =? 0 then
          match pop_aic (sh (fst wl)) with
          | None => None
          | Some None => Some wl
          | Some (Some (task_id, s')) => publish L core_id task_id s' wl
          end
        else if Cell.core_type h =? 1 then
          match pop_aiv (sh (fst wl)) with
          | None => None
          | Some None => Some wl
          | Some (Some (task_id, s')) => publish L core_id task_id s' wl
          end
        else Some wl
      else Some wl
  end.

Definition collect_phase (L : Layout.t) (cores : list Z) (wl : World * Local)
  : option (World * Local) :=
  foreach (collect_core L) cores wl.

Definition dispatch_phase (L : Layout.t) (cores : list Z) (wl : World * Local)
  : option (World * Local) :=
  foreach (dispatch_core L) cores wl.

(** One pass through the body of the scheduling loop
    (graphexecutor.cpp:107-206), for a thread that owns [cores]. *)
Definition pass (L : Layout.t) (cores : list Z) (wl : World * Local)
  : option (World * Local) :=
  match collect_phase L cores wl with
  | None => None
  | Some wl1 =>
      if Z.of_nat (length cores) <=? cur_thread_tasks_in_flight (snd wl1)
      then Some wl1
      else dispatch_phase L cores wl1
  end.

(** The loop that sorts the initially ready tasks into the two queues
    (graphexecutor.cpp:71-84); the counts are stored afterwards, so the
    running counts are the ones of [Shared] here. *)
Definition enqueue_initial (gr : Graph) (id : Z) (s : Shared) : option Shared :=
  match get_task gr id with
  | None => None
  | Some t => push_ready (core_type t) id s
  end.

(** Thread 0 initialises the shared state (graphexecutor.cpp:59-91). *)
Definition init (gr : Graph) (s : Shared) : option Shared :=
  let s0 := mkShared (ready_queue_aic s) 0 (ready_queue_aiv s) 0
                     0 (get_task_count gr) (init_done s) 0 in
  match foreach (enqueue_initial gr) (get_initial_ready_tasks gr) s0 with
  | None => None
  | Some s1 => Some (mkShared (ready_queue_aic s1) (ready_count_aic s1)
                       (ready_queue_aiv s1) (ready_count_aiv s1)
                       0 (get_task_count gr) true 0)
  end.

(** The locals a thread starts its loop with (graphexecutor.cpp:101-103). *)
Definition enter (s : Shared) : Local := mkLocal 0 0 (total_tasks s).

(** The exit barrier (graphexecutor.cpp:211-221). *)
Definition exit_barrier (thread_num : Z) (s : Shared) : Shared :=
  let prev_finished := finished_count s in
  if prev_finished + 1 =? thread_num then
    mkShared (ready_queue_aic s) 0 (ready_queue_aiv s) 0 0 0 false 0
  else
    mkShared (ready_queue_aic s) (ready_count_aic s)
             (ready_queue_aiv s) (ready_count_aiv s)
             (completed_tasks s) (total_tasks s) (init_done s)
             (Int32.add prev_finished 1).

(** The counters the last thread clears. *)
Definition cleared (s : Shared) : Prop :=
  ready_count_aic s = 0 /\ ready_count_aiv s = 0 /\ completed_tasks s = 0 /\
  total_tasks s = 0 /\ init_done s = false /\ finished_count s = 0.

(** *** Scheduler threads and workers together *)

Record Thread := mkThread {
  cores : list Z;   (* cur_thread_cores[0 .. core_num) *)
  loc   : Local
}.

Record Sys := mkSys {
  world   : World;
  threads : list Thread;
  (* the calls of execute_task so far: core and task pointer *)
  kernel_log : list (Z * Z)
}.

Definition logged (c : Z) (o : AiCore.Outcome) : list (Z * Z) :=
  match o with
  | AiCore.Executed p => [(c, p)]
  | _ => []
  end.

(** A step is one pass of one scheduler thread through its loop body, or
    one iteration of one worker's polling loop, each taken as a whole:
    what this relation reaches are the states between passes.  The run
    of one thread core by core, with the workers' stores in between, is
    [solo_step] below. *)
Inductive step (L : Layout.t) : Sys -> Sys -> Prop :=
| step_pass s i th w' l' :
    threads s !! i = Some th ->
    completed_tasks (sh (world s)) < task_count (loc th) ->
    pass L (cores th) (world s, loc th) = Some (w', l') ->
    step L s (mkSys w' (<[ i := mkThread (cores th) l' ]> (threads s))
                    (kernel_log s))
| step_worker s c h :
    Cell.get (hank (world s)) c = Some h ->
    step L s (mkSys (mkWorld (g (world s))
                       (update c (fun _ => fst (AiCore.poll h)) (hank (world s)))
                       (sh (world s)) (log (world s)))
                    (threads s)
                    (kernel_log s ++ logged c (snd (AiCore.poll h)))).

Inductive reachable (L : Layout.t) (s0 : Sys) : Sys -> Prop :=
| reach_start : reachable L s0 s0
| reach_step s s' : reachable L s0 s -> step L s s' -> reachable L s0 s'.

(** The system when every thread has passed the initialisation barrier. *)
Definition start (gr : Graph) (cells : list Handshake) (s : Shared)
           (assignment : list (list Z)) : option Sys :=
  match init gr s with
  | None => None
  | Some s1 =>
      Some (mkSys (mkWorld gr cells s1 [])
                  (map (fun cs => mkThread cs (enter s1)) assignment) [])
  end.

(** The fan-in counter and the kind of task [v], and the contents of the
    two queues. *)
Definition fanin_of (gr : Graph) (v : Z) : Z :=
  match get_task gr v with Some t => fanin t | None => 0 end.

Definition kind_of (gr : Graph) (v : Z) : Z :=
  match get_task gr v with Some t => core_type t | None => 0 end.

Definition queued_aic (s : Shared) : list Z :=
  queued (ready_queue_aic s) (ready_count_aic s).

Definition queued_aiv (s : Shared) : list Z :=
  queued (ready_queue_aiv s) (ready_count_aiv s).

(** Both queue arrays can be indexed by an [int]. *)
Definition int_indexed (s : Shared) : Prop :=
  Z.of_nat (length (ready_queue_aic s)) <= Int32.max_int /\
  Z.of_nat (length (ready_queue_aiv s)) <= Int32.max_int.

(** Every fan-in counter holds an [int]. *)
Definition int_counters (gr : Graph) : Prop :=
  forall v t, get_task gr v = Some t -> Int32.in_range (fanin t).

(** *** What stays true while the threads run *)

(** A Cube cell gets a Cube task; a Vector cell gets a task of the
    Vector queue, that is, one that is not a Cube task. *)
Definition kinds_agree (cell_kind task_kind : Z) : Prop :=
  (cell_kind = 0 /\ task_kind = 0) \/ (cell_kind = 1 /\ task_kind <> 0).

Definition same_kinds (gr gr' : Graph) : Prop :=
  forall i, core_type <$> get_task gr' i = core_type <$> get_task gr i.

Definition same_cell_kinds (cells cells' : list Handshake) : Prop :=
  forall c, Cell.core_type <$> Cell.get cells' c = Cell.core_type <$> Cell.get cells c.

(** The occupied slots of the AIC queue hold Cube tasks, those of the AIV
    queue hold the others. *)
Definition sorted_aic (gr : Graph) (s : Shared) : Prop :=
  forall j, 0 <= j < ready_count_aic s ->
    exists id t, read (ready_queue_aic s) j = Some id /\
                 get_task gr id = Some t /\ core_type t = 0.

Definition sorted_aiv (gr : Graph) (s : Shared) : Prop :=
  forall j, 0 <= j < ready_count_aiv s ->
    exists id t, read (ready_queue_aiv s) j = Some id /\
                 get_task gr id = Some t /\ core_type t <> 0.

(** Every pointer published so far went to a cell of the task's kind. *)
Definition dispatches_agree (L : Layout.t) (gr : Graph) (cells : list Handshake)
           (stores : list Store) : Prop :=
  forall c p, StTask c p ∈ stores -> p <> 0 ->
    exists i t h, p = Layout.addr L i /\ get_task gr i = Some t /\
                  Cell.get cells c = Some h /\
                  kinds_agree (Cell.core_type h) (core_type t).

Definition affine (L : Layout.t) (gr : Graph) (cells : list Handshake)
           (w : World) : Prop :=
  same_kinds gr (g w) /\ same_cell_kinds cells (hank w) /\
  sorted_aic gr (sh w) /\ sorted_aiv gr (sh w) /\
  dispatches_agree L gr cells (log w).

(** The [functionBinAddr] the worker finds at a task pointer. *)
Definition entry_point (L : Layout.t) (gr : Graph) (p : Z) : Z :=
  match Layout.index L p with
  | Some i => match get_task gr i with
              | Some t => functionBinAddr t
              | None => 0
              end
  | None => 0
  end.

(** The kernels the workers have invoked, oldest first. *)
Definition kernel_calls (L : Layout.t) (s : Sys) : list Z :=
  flat_map (fun cp => AiCore.execute_task (entry_point L (g (world s))) (snd cp))
           (kernel_log s).

(** How often the scheduler has published a pointer to task [i]. *)
Definition times_dispatched (L : Layout.t) (i : Z) (s : Sys) : nat :=
  length (List.filter (fun st => match st with
                                 | StTask _ p => p =? Layout.addr L i
                                 | StStatus _ _ => false
                                 end)
                      (log (world s))).

(** How many of the stores clear a cell ([task = 0]) and how many ring
    a doorbell ([task_status = 1] after a pointer). *)
Definition collections (tr : list Store) : Z :=
  Z.of_nat (length (List.filter (fun st => match st with
                                           | StTask _ p => p =? 0
                                           | StStatus _ _ => false
                                           end) tr)).

Definition publications (tr : list Store) : Z :=
  Z.of_nat (length (List.filter (fun st => match st with
                                           | StTask _ _ => false
                                           | StStatus _ _ => true
                                           end) tr)).

(** What a thread has done since [(w0, l0)]: its stores, and the
    counters moved by as much as the stores say. *)
Definition accounted (w0 : World) (l0 : Local) (wl : World * Local) : Prop :=
  exists tr, log (fst wl) = log w0 ++ tr /\
    cur_thread_completed (snd wl) = cur_thread_completed l0 + collections tr /\
    cur_thread_tasks_in_flight (snd wl)
      = cur_thread_tasks_in_flight l0 - collections tr + publications tr /\
    task_count (snd wl) = task_count l0 /\
    completed_tasks (sh (fst wl))
      = Int32.wrap (completed_tasks (sh w0) + collections tr) /\
    total_tasks (sh (fst wl)) = total_tasks (sh w0).

(** Both counts fit the arrays they index. *)
Definition counts_fit (s : Shared) : Prop :=
  ready_count_aic s <= Z.of_nat (length (ready_queue_aic s)) /\
  ready_count_aiv s <= Z.of_nat (length (ready_queue_aiv s)).

(** The locals of all threads, added up. *)
Definition in_flight_total (ths : list Thread) : Z :=
  foldr (fun th acc => cur_thread_tasks_in_flight (loc th) + acc) 0 ths.

Definition completed_total (ths : list Thread) : Z :=
  foldr (fun th acc => cur_thread_completed (loc th) + acc) 0 ths.

(** The counters agree with the stores made so far. *)
Definition balanced (st : Sys) : Prop :=
  completed_tasks (sh (world st)) = Int32.wrap (collections (log (world st))) /\
  completed_total (threads st) = collections (log (world st)) /\
  in_flight_total (threads st)
    = publications (log (world st)) - collections (log (world st)).

(** *** The run as a sequence of publications and collections *)

(** The ids of the task records of a graph. *)
Definition ids (gr : Graph) : list Z := upto (Z.of_nat (length (tasks gr))).

Definition fanout_of (gr : Graph) (u : Z) : list Z :=
  match get_task gr u with Some t => fanout t | None => [] end.

(** The predecessors of [v] that are not among [finished]. *)
Definition pending_preds (gr : Graph) (finished : list Z) (v : Z) : list Z :=
  List.filter (fun u => bool_decide (v ∈ fanout_of gr u)
                        && negb (bool_decide (u ∈ finished)))
              (ids gr).

(** The tasks published by the stores [tr], oldest first. *)
Definition dispatched (L : Layout.t) (tr : list Store) : list Z :=
  flat_map (fun st => match st with
                      | StTask _ p =>
                          if p =? 0 then []
                          else match Layout.index L p with
                               | Some i => [i]
                               | None => []
                               end
                      | StStatus _ _ => []
                      end) tr.

(** The task a store collects: [task = 0] collects what the cell held. *)
Definition collects (L : Layout.t) (cells : list Handshake) (st : Store) : list Z :=
  match st with
  | StTask c p =>
      if p =? 0 then
        match Cell.get cells c with
        | Some h => match Layout.index L (task h) with
                    | Some i => [i]
                    | None => []
                    end
        | None => []
        end
      else []
  | StStatus _ _ => []
  end.

(** The tasks whose completion the stores [tr] collect, oldest first,
    when the cells start as [cells]. *)
Fixpoint collected (L : Layout.t) (cells : list Handshake) (tr : list Store)
  : list Z :=
  match tr with
  | [] => []
  | st :: rest => collects L cells st ++ collected L (apply_store st cells) rest
  end.

(** The graph as the builder leaves it: no edge is listed twice, every
    fan-in counter holds the in-degree of its task, and the ids fit an
    [int]. *)
Definition well_formed (gr : Graph) : Prop :=
  (forall u t, get_task gr u = Some t -> NoDup (fanout t)) /\
  (forall v t, get_task gr v = Some t ->
     fanin t = Z.of_nat (length (pending_preds gr [] v))) /\
  Z.of_nat (length (tasks gr)) <= Int32.max_int.

(** Every task was published only after the completions of all its
    predecessors had been collected. *)
Definition dag_safe (L : Layout.t) (gr : Graph) (cells : list Handshake)
           (tr : list Store) : Prop :=
  forall pre c p post, tr = pre ++ StTask c p :: post -> p <> 0 ->
    exists v, p = Layout.addr L v /\
      forall u, v ∈ fanout_of gr u -> u ∈ collected L cells pre.

(** What holds of the memory after the stores in the log, for a run on
    the graph [gr0] started with the cells [cells0]. *)
Definition dag_invariant (L : Layout.t) (gr0 : Graph) (cells0 : list Handshake)
           (w : World) : Prop :=
  let D := dispatched L (log w) in
  let C := collected L cells0 (log w) in
  (forall c, task <$> Cell.get (hank w) c
             = task <$> Cell.get (replay (log w) cells0) c) /\
  NoDup ((queued_aic (sh w) ++ queued_aiv (sh w)) ++ D) /\
  NoDup C /\ (forall i, i ∈ C -> i ∈ D) /\
  (forall c h, Cell.get (hank w) c = Some h -> task h <> 0 ->
     exists i, task h = Layout.addr L i /\ 0 <= i /\ i ∈ D /\ i ∉ C) /\
  (forall c c' h h', Cell.get (hank w) c = Some h -> Cell.get (hank w) c' = Some h' ->
     task h <> 0 -> task h = task h' -> c = c') /\
  (forall v, get_task (g w) v
             = set_fanin (Z.of_nat (length (pending_preds gr0 C v)))
               <$> get_task gr0 v) /\
  (forall v, v ∈ (queued_aic (sh w) ++ queued_aiv (sh w)) ++ D ->
     pending_preds gr0 C v = []) /\
  int_indexed (sh w) /\
  dag_safe L gr0 cells0 (log w) /\
  (forall i, i ∈ C -> i ∈ ids gr0) /\
  collections (log w) = Z.of_nat (length C).

(** *** One scheduler thread, core by core *)

(** Where the thread stands in the loop of [execute]
    (graphexecutor.cpp:107-206). *)
Inductive At :=
| AtHead                  (* about to test the loop condition *)
| Collecting (i : nat)    (* phase 1, about to look at entry [i] of its cores *)
| Dispatching (i : nat)   (* phase 2, about to look at entry [i] of its cores *)
| Exited.                 (* the loop has ended *)

Record Solo := mkSolo {
  here   : World;
  locals : Local;
  at_    : At
}.

(** The next step of the thread that owns [cores]: the test of the loop
    condition (line 107), the work on one core in phase 1 (lines 110-154)
    or in phase 2 (lines 162-205), or the test between the phases
    (line 157). *)
Definition thread_next (L : Layout.t) (cores : list Z) (s : Solo) : option Solo :=
  let w := here s in
  let l := locals s in
  match at_ s with
  | AtHead =>
      Some (mkSolo w l (if completed_tasks (sh w) <? task_count l
                        then Collecting 0 else Exited))
  | Collecting i =>
      match cores !! i with
      | Some c =>
          match collect_core L c (w, l) with
          | Some (w', l') => Some (mkSolo w' l' (Collecting (S i)))
          | None => None
          end
      | None =>
          Some (mkSolo w l (if Z.of_nat (length cores) <=? cur_thread_tasks_in_flight l
                            then AtHead else Dispatching 0))
      end
  | Dispatching i =>
      match cores !! i with
      | Some c =>
          match dispatch_core L c (w, l) with
          | Some (w', l') => Some (mkSolo w' l' (Dispatching (S i)))
          | None => None
          end
      | None => Some (mkSolo w l AtHead)
      end
  | Exited => Some s
  end.

(** The one store a worker makes to its cell after the bring-up:
    [task_status = 0] (aicore_kernel.cpp:140). *)
Definition worker_store (c : Z) (s : Solo) : Solo :=
  mkSolo (mkWorld (g (here s)) (update c (set_task_status 0) (hank (here s)))
                  (sh (here s)) (log (here s)))
         (locals s) (at_ s).

(** A run of [execute] with a single scheduler thread.  Between any two
    steps of the thread a worker's store may land, on any cell and
    whether or not a kernel ran before it.  The thread reads
    [task_status] before [task] and stores [task_status = 1] last, so a
    worker's store that lands while the thread works on a core acts as
    one that lands just before or just after that work. *)
Inductive solo_step (L : Layout.t) (cores : list Z) : Solo -> Solo -> Prop :=
| solo_thread s s' : thread_next L cores s = Some s' -> solo_step L cores s s'
| solo_worker s c : solo_step L cores s (worker_store c s).

Inductive solo_reachable (L : Layout.t) (cores : list Z) (s0 : Solo) : Solo -> Prop :=
| solo_start_here : solo_reachable L cores s0 s0
| solo_then s s' :
    solo_reachable L cores s0 s -> solo_step L cores s s' ->
    solo_reachable L cores s0 s'.

(** The thread at the head of its loop, after the initialisation. *)
Definition solo_start (gr : Graph) (cells : list Handshake) (s : Shared)
  : option Solo :=
  match init gr s with
  | Some s1 => Some (mkSolo (mkWorld gr cells s1 []) (enter s1) AtHead)
  | None => None
  end.

(** How many of the stores [tr] publish task [i]. *)
Definition published_times (L : Layout.t) (i : Z) (tr : list Store) : nat :=
  length (List.filter (fun st => match st with
                                 | StTask _ p => p =? Layout.addr L i
                                 | StStatus _ _ => false
                                 end) tr).

(** What holds of the single-thread run on the graph [gr0], started
    with the cells [cells0] and the shared state [s1] the
    initialisation left. *)
Definition solo_invariant (L : Layout.t) (gr0 : Graph) (cells0 : list Handshake)
           (s1 : Shared) (s : Solo) : Prop :=
  dag_invariant L gr0 cells0 (here s) /\
  accounted (mkWorld gr0 cells0 s1 []) (enter s1) (here s, locals s) /\
  (at_ s = Exited -> task_count (locals s) <= completed_tasks (sh (here s))).

End GraphExecutor.

(* ===================================================================== *)
(** ** Bring-up of the scheduler threads (platform/a2a3/aicpu/kernel.cpp) *)
(* ===================================================================== *)

Module Platform.
Import Loop.

Definition MAX_AICPU_THREADS    : Z := 4.
Definition MAX_AIC_PER_THREAD   : Z := 24.
Definition MAX_AIV_PER_THREAD   : Z := 48.
Definition MAX_CORES_PER_THREAD : Z := MAX_AIC_PER_THREAD + MAX_AIV_PER_THREAD.

(** The fields of the launch descriptor that [Init] reads:
    [deviceArgs->scheCpuNum], [deviceArgs->nrAic] (both [uint32_t]) and
    [kargs->core_num] (an [int64_t]). *)
Record KernelArgs := mkArgs {
  scheCpuNum : Z;
  nrAic      : Z;
  core_num   : Z
}.

Record MultiThreadManager := mkMgr {
  thread_idx_       : Z;
  initialized_      : bool;
  init_done_        : bool;
  init_failed_      : bool;
  finished_         : Z;
  thread_num_       : Z;
  total_cores_      : Z;
  cores_per_thread_ : Z;
  core_assignments_ : list (list Z)
}.

(** [g_mt_mgr] has static storage: zero-initialised, and a table of
    [MAX_AICPU_THREADS] rows of [MAX_CORES_PER_THREAD] entries. *)
Definition g_mt_mgr : MultiThreadManager :=
  mkMgr 0 false false false 0 0 0 0
        (replicate (Z.to_nat MAX_AICPU_THREADS)
                   (replicate (Z.to_nat MAX_CORES_PER_THREAD) 0)).

(** [core_assignments_[t][j] = v]. *)
Definition assign (t j v : Z) (table : list (list Z)) : list (list Z) :=
  match read table t with
  | Some row =>
      match write row j v with
      | Some row' => <[ Z.to_nat t := row' ]> table
      | None => table
      end
  | None => table
  end.

(** [core_assignments_[t][j]]. *)
Definition entry (table : list (list Z)) (t j : Z) : option Z :=
  match read table t with
  | Some row => read row j
  | None => None
  end.

(** The body of the loop over threads (kernel.cpp:62-74). *)
Definition assign_thread (num_aic : Z) (table : list (list Z)) (t : Z)
  : list (list Z) :=
  let aic_idx := t in
  let aiv_base := num_aic in
  let aiv_idx0 := Int32.add aiv_base (t * 2) in
  let aiv_idx1 := Int32.add aiv_idx0 1 in
  assign t 2 aiv_idx1 (assign t 1 aiv_idx0 (assign t 0 aic_idx table)).

(** The thread count [Init] works with (kernel.cpp:39-40). *)
Definition effective_threads (k : KernelArgs) : Z :=
  let n := Int32.wrap (scheCpuNum k) in
  if n =? 0 then 1 else n.

(** The core count [Init] works with (kernel.cpp:42): the [int64_t] of
    the descriptor stored into the [int] [total_cores_]. *)
Definition total_cores (k : KernelArgs) : Z := Int32.wrap (core_num k).

(** [total_cores_ / thread_num_] (kernel.cpp:43), the quotient of two
    [int]s truncated toward zero.  The one quotient that is not an
    [int], [INT_MIN / -1], is undefined behaviour in C; [div_defined]
    rules it out. *)
Definition cores_per_thread (k : KernelArgs) : Z :=
  Z.quot (total_cores k) (effective_threads k).

Definition div_defined (k : KernelArgs) : Prop :=
  ~ (total_cores k = Int32.min_int /\ effective_threads k = -1).

(** [Init] after it has won the compare-and-swap (kernel.cpp:36-78). *)
Definition init_body (k : KernelArgs) (m : MultiThreadManager)
  : MultiThreadManager * Z :=
  let thread_num := effective_threads k in
  let total_cores := total_cores k in
  let cores_per_thread := cores_per_thread k in
  let m1 := mkMgr (thread_idx_ m) (initialized_ m) (init_done_ m) (init_failed_ m)
                  (finished_ m) thread_num total_cores cores_per_thread
                  (core_assignments_ m) in
  let failed := mkMgr (thread_idx_ m1) (initialized_ m1) (init_done_ m1) true
                      (finished_ m1) thread_num total_cores cores_per_thread
                      (core_assignments_ m1) in
  if (thread_num <? 1) || (MAX_AICPU_THREADS <? thread_num) then (failed, -1)
  else if MAX_CORES_PER_THREAD <? cores_per_thread then (failed, -1)
  else
    let num_aic := Int32.wrap (nrAic k) in
    let table := fold_left (assign_thread num_aic) (upto thread_num)
                           (core_assignments_ m1) in
    (mkMgr (thread_idx_ m1) (initialized_ m1) true (init_failed_ m1)
           (finished_ m1) thread_num total_cores cores_per_thread table, 0).

Definition set_initialized (b : bool) (m : MultiThreadManager) : MultiThreadManager :=
  mkMgr (thread_idx_ m) b (init_done_ m) (init_failed_ m) (finished_ m)
        (thread_num_ m) (total_cores_ m) (cores_per_thread_ m)
        (core_assignments_ m).

(** [MultiThreadManager::Init] (kernel.cpp:30-79). *)
Definition Init (k : KernelArgs) (m : MultiThreadManager)
  : MultiThreadManager * Z :=
  if initialized_ m then (m, 0)
  else init_body k (set_initialized true m).

(** [MultiThreadManager::DeInit] (kernel.cpp:177-183). *)
Definition DeInit (m : MultiThreadManager) : MultiThreadManager :=
  mkMgr 0 false false false 0
        (thread_num_ m) (total_cores_ m) (cores_per_thread_ m)
        (core_assignments_ m).

(** Step 5 of the server entry (kernel.cpp:268-273). *)
Definition finish (m : MultiThreadManager) : MultiThreadManager :=
  let prev_finished := finished_ m in
  let m1 := mkMgr (thread_idx_ m) (initialized_ m) (init_done_ m) (init_failed_ m)
                  (Int32.add prev_finished 1)
                  (thread_num_ m) (total_cores_ m) (cores_per_thread_ m)
                  (core_assignments_ m) in
  if prev_finished + 1 =? thread_num_ m then DeInit m1 else m1.

(** [Run] takes the next thread index (kernel.cpp:146).  What it then
    does to the cells and the graph is the matter of [GraphExecutor]. *)
Definition enter_run (m : MultiThreadManager) : MultiThreadManager :=
mkMgr (Int32.add (thread_idx_ m) 1) (initialized_ m) (init_done_ m)
      (init_failed_ m) (finished_ m) (thread_num_ m) (total_cores_ m)
      (cores_per_thread_ m) (core_assignments_ m).

(** Where a scheduler thread stands in [DynTileFwkBackendKernelServer]
    (kernel.cpp:237-277). *)
Inductive Pc :=
| CallInit               (* about to call Init *)
| InInit                 (* won the compare-and-swap, inside Init *)
| LoadDone               (* about to load init_done_ *)
| LoadFailed             (* inside the spin loop, about to load init_failed_ *)
| InRun                  (* past the barrier, about to call Run *)
| Running (thread_idx : Z)  (* inside Run: handshake, execute, shutdown *)
| Finishing              (* Run has returned 0, about to add to finished_ *)
| Returned (rc : Z).

(** One access of a thread to the manager, with the local work up to the
    next one.  A thread inside [Run] busy-waits on the workers
    (kernel.cpp:112) and loops in [execute]; as long as it does, the
    manager sees nothing of it and the thread stays where it is. *)
Definition thread_step (k : KernelArgs) (m : MultiThreadManager) (pc : Pc)
  : MultiThreadManager * Pc :=
  match pc with
  | CallInit =>
      if initialized_ m then (m, LoadDone)
      else (set_initialized true m, InInit)
  | InInit => (fst (init_body k m), LoadDone)
  | LoadDone => if init_done_ m then (m, InRun) else (m, LoadFailed)
  | LoadFailed => if init_failed_ m then (m, Returned (-1)) else (m, LoadDone)
  | InRun => (enter_run m, Running (thread_idx_ m))
  | Running thread_idx => (m, Running thread_idx)
  | Finishing => (finish m, Returned 0)
  | Returned rc => (m, Returned rc)
  end.

Record Server := mkServer {
  mgr : MultiThreadManager;
  pcs : list Pc
}.

(** Thread [i] takes its next step. *)
Definition run_thread (k : KernelArgs) (i : nat) (s : Server) : Server :=
  match pcs s !! i with
  | Some pc =>
      let (m', pc') := thread_step k (mgr s) pc in
      mkServer m' (<[ i := pc' ]> (pcs s))
  | None => s
  end.

(** A step of the server: a thread takes its next step, or the loops a
    thread runs inside [Run] come to an end and [Run] returns, which it
    does with 0 on every path (kernel.cpp:145-175).  Whether and when
    that happens depends on the workers and on the graph; nothing here
    says that it does. *)
Inductive step (k : KernelArgs) : Server -> Server -> Prop :=
| step_thread s i : (i < length (pcs s))%nat -> step k s (run_thread k i s)
| step_run_returns s i thread_idx :
    pcs s !! i = Some (Running thread_idx) ->
    step k s (mkServer (mgr s) (<[ i := Finishing ]> (pcs s))).

Inductive reachable (k : KernelArgs) (s0 : Server) : Server -> Prop :=
| reach_start : reachable k s0 s0
| reach_step s s' : reachable k s0 s -> step k s s' -> reachable k s0 s'.

(** [n] threads enter the server on a fresh manager. *)
Definition launch (n : nat) : Server := mkServer g_mt_mgr (replicate n CallInit).

(** Every thread takes one step, in the order of the thread indices. *)
Definition round (k : KernelArgs) (s : Server) : Server :=
  fold_left (fun s i => run_thread k i s) (seq 0 (length (pcs s))) s.

(** One round, thread by thread. *)
Fixpoint sweep (k : KernelArgs) (m : MultiThreadManager) (l : list Pc)
  : MultiThreadManager * list Pc :=
  match l with
  | [] => (m, [])
  | pc :: rest =>
      let (m1, pc') := thread_step k m pc in
      let (m2, rest') := sweep k m1 rest in
      (m2, pc' :: rest')
  end.

(** The thread is not past the barrier: it is neither about to call
    [Run], nor inside it, nor back from it; and if it has returned, it
    has returned the error code. *)
Definition held_back (pc : Pc) : Prop :=
  pc <> InRun /\ (forall thread_idx, pc <> Running thread_idx) /\
  pc <> Finishing /\ forall rc, pc = Returned rc -> rc = -1.

(** The two failure conditions: more scheduler threads configured than
    [MAX_AICPU_THREADS], or more cores per thread than
    [MAX_CORES_PER_THREAD]. *)
Definition rejected (k : KernelArgs) : Prop :=
  MAX_AICPU_THREADS < scheCpuNum k \/
  MAX_CORES_PER_THREAD < cores_per_thread k.

Definition uint32 (z : Z) : Prop := 0 <= z < 2 ^ 32.

(** The table has its declared shape. *)
Definition well_shaped (table : list (list Z)) : Prop :=
  length table = Z.to_nat MAX_AICPU_THREADS /\
  Forall (fun row => length row = Z.to_nat MAX_CORES_PER_THREAD) table.

(** What [Init] stores at [core_assignments_[t][j]] for [j < 3]. *)
Definition slot_value (num_aic t j : Z) : Z :=
  if j =? 0 then t
  else if j =? 1 then Int32.add num_aic (t * 2)
  else Int32.add (Int32.add num_aic (t * 2)) 1.

(** The three core indices [Init] gives thread [t]. *)
Definition owned (num_aic t : Z) : list Z :=
  [t; num_aic + 2 * t; num_aic + 2 * t + 1].

(** The cores [Run] hands to the handshake, to [execute] and to the
    shutdown (kernel.cpp:152-165): the first [cores_per_thread_] entries
    of the row of the thread. *)
Definition cur_thread_cores (m : MultiThreadManager) (thread_idx : Z)
  : option (list Z) :=
  match read (core_assignments_ m) thread_idx with
  | Some row =>
      if cores_per_thread_ m <=? Z.of_nat (length row)
      then Some (take (Z.to_nat (cores_per_thread_ m)) row)
      else None
  | None => None
  end.

(** A configuration [Init] accepts. *)
Definition accepted (k : KernelArgs) : Prop :=
  1 <= effective_threads k <= MAX_AICPU_THREADS /\
  cores_per_thread k <= MAX_CORES_PER_THREAD.

(** [n] threads enter the server on the manager as an earlier launch
    left it. *)
Definition relaunch (m : MultiThreadManager) (n : nat) : Server :=
  mkServer m (replicate n CallInit).

(** The flags of a manager no launch is using. *)
Definition at_rest (m : MultiThreadManager) : Prop :=
  initialized_ m = false /\ init_done_ m = false /\ init_failed_ m = false /\
  thread_idx_ m = 0 /\ finished_ m = 0.

(** The flags a failed initialisation leaves behind. *)
Definition poisoned (m : MultiThreadManager) : Prop :=
  initialized_ m = true /\ init_done_ m = false /\ init_failed_ m = true.

(** The first loop of [HankAiCore] (kernel.cpp:102-107) and the loop of
    [ShutdownAiCore] (kernel.cpp:135-140) over the thread's cores. *)
Definition HankAiCore_signal (cores : list Z) (cells : list Cell.Handshake)
  : option (list Cell.Handshake) :=
  foreach (Cell.poke (Cell.set_aicpu_ready 1)) cores cells.

Definition ShutdownAiCore (cores : list Z) (cells : list Cell.Handshake)
  : option (list Cell.Handshake) :=
  foreach (Cell.poke (Cell.set_control 1)) cores cells.




(** How many of the threads satisfy [f]. *)
Definition count (f : Pc -> bool) (l : list Pc) : Z :=
  Z.of_nat (length (List.filter f l)).



End Platform.

(* ===================================================================== *)
(** ** The doorbell queue of the reference example
       (ref_runtime/host_device_share_mem_task_submit_example.c) *)
(* ===================================================================== *)

Module TaskQueue.
Import Loop.

Definition TASK_QUEUE_DEPTH : Z := 256.

Record TaskContext := mkContext {
  task_queue  : list Z;
  queue_head  : Z;
  queue_tail  : Z;
  queue_count : Z
}.

(** [init_context] zeroes the whole context. *)
Definition init_context : TaskContext :=
  mkContext (replicate (Z.to_nat TASK_QUEUE_DEPTH) 0) 0 0 0.

(** An [int32_t] slot read back as a [uint32_t]. *)
Definition to_uint32 (z : Z) : Z := z mod 2 ^ 32.

(** [submit_task] (lines 49-60): the slot at the tail, the count, then
    the tail as the doorbell.  [queue_count] is an [int32_t]: the
    increment wraps around. *)
Definition submit_task (task : Z) (ctx : TaskContext) : option TaskContext :=
  match write (task_queue ctx) (queue_tail ctx) (Int32.wrap task) with
  | Some q =>
      Some (mkContext q (queue_head ctx)
                      (Z.rem (queue_tail ctx + 1) TASK_QUEUE_DEPTH)
                      (Int32.add (queue_count ctx) 1))
  | None => None
  end.

(** [read_task] (lines 62-73). *)
Definition read_task (ctx : TaskContext) : option (Z * TaskContext) :=
  match read (task_queue ctx) (queue_head ctx) with
  | Some t =>
      Some (to_uint32 t,
            mkContext (task_queue ctx)
                      (Z.rem (queue_head ctx + 1) TASK_QUEUE_DEPTH)
                      (queue_tail ctx) (Int32.sub (queue_count ctx) 1))
  | None => None
  end.

(** The loop of [device_main_entry] (lines 106-110) on a queue the host
    leaves alone meanwhile; the result lists the tasks read, oldest
    first.  [fuel] bounds the number of iterations. *)
Fixpoint device_main_entry (fuel : nat) (ctx : TaskContext)
  : option (list Z * TaskContext) :=
  if queue_head ctx =? queue_tail ctx then Some ([], ctx)
  else
    match fuel with
    | O => None
    | S fuel' =>
        match read_task ctx with
        | Some (t, ctx1) =>
            match device_main_entry fuel' ctx1 with
            | Some (ts, ctx2) => Some (t :: ts, ctx2)
            | None => None
            end
        | None => None
        end
    end.

(** The host submits the tasks of [l], oldest first. *)
Definition submit_all (l : list Z) (ctx : TaskContext) : option TaskContext :=
  foreach submit_task l ctx.

(** The context has its declared shape: the array has its 256 slots,
    both indices are inside it and [queue_count] holds an [int32_t]. *)
Definition wf (ctx : TaskContext) : Prop :=
  length (task_queue ctx) = Z.to_nat TASK_QUEUE_DEPTH /\
  0 <= queue_head ctx < TASK_QUEUE_DEPTH /\
  0 <= queue_tail ctx < TASK_QUEUE_DEPTH /\
  Int32.in_range (queue_count ctx).

End TaskQueue.

(* ===================================================================== *)
(** ** Two small runs *)
(* ===================================================================== *)

Module Scenario.

(** *** Two independent Cube tasks on one Cube core (aicpu_kernel.cpp) *)

Definition L : Layout.t := Layout.pto 4096.

Definition cube_task (i : Z) : AicpuKernel.PTOTask :=
  AicpuKernel.mkTask i (32768 + i) 0 0 [] AicpuKernel.PTO_TASK_PENDING 0.

Definition two_tasks : AicpuKernel.PTOTaskGraph :=
  AicpuKernel.mkGraph 2 0 [cube_task 0; cube_task 1].

(** [execute_graph] has marked both tasks ready. *)
Definition entered : option AicpuKernel.World :=
  match AicpuKernel.execute_graph_init two_tasks with
  | Some g => Some (AicpuKernel.mkWorld g [Cell.reset 0] [])
  | None => None
  end.

(** First turn of the main loop: task 0 goes to core 0. *)
Definition first_turn : option AicpuKernel.World :=
  match entered with
  | Some w => AicpuKernel.main_loop_turn L 1 1 w
  | None => None
  end.

(** The worker runs task 0 and clears [task_status] before the scheduler
    calls [schedule_tasks] again. *)
Definition worker_done : option AicpuKernel.World :=
  match first_turn with
  | Some w => Some (AicpuKernel.worker_turn 0 w)
  | None => None
  end.

(** The rest of the run: task 1 is scheduled, run and collected. *)
Definition second_turn : option AicpuKernel.World :=
  match worker_done with
  | Some w => AicpuKernel.main_loop_turn L 1 1 w
  | None => None
  end.

Definition final : option AicpuKernel.World :=
  match second_turn with
  | Some w => AicpuKernel.main_loop_turn L 1 1 (AicpuKernel.worker_turn 0 w)
  | None => None
  end.

(** *** One Cube task on one Cube core (graphexecutor.cpp) *)

Definition GL : Layout.t := Layout.mk 65536 128.

Definition one_task : GraphExecutor.Graph :=
  GraphExecutor.mkGraph 1 [GraphExecutor.mkTask 0 32768 0 [] 0].

Definition fresh : GraphExecutor.Shared :=
  GraphExecutor.mkShared (replicate 4 0) 0 (replicate 4 0) 0 0 0 false 0.

Definition launched : option GraphExecutor.Sys :=
  GraphExecutor.start one_task [Cell.reset 0] fresh [[0]].

(** *** A dependent that is no longer pending (aicpu_kernel.cpp) *)

Definition running_dependent : AicpuKernel.PTOTaskGraph :=
  AicpuKernel.mkGraph 2 0
    [AicpuKernel.mkTask 0 32768 0 0 [1] AicpuKernel.PTO_TASK_RUNNING 0;
     AicpuKernel.mkTask 1 32769 1 1 [] AicpuKernel.PTO_TASK_RUNNING 0].

(** The cell of core 0 reports task 0 as finished. *)
Definition stale_world : AicpuKernel.World :=
  AicpuKernel.mkWorld running_dependent
    [Cell.mkHandshake 1 1 0 (Layout.addr L 0) 0 0] [].

(** Both tasks of [two_tasks] ready, as [execute_graph] leaves them. *)
Definition ready_world : AicpuKernel.World :=
  AicpuKernel.mkWorld
    (AicpuKernel.mkGraph 2 0
       [AicpuKernel.set_status AicpuKernel.PTO_TASK_READY (cube_task 0);
        AicpuKernel.set_status AicpuKernel.PTO_TASK_READY (cube_task 1)])
    [Cell.reset 0] [].

(** *** A completed task with two successors (graphexecutor.cpp) *)

Definition fork : GraphExecutor.Graph :=
  GraphExecutor.mkGraph 3
    [GraphExecutor.mkTask 0 32768 0 [1; 2] 0;
     GraphExecutor.mkTask 1 32769 1 [] 1;
     GraphExecutor.mkTask 2 32770 2 [] 0].

Definition done_cell : Cell.Handshake :=
  Cell.mkHandshake 1 1 0 (Layout.addr GL 0) 0 0.

Definition fork_world : GraphExecutor.World :=
  GraphExecutor.mkWorld fork [done_cell]
    (GraphExecutor.mkShared (replicate 4 0) 0 (replicate 4 0) 0 0 3 true 0) [].

(** A cell with a task pointer left over and [task_status == 0]. *)
Definition leftover : Cell.Handshake := Cell.mkHandshake 1 1 0 4096 0 0.

(** *** A chain of two Cube tasks on one Cube core (graphexecutor.cpp) *)

Definition chain : GraphExecutor.Graph :=
  GraphExecutor.mkGraph 2
    [GraphExecutor.mkTask 0 32768 0 [1] 0;
     GraphExecutor.mkTask 1 32769 1 [] 0].

(** One scheduler thread that owns core 0 runs the chain. *)
Definition chain_start : option GraphExecutor.Solo :=
  GraphExecutor.solo_start chain [Cell.reset 0] fresh.

(** A step of a run: the thread's next step, or a store of the worker
    of core [c]. *)
Inductive Move :=
| Thread
| Worker (c : Z).

Definition move (m : Move) (s : GraphExecutor.Solo) : option GraphExecutor.Solo :=
  match m with
  | Thread => GraphExecutor.thread_next GL [0] s
  | Worker c => Some (GraphExecutor.worker_store c s)
  end.

(** One time round the loop, and the worker's store after it. *)
Definition once_round : list Move := [Thread; Thread; Thread; Thread; Thread].

(** The first time round the loop publishes task 0; the worker finishes
    it. *)
Definition chain_first : option GraphExecutor.Solo :=
  chain_start ≫= Loop.foreach move (once_round ++ [Worker 0]).

(** The second time round collects task 0 and publishes task 1; the
    worker finishes it; the third time round collects task 1, and the
    thread leaves the loop. *)
Definition chain_run : option GraphExecutor.Solo :=
  chain_first
    ≫= Loop.foreach move (once_round ++ [Worker 0] ++ once_round ++ [Thread]).

End Scenario.

(* ===================================================================== *)
(** * Properties *)
(* ===================================================================== *)

(** The test the worker makes (aicore_kernel.cpp:130-135): it dispatches
    exactly when [control] is not 1 and [task] is not 0, whatever
    [task_status] holds, and clears [task_status] afterwards. *)
Lemma worker_dispatch_condition (h : Cell.Handshake) :
  (AiCore.dispatches h <-> Cell.control h <> 1 /\ Cell.task h <> 0) /\
  (forall v, snd (AiCore.poll (Cell.set_task_status v h)) = snd (AiCore.poll h)) /\
  (forall p, snd (AiCore.poll h) = AiCore.Executed p ->
     p = Cell.task h /\ fst (AiCore.poll h) = Cell.set_task_status 0 h).
Proof.
  unfold AiCore.dispatches, AiCore.poll.
  split; [split|split].
  - intros [p Hp].
    destruct (Z.eqb_spec (Cell.control h) 1); [discriminate|].
    destruct (Z.eqb_spec (Cell.task h) 0); [discriminate|]. done.
  - intros [Hc Ht].
    destruct (Z.eqb_spec (Cell.control h) 1); [done|].
    destruct (Z.eqb_spec (Cell.task h) 0); [done|]. by eexists.
  - intros v. destruct h as [r d c t st k]; simpl.
    destruct (c =? 1); [done|]. by destruct (t =? 0).
  - intros p.
    destruct (Z.eqb_spec (Cell.control h) 1); [discriminate|].
    destruct (Z.eqb_spec (Cell.task h) 0); simpl; [discriminate|].
    intros [= <-]. done.
Qed.

(** C1 at a failing input: a cell whose worker has finished its task
    ([task_status] is 0, the value the code's comment calls idle) and
    whose [task] the scheduler has not cleared yet.  The worker
    dispatches from it, although the doorbell [task_status == 1] is not
    set. *)
Theorem worker_dispatches_with_status_zero :
  Cell.task_status Scenario.leftover = 0 /\
  AiCore.dispatches Scenario.leftover /\
  ~ (forall h, AiCore.dispatches h -> Cell.task h <> 0 /\ Cell.task_status h = 1).
Proof.
  assert (Hd : AiCore.dispatches Scenario.leftover) by (by exists 4096).
  split; [done|]. split; [done|].
  intros Hall. destruct (Hall _ Hd) as [_ Hone]. discriminate.
Qed.

(* --------------------------------------------------------------------- *)
(** ** Arithmetic and array lemmas *)
(* --------------------------------------------------------------------- *)

Lemma wrap_small z : Int32.in_range z -> Int32.wrap z = z.
Proof.
  unfold Int32.in_range, Int32.min_int, Int32.max_int, Int32.wrap. intros H.
  rewrite Z.mod_small; lia.
Qed.

Lemma wrap_le z : Int32.min_int <= z -> Int32.wrap z <= z.
Proof.
  unfold Int32.min_int, Int32.wrap. intros H.
  pose proof (Z.mod_le (z + 2 ^ 31) (2 ^ 32)). lia.
Qed.

Lemma wrap_in_range z : Int32.in_range (Int32.wrap z).
Proof.
  unfold Int32.in_range, Int32.min_int, Int32.max_int, Int32.wrap.
  pose proof (Z.mod_pos_bound (z + 2 ^ 31) (2 ^ 32)). lia.
Qed.

Lemma wrap_add_l a b : Int32.wrap (Int32.wrap a + b) = Int32.wrap (a + b).
Proof.
  unfold Int32.wrap.
  replace ((a + 2 ^ 31) mod 2 ^ 32 - 2 ^ 31 + b + 2 ^ 31)
    with ((a + 2 ^ 31) mod 2 ^ 32 + b) by lia.
  rewrite Zplus_mod_idemp_l. f_equal. f_equal. lia.
Qed.

Lemma read_Some {A} (a : list A) i x :
  Loop.read a i = Some x -> 0 <= i < Z.of_nat (length a) /\ a !! Z.to_nat i = Some x.
Proof.
  unfold Loop.read. destruct (Z.leb_spec 0 i) as [Hi|Hi]; [|done].
  intros Hx. split; [|done]. apply lookup_lt_Some in Hx. lia.
Qed.

Lemma read_in_range {A} (a : list A) i :
  0 <= i < Z.of_nat (length a) -> exists x, Loop.read a i = Some x.
Proof.
  intros Hr. unfold Loop.read. destruct (Z.leb_spec 0 i) as [Hi|Hi]; [|lia].
  destruct (lookup_lt_is_Some_2 a (Z.to_nat i)) as [x Hx]; [lia|]. eauto.
Qed.

Lemma write_Some {A} (a : list A) i v a' :
  Loop.write a i v = Some a' ->
  0 <= i < Z.of_nat (length a) /\ a' = <[ Z.to_nat i := v ]> a.
Proof.
  unfold Loop.write.
  destruct (Z.leb_spec 0 i), (Z.ltb_spec i (Z.of_nat (length a))); simpl;
    intros [= <-]; auto.
Qed.

Lemma read_write {A} (a a' : list A) i v j :
  Loop.write a i v = Some a' ->
  Loop.read a' j = if decide (j = i) then Some v else Loop.read a j.
Proof.
  intros [Hi ->]%write_Some. unfold Loop.read.
  destruct (decide (j = i)) as [->|Hne].
  - destruct (Z.leb_spec 0 i) as [H0|H0]; [|lia]. apply list_lookup_insert_eq. lia.
  - destruct (Z.leb_spec 0 j) as [H0|H0]; [|done]. apply list_lookup_insert_ne. lia.
Qed.

Lemma upto_elem n i : i ∈ Loop.upto n <-> 0 <= i < n.
Proof.
  unfold Loop.upto. rewrite list_elem_of_fmap. split.
  - intros (k & -> & Hk). apply elem_of_seq in Hk. lia.
  - intros H. exists (Z.to_nat i). split; [lia|]. apply elem_of_seq. lia.
Qed.

Lemma write_in_range {A} (a : list A) i v :
  0 <= i < Z.of_nat (length a) -> Loop.write a i v = Some (<[ Z.to_nat i := v ]> a).
Proof.
  intros Hr. unfold Loop.write.
  destruct (Z.leb_spec 0 i), (Z.ltb_spec i (Z.of_nat (length a))); simpl; auto; lia.
Qed.

(* --------------------------------------------------------------------- *)
(** ** The bring-up manager *)
(* --------------------------------------------------------------------- *)

Section InitTable.
Import Platform.

Lemma well_shaped_row table t row :
  well_shaped table -> Loop.read table t = Some row ->
  length row = Z.to_nat MAX_CORES_PER_THREAD.
Proof.
  intros [_ Hrows] [_ Hrow]%read_Some.
  rewrite Forall_forall in Hrows. apply Hrows.
  eapply list_elem_of_lookup_2, Hrow.
Qed.

Lemma entry_assign table t j v :
  well_shaped table -> 0 <= t < MAX_AICPU_THREADS -> 0 <= j < MAX_CORES_PER_THREAD ->
  well_shaped (assign t j v table) /\
  forall t' j', entry (assign t j v table) t' j' =
                if decide (t' = t /\ j' = j) then Some v else entry table t' j'.
Proof.
  intros Hsh Ht Hj. unfold assign.
  destruct (read_in_range table t) as [row Hrow].
  { destruct Hsh as [-> _]. lia. }
  rewrite Hrow.
  pose proof (well_shaped_row _ _ _ Hsh Hrow) as Hlen.
  rewrite (write_in_range row j v) by lia.
  assert (Hw : Loop.write table t (<[Z.to_nat j:=v]> row)
               = Some (<[Z.to_nat t := <[Z.to_nat j:=v]> row]> table)).
  { apply write_in_range. destruct Hsh as [-> _]. lia. }
  split.
  - destruct Hsh as [Hl Hrows]. split.
    + by rewrite length_insert.
    + apply Forall_insert; [done|]. by rewrite length_insert.
  - intros t' j'. unfold entry. rewrite (read_write _ _ _ _ t' Hw).
    destruct (decide (t' = t)) as [->|Hne].
    + rewrite Hrow.
      rewrite (read_write row _ j v j' (write_in_range row j v ltac:(lia))).
      destruct (decide (j' = j)) as [->|Hj'].
      * rewrite decide_True; done.
      * rewrite decide_False; [done|]. intros [_ ?]. done.
    + rewrite decide_False; [done|]. intros [? _]. done.
Qed.

Lemma entry_assign_thread table a t :
  well_shaped table -> 0 <= t < MAX_AICPU_THREADS ->
  well_shaped (assign_thread a table t) /\
  forall t' j', entry (assign_thread a table t) t' j' =
                if decide (t' = t /\ 0 <= j' < 3) then Some (slot_value a t j')
                else entry table t' j'.
Proof.
  intros Hsh Ht. unfold assign_thread.
  assert (H72 : MAX_CORES_PER_THREAD = 72) by reflexivity.
  destruct (entry_assign table t 0 t Hsh Ht ltac:(lia)) as [Hsh0 He0].
  destruct (entry_assign _ t 1 (Int32.add a (t * 2)) Hsh0 Ht ltac:(lia))
    as [Hsh1 He1].
  destruct (entry_assign _ t 2 (Int32.add (Int32.add a (t * 2)) 1) Hsh1 Ht
              ltac:(lia)) as [Hsh2 He2].
  split; [done|]. intros t' j'. rewrite He2, He1, He0. unfold slot_value.
  repeat case_decide; repeat case_match; try done; try lia.
  all: exfalso; intuition lia.
Qed.

Lemma entry_assign_threads a ts : forall table,
  well_shaped table -> Forall (fun t => 0 <= t < MAX_AICPU_THREADS) ts ->
  well_shaped (fold_left (assign_thread a) ts table) /\
  forall t' j', entry (fold_left (assign_thread a) ts table) t' j' =
                if decide (t' ∈ ts /\ 0 <= j' < 3) then Some (slot_value a t' j')
                else entry table t' j'.
Proof.
  induction ts as [|t ts IH]; intros table Hsh Hts; cbn [fold_left].
  - split; [done|]. intros t' j'. case_decide as Hd; [|done].
    destruct Hd as [Hd%elem_of_nil _]. done.
  - apply Forall_cons in Hts as [Ht Hts].
    destruct (entry_assign_thread table a t Hsh Ht) as [Hsh1 He1].
    destruct (IH _ Hsh1 Hts) as [Hsh2 He2]. split; [done|].
    intros t' j'. rewrite He2, He1.
    repeat case_decide; try done.
    all: try (destruct_and?; subst; done).
    all: exfalso; rewrite ?elem_of_cons in *; tauto.
Qed.

End InitTable.

Lemma init_body_success k m m' :
  Platform.init_body k m = (m', 0) ->
  1 <= Platform.effective_threads k <= Platform.MAX_AICPU_THREADS /\
  Platform.cores_per_thread k <= Platform.MAX_CORES_PER_THREAD /\
  Platform.thread_num_ m' = Platform.effective_threads k /\
  Platform.init_done_ m' = true /\
  Platform.init_failed_ m' = Platform.init_failed_ m /\
  Platform.core_assignments_ m' =
    fold_left (Platform.assign_thread (Int32.wrap (Platform.nrAic k)))
              (Loop.upto (Platform.effective_threads k))
              (Platform.core_assignments_ m).
Proof.
  unfold Platform.init_body.
  destruct (Z.ltb_spec (Platform.effective_threads k) 1); simpl; [discriminate|].
  destruct (Z.ltb_spec Platform.MAX_AICPU_THREADS (Platform.effective_threads k));
    simpl; [discriminate|].
  destruct (Z.ltb_spec Platform.MAX_CORES_PER_THREAD (Platform.cores_per_thread k));
    [discriminate|].
  intros [= <-]. simpl. repeat split; lia.
Qed.

Lemma init_body_failure k m :
  Platform.effective_threads k < 1 \/
  Platform.MAX_AICPU_THREADS < Platform.effective_threads k \/
  Platform.MAX_CORES_PER_THREAD < Platform.cores_per_thread k ->
  snd (Platform.init_body k m) = -1 /\
  Platform.init_failed_ (fst (Platform.init_body k m)) = true /\
  Platform.init_done_ (fst (Platform.init_body k m)) = Platform.init_done_ m /\
  Platform.initialized_ (fst (Platform.init_body k m)) = Platform.initialized_ m.
Proof.
  intros Hrej. unfold Platform.init_body.
  destruct (Z.ltb_spec (Platform.effective_threads k) 1); simpl; [done|].
  destruct (Z.ltb_spec Platform.MAX_AICPU_THREADS (Platform.effective_threads k));
    simpl; [done|].
  destruct (Z.ltb_spec Platform.MAX_CORES_PER_THREAD (Platform.cores_per_thread k));
    [done|].
  lia.
Qed.

Lemma g_mt_mgr_well_shaped :
  Platform.well_shaped (Platform.core_assignments_ Platform.g_mt_mgr).
Proof. split; [reflexivity|]. repeat constructor. Defined.

(** C7 (as amended). When the one-shot initialisation succeeds, the first
    three entries of row [t] of the assignment table are [t],
    [nrAic + 2t] and [nrAic + 2t + 1] for every thread [t] below the thread
    count, and the rest of the row is left as it was.  The triples of two
    distinct threads are disjoint when the thread count does not exceed
    [nrAic]. *)
Theorem init_core_assignment (k : Platform.KernelArgs)
        (m m' : Platform.MultiThreadManager) :
  Platform.initialized_ m = false ->
  Platform.well_shaped (Platform.core_assignments_ m) ->
  0 <= Platform.nrAic k <= Int32.max_int - 2 * Platform.MAX_AICPU_THREADS ->
  Platform.Init k m = (m', 0) ->
  forall t, 0 <= t < Platform.thread_num_ m' ->
    map (Platform.entry (Platform.core_assignments_ m') t) [0; 1; 2]
      = map Some (Platform.owned (Platform.nrAic k) t) /\
    (forall j, 3 <= j ->
       Platform.entry (Platform.core_assignments_ m') t j
       = Platform.entry (Platform.core_assignments_ m) t j) /\
    (Platform.thread_num_ m' <= Platform.nrAic k ->
     forall u c, 0 <= u < Platform.thread_num_ m' -> u <> t ->
       c ∈ Platform.owned (Platform.nrAic k) t ->
       c ∉ Platform.owned (Platform.nrAic k) u).
Proof.
  intros Hfresh Hsh Haic HInit t Ht.
  unfold Platform.Init in HInit. rewrite Hfresh in HInit.
  apply init_body_success in HInit as (Htn & _ & Hnum & _ & _ & Htab).
  rewrite Hnum in *. simpl in Htab.
  assert (H4 : Platform.MAX_AICPU_THREADS = 4) by reflexivity.
  assert (Hmax : Int32.max_int = 2147483647) by reflexivity.
  destruct (entry_assign_threads (Int32.wrap (Platform.nrAic k))
              (Loop.upto (Platform.effective_threads k))
              (Platform.core_assignments_ m) Hsh) as [_ Hent].
  { apply Forall_forall. intros u Hu%upto_elem. lia. }
  rewrite <- Htab in Hent.
  assert (Hw : Int32.wrap (Platform.nrAic k) = Platform.nrAic k).
  { apply wrap_small. unfold Int32.in_range, Int32.min_int. lia. }
  rewrite Hw in Hent.
  split; [|split].
  - simpl. rewrite !Hent.
    rewrite !decide_True by (split; [apply upto_elem|]; lia).
    unfold Platform.slot_value, Platform.owned, Int32.add. simpl.
    rewrite !wrap_small by (unfold Int32.in_range, Int32.min_int; lia).
    by rewrite (Z.mul_comm t 2).
  - intros j Hj. rewrite Hent. rewrite decide_False; [done|]. lia.
  - intros Hle u c Hu Hne Hc Hc'. unfold Platform.owned in *.
    repeat (apply elem_of_cons in Hc as [Hc|Hc]);
      repeat (apply elem_of_cons in Hc' as [Hc'|Hc']);
      try (by apply elem_of_nil in Hc); try (by apply elem_of_nil in Hc'); lia.
Qed.

Lemma init_core_assignment_witness :
  let k := Platform.mkArgs 3 3 9 in
  let m' := fst (Platform.Init k Platform.g_mt_mgr) in
  map (Platform.entry (Platform.core_assignments_ m') 2) [0; 1; 2]
    = [Some 2; Some 7; Some 8] /\
  (forall c, c ∈ Platform.owned 3 2 -> c ∉ Platform.owned 3 1).
Proof.
  intros k m'.
  destruct (init_core_assignment k Platform.g_mt_mgr m' eq_refl
              g_mt_mgr_well_shaped
              ltac:(vm_compute; split; discriminate) eq_refl 2
              ltac:(vm_compute; split; [discriminate|reflexivity]))
    as (Hrow & _ & Hdisj).
  split; [exact Hrow|].
  intros c Hc. apply Hdisj; [vm_compute; discriminate | | | exact Hc]; try lia.
  vm_compute; split; [discriminate|reflexivity].
Defined.

(** C7, as stated, fails: with two AIC and four AIV cores and three
    scheduler threads, core index 2 is the first AIV core of thread 0 and
    the AIC core of thread 2. *)
Lemma init_assignments_overlap :
  let k := Platform.mkArgs 3 2 6 in
  let m' := fst (Platform.Init k Platform.g_mt_mgr) in
  snd (Platform.Init k Platform.g_mt_mgr) = 0 /\
  Platform.thread_num_ m' = 3 /\
  Platform.entry (Platform.core_assignments_ m') 0 1 = Some 2 /\
  Platform.entry (Platform.core_assignments_ m') 2 0 = Some 2 /\
  ~ (forall c, c ∈ Platform.owned 2 0 -> c ∉ Platform.owned 2 2).
Proof.
  vm_compute. repeat split; try reflexivity.
  intros H. apply (H 2).
  - apply elem_of_cons. right. apply elem_of_cons. by left.
  - apply elem_of_cons. by left.
Qed.

(** C10. If [scheCpuNum] is 0, initialisation takes the thread count to
    be 1 and goes on exactly as for [scheCpuNum = 1]: the thread-count
    check passes, and with a core count that fits one thread [Init]
    returns 0 with [init_done] set and [init_failed] left as it was. *)
Theorem zero_thread_count_runs_as_one (k : Platform.KernelArgs)
        (m : Platform.MultiThreadManager) :
  Platform.scheCpuNum k = 0 ->
  Platform.initialized_ m = false ->
  let r := Platform.Init k m in
  Platform.thread_num_ (fst r) = 1 /\
  r = Platform.Init (Platform.mkArgs 1 (Platform.nrAic k) (Platform.core_num k)) m /\
  (Platform.total_cores k <= Platform.MAX_CORES_PER_THREAD ->
     snd r = 0 /\ Platform.init_done_ (fst r) = true /\
     Platform.init_failed_ (fst r) = Platform.init_failed_ m).
Proof.
  intros Hzero Hfresh. unfold Platform.Init. rewrite Hfresh.
  assert (He0 : Platform.effective_threads k = 1).
  { unfold Platform.effective_threads. by rewrite Hzero. }
  assert (He1 : Platform.effective_threads
                  (Platform.mkArgs 1 (Platform.nrAic k) (Platform.core_num k)) = 1)
    by reflexivity.
  assert (Hq : forall k', Platform.effective_threads k' = 1 ->
                 Platform.cores_per_thread k' = Platform.total_cores k').
  { intros k' Hk'. unfold Platform.cores_per_thread. rewrite Hk'. apply Z.quot_1_r. }
  unfold Platform.init_body. rewrite He0, He1, (Hq _ He0), (Hq _ He1).
  change (Platform.total_cores
            (Platform.mkArgs 1 (Platform.nrAic k) (Platform.core_num k)))
    with (Platform.total_cores k).
  cbn [Platform.nrAic].
  change (1 <? 1) with false. change (Platform.MAX_AICPU_THREADS <? 1) with false.
  cbn [orb].
  destruct (Z.ltb_spec Platform.MAX_CORES_PER_THREAD (Platform.total_cores k));
    cbn [fst snd Platform.thread_num_ Platform.init_done_ Platform.init_failed_
         Platform.set_initialized];
    repeat split; try done; lia.
Qed.

Lemma zero_thread_count_runs_as_one_witness :
  let r := Platform.Init (Platform.mkArgs 0 1 3) Platform.g_mt_mgr in
  Platform.thread_num_ (fst r) = 1 /\ snd r = 0 /\
  Platform.init_failed_ (fst r) = false.
Proof.
  intros r.
  destruct (zero_thread_count_runs_as_one (Platform.mkArgs 0 1 3)
              Platform.g_mt_mgr eq_refl eq_refl) as (Hn & _ & Hok).
  destruct Hok as (Hrc & _ & Hf); [vm_compute; discriminate|].
  repeat split; assumption.
Defined.

(* --------------------------------------------------------------------- *)
(** ** The initialisation barrier on a rejected configuration *)
(* --------------------------------------------------------------------- *)

Section Rejected.
Import Platform.
Variable k : KernelArgs.
Hypothesis Huint : uint32 (scheCpuNum k).
Hypothesis Hrej : rejected k.

Lemma rejected_fails :
  effective_threads k < 1 \/ MAX_AICPU_THREADS < effective_threads k \/
  MAX_CORES_PER_THREAD < cores_per_thread k.
Proof.
  destruct Hrej as [Hn|Hc]; [|auto].
  unfold effective_threads, MAX_AICPU_THREADS in *.
  destruct (Z.eqb_spec (Int32.wrap (scheCpuNum k)) 0) as [Hz|Hz].
  - exfalso. unfold Int32.wrap, uint32 in *.
    destruct (Z.lt_ge_cases (scheCpuNum k) (2 ^ 31)).
    + rewrite Z.mod_small in Hz; lia.
    + assert (Hm : (scheCpuNum k + 2 ^ 31) mod 2 ^ 32
                   = scheCpuNum k + 2 ^ 31 - 2 ^ 32).
      { symmetry. apply (Z.mod_unique_pos _ _ 1); lia. }
      lia.
  - unfold Int32.wrap, uint32 in *.
    destruct (Z.lt_ge_cases (scheCpuNum k) (2 ^ 31)).
    + rewrite Z.mod_small; lia.
    + assert (Hm : (scheCpuNum k + 2 ^ 31) mod 2 ^ 32
                   = scheCpuNum k + 2 ^ 31 - 2 ^ 32).
      { symmetry. apply (Z.mod_unique_pos _ _ 1); lia. }
      lia.
Qed.

Lemma held_back_waiting pc :
  pc = CallInit \/ pc = InInit \/ pc = LoadDone \/ pc = LoadFailed \/
  pc = Returned (-1) -> held_back pc.
Proof.
  intros H. unfold held_back.
  destruct H as [-> | [-> | [-> | [-> | ->]]]]; split_and!; try done.
  by intros rc [= <-].
Qed.

Lemma thread_step_held_back m pc :
  init_done_ m = false -> held_back pc ->
  init_done_ (fst (thread_step k m pc)) = false /\
  held_back (snd (thread_step k m pc)).
Proof.
  intros Hdone (Hrun & Hin & Hfin & Hret).
  destruct pc; simpl.
  - destruct (initialized_ m); simpl; (split; [done|]);
      apply held_back_waiting; auto.
  - destruct (init_body_failure k m rejected_fails) as (_ & _ & -> & _).
    split; [done|]. apply held_back_waiting; auto.
  - rewrite Hdone. simpl. split; [done|]. apply held_back_waiting; auto.
  - destruct (init_failed_ m); simpl; (split; [done|]);
      apply held_back_waiting; auto 6.
  - done.
  - by destruct (Hin thread_idx).
  - done.
  - split; [done|]. unfold held_back. split_and!; try done.
Qed.

Lemma reachable_held_back n s :
  reachable k (launch n) s ->
  init_done_ (mgr s) = false /\ Forall held_back (pcs s).
Proof.
  induction 1 as [|s s' _ [Hdone Hpcs] Hstep].
  - split; [done|]. simpl. apply Forall_forall.
    intros pc Hpc%elem_of_replicate. destruct Hpc as [-> _].
    apply held_back_waiting. auto.
  - destruct Hstep as [s i Hi|s i idx Hi].
    + unfold run_thread.
      destruct (lookup_lt_is_Some_2 (pcs s) i Hi) as [pc Hpc]. rewrite Hpc.
      assert (Hb : held_back pc).
      { rewrite Forall_forall in Hpcs. eapply Hpcs, list_elem_of_lookup_2, Hpc. }
      destruct (thread_step_held_back (mgr s) pc Hdone Hb) as [Hd' Hb'].
      destruct (thread_step k (mgr s) pc) as [m' pc']. simpl in *.
      split; [done|]. by apply Forall_insert.
    + exfalso. rewrite Forall_forall in Hpcs.
      destruct (Hpcs _ (list_elem_of_lookup_2 _ _ _ Hi)) as (_ & Hin & _).
      by apply (Hin idx).
Qed.

End Rejected.

Section RoundRobin.
Import Platform.
Variable k : KernelArgs.

Lemma run_threads_sweep rest : forall pre m,
  fold_left (fun s i => run_thread k i s) (seq (length pre) (length rest))
            (mkServer m (pre ++ rest))
  = mkServer (fst (sweep k m rest)) (pre ++ snd (sweep k m rest)).
Proof.
  induction rest as [|pc rest IH]; intros pre m; [done|].
  cbn [length seq fold_left sweep].
  unfold run_thread at 2. cbn [pcs mgr].
  rewrite list_lookup_middle by done.
  destruct (thread_step k m pc) as [m1 pc'].
  rewrite insert_app_r_alt by lia. rewrite Nat.sub_diag. cbn [insert list_insert].
  replace (pre ++ pc' :: rest) with ((pre ++ [pc']) ++ rest)
    by (by rewrite <- app_assoc).
  replace (S (length pre)) with (length (pre ++ [pc']))
    by (rewrite length_app; simpl; lia).
  rewrite IH. destruct (sweep k m1 rest) as [m2 rest']. simpl.
  by rewrite <- app_assoc.
Qed.

Lemma round_sweep m l :
  round k (mkServer m l) = mkServer (fst (sweep k m l)) (snd (sweep k m l)).
Proof. apply (run_threads_sweep l [] m). Qed.

Lemma sweep_cons m pc rest m1 pc' m2 rest' :
  thread_step k m pc = (m1, pc') -> sweep k m1 rest = (m2, rest') ->
  sweep k m (pc :: rest) = (m2, pc' :: rest').
Proof. intros H1 H2. cbn [sweep]. by rewrite H1, H2. Qed.

Lemma sweep_replicate m x y n :
  thread_step k m x = (m, y) -> sweep k m (replicate n x) = (m, replicate n y).
Proof.
  intros Hstep. induction n as [|n IH]; [done|].
  simpl. rewrite Hstep, IH. done.
Qed.

Lemma run_thread_length i s : length (pcs (run_thread k i s)) = length (pcs s).
Proof.
  unfold run_thread. destruct (pcs s !! i); [|done].
  destruct (thread_step k (mgr s) p). simpl. apply length_insert.
Qed.

Lemma run_threads_reachable s0 l : forall s,
  Forall (fun i => (i < length (pcs s))%nat) l ->
  reachable k s0 s ->
  reachable k s0 (fold_left (fun s i => run_thread k i s) l s).
Proof.
  induction l as [|i l IH]; intros s Hl Hs; [done|].
  apply Forall_cons in Hl as [Hi Hl]. simpl. apply IH.
  - rewrite run_thread_length. done.
  - eapply reach_step; [exact Hs|]. by constructor.
Qed.

Lemma round_reachable s0 s : reachable k s0 s -> reachable k s0 (round k s).
Proof.
  intros Hs. apply run_threads_reachable; [|done].
  apply Forall_forall. intros i Hi%elem_of_seq. lia.
Qed.

Hypothesis Huint : uint32 (scheCpuNum k).
Hypothesis Hrej : rejected k.

(** Four rounds bring every thread to the error return. *)
Lemma four_rounds n :
  let s := Nat.iter 4 (round k) (launch n) in
  pcs s = replicate n (Returned (-1)) /\
  ((0 < n)%nat -> init_failed_ (mgr s) = true).
Proof.
  destruct n as [|n]; [split; [done|lia]|].
  unfold launch, Nat.iter. cbn [nat_rect replicate].
  pose (m1 := set_initialized true g_mt_mgr).
  pose (m2 := fst (init_body k m1)).
  destruct (init_body_failure k m1 (rejected_fails k Huint Hrej))
    as (_ & Hfail & Hdone & _).
  fold m2 in Hfail, Hdone. change (init_done_ m1) with false in Hdone.
  assert (R1 : sweep k g_mt_mgr (CallInit :: replicate n CallInit)
               = (m1, InInit :: replicate n LoadDone)).
  { apply (sweep_cons g_mt_mgr CallInit _ m1 InInit); [done|].
    by apply sweep_replicate. }
  assert (R2 : sweep k m1 (InInit :: replicate n LoadDone)
               = (m2, LoadDone :: replicate n LoadFailed)).
  { apply (sweep_cons m1 InInit _ m2 LoadDone); [done|].
    apply sweep_replicate. simpl. by rewrite Hdone. }
  assert (R3 : sweep k m2 (LoadDone :: replicate n LoadFailed)
               = (m2, LoadFailed :: replicate n (Returned (-1)))).
  { apply (sweep_cons m2 LoadDone _ m2 LoadFailed).
    - simpl. by rewrite Hdone.
    - apply sweep_replicate. simpl. by rewrite Hfail. }
  assert (R4 : sweep k m2 (LoadFailed :: replicate n (Returned (-1)))
               = (m2, Returned (-1) :: replicate n (Returned (-1)))).
  { apply (sweep_cons m2 LoadFailed _ m2 (Returned (-1))).
    - simpl. by rewrite Hfail.
    - by apply sweep_replicate. }
  rewrite round_sweep, R1. cbn [fst snd].
  rewrite round_sweep, R2. cbn [fst snd].
  rewrite round_sweep, R3. cbn [fst snd].
  rewrite round_sweep, R4. cbn [fst snd pcs mgr]. done.
Qed.

End RoundRobin.

(** C8. If the configured scheduler thread count exceeds
    [MAX_AICPU_THREADS], or the cores per thread, computed from the
    core count as [Init] stores it in its [int], exceed
    [MAX_CORES_PER_THREAD], then [Init] sets [init_failed] and returns the
    error code; whatever the interleaving of the scheduler threads, none of
    them gets past the barrier (no thread is about to call [Run], inside
    it or back from it), and a thread that has returned has returned -1;
    and when the threads take turns, all of them have returned -1 after
    four rounds. *)
Theorem rejected_configuration_aborts (k : Platform.KernelArgs) (n : nat) :
  Platform.uint32 (Platform.scheCpuNum k) ->
  Platform.div_defined k ->
  Platform.rejected k ->
  (snd (Platform.Init k Platform.g_mt_mgr) = -1 /\
   Platform.init_failed_ (fst (Platform.Init k Platform.g_mt_mgr)) = true) /\
  (forall s, Platform.reachable k (Platform.launch n) s ->
     Platform.init_done_ (Platform.mgr s) = false /\
     Forall (fun pc => pc <> Platform.InRun /\
                       (forall thread_idx, pc <> Platform.Running thread_idx) /\
                       pc <> Platform.Finishing /\
                       forall rc, pc = Platform.Returned rc -> rc = -1)
            (Platform.pcs s)) /\
  (let s := Nat.iter 4 (Platform.round k) (Platform.launch n) in
   Platform.reachable k (Platform.launch n) s /\
   Platform.pcs s = replicate n (Platform.Returned (-1)) /\
   ((0 < n)%nat -> Platform.init_failed_ (Platform.mgr s) = true)).
Proof.
  intros Huint _ Hrej. split; [|split].
  - unfold Platform.Init. simpl.
    destruct (init_body_failure k (Platform.set_initialized true Platform.g_mt_mgr)
                (rejected_fails k Huint Hrej)) as (Hrc & Hf & _).
    done.
  - intros s Hs. exact (reachable_held_back k Huint Hrej n s Hs).
  - split.
    + simpl. do 4 apply round_reachable. constructor.
    + exact (four_rounds k Huint Hrej n).
Qed.

Lemma rejected_configuration_aborts_witness :
  let k := Platform.mkArgs 5 5 15 in
  snd (Platform.Init k Platform.g_mt_mgr) = -1 /\
  Platform.pcs (Nat.iter 4 (Platform.round k) (Platform.launch 5))
    = replicate 5 (Platform.Returned (-1)).
Proof.
  intros k.
  destruct (rejected_configuration_aborts k 5) as ([Hrc _] & _ & _ & Hpcs & _).
  - vm_compute. split; [discriminate|reflexivity].
  - intros [H _]. vm_compute in H. discriminate.
  - left. vm_compute. reflexivity.
  - split; [exact Hrc|exact Hpcs].
Defined.

(* --------------------------------------------------------------------- *)
(** ** The exit barrier *)
(* --------------------------------------------------------------------- *)

Lemma exit_barrier_before_last thread_num s (j : nat) :
  1 <= thread_num <= Int32.max_int ->
  GraphExecutor.finished_count s = 0 ->
  Z.of_nat j < thread_num ->
  let sj := Nat.iter j (GraphExecutor.exit_barrier thread_num) s in
  GraphExecutor.finished_count sj = Z.of_nat j /\
  GraphExecutor.ready_count_aic sj = GraphExecutor.ready_count_aic s /\
  GraphExecutor.ready_count_aiv sj = GraphExecutor.ready_count_aiv s /\
  GraphExecutor.completed_tasks sj = GraphExecutor.completed_tasks s /\
  GraphExecutor.total_tasks sj = GraphExecutor.total_tasks s /\
  GraphExecutor.init_done sj = GraphExecutor.init_done s.
Proof.
  intros Hn H0. induction j as [|j IH]; intros Hj sj.
  - subst sj. simpl. by rewrite H0.
  - destruct IH as (Hf & Hrest); [lia|].
    subst sj. cbn [Nat.iter nat_rect]. unfold Nat.iter in *.
    set (sp := nat_rect _ s _ j) in *.
    unfold GraphExecutor.exit_barrier. rewrite Hf.
    destruct (Z.eqb_spec (Z.of_nat j + 1) thread_num) as [He|He]; [lia|].
    cbn. split; [|exact Hrest].
    unfold Int32.add. rewrite wrap_small; [lia|].
    unfold Int32.in_range, Int32.min_int. lia.
Qed.

Lemma finish_before_last m (j : nat) :
  1 <= Platform.thread_num_ m <= Int32.max_int ->
  Platform.finished_ m = 0 ->
  Z.of_nat j < Platform.thread_num_ m ->
  let mj := Nat.iter j Platform.finish m in
  Platform.finished_ mj = Z.of_nat j /\
  Platform.thread_num_ mj = Platform.thread_num_ m.
Proof.
  intros Hn H0. induction j as [|j IH]; intros Hj mj.
  - subst mj. simpl. by rewrite H0.
  - destruct IH as (Hf & Hnum); [lia|].
    subst mj. cbn [Nat.iter nat_rect]. unfold Nat.iter in *.
    set (mp := nat_rect _ m _ j) in *.
    unfold Platform.finish. rewrite Hf, Hnum.
    destruct (Z.eqb_spec (Z.of_nat j + 1) (Platform.thread_num_ m)) as [He|He]; [lia|].
    cbn. split; [|done].
    unfold Int32.add. rewrite wrap_small; [lia|].
    unfold Int32.in_range, Int32.min_int. lia.
Qed.

(** C9. Each thread that passes the exit barrier adds one to
    [finished_count]; the thread whose increment reaches the thread count
    clears both ready-queue counts, [completed_tasks], [total_tasks],
    [init_done] and [finished_count], so that after all [thread_num]
    threads have passed the shared state is cleared.  The barrier of the
    server entry resets the manager's flags in the same way. *)
Theorem exit_barrier_resets (thread_num : Z) (s : GraphExecutor.Shared)
        (m : Platform.MultiThreadManager) :
  1 <= thread_num <= Int32.max_int ->
  GraphExecutor.finished_count s = 0 ->
  Platform.finished_ m = 0 -> Platform.thread_num_ m = thread_num ->
  (forall j : nat, Z.of_nat j < thread_num ->
     let sj := Nat.iter j (GraphExecutor.exit_barrier thread_num) s in
     GraphExecutor.finished_count sj = Z.of_nat j /\
     GraphExecutor.finished_count (GraphExecutor.exit_barrier thread_num sj)
       = (if Z.of_nat j + 1 =? thread_num then 0 else Z.of_nat j + 1) /\
     (Z.of_nat j + 1 = thread_num ->
        GraphExecutor.cleared (GraphExecutor.exit_barrier thread_num sj)) /\
     (Z.of_nat j + 1 <> thread_num ->
        let s' := GraphExecutor.exit_barrier thread_num sj in
        GraphExecutor.ready_count_aic s' = GraphExecutor.ready_count_aic s /\
        GraphExecutor.ready_count_aiv s' = GraphExecutor.ready_count_aiv s /\
        GraphExecutor.completed_tasks s' = GraphExecutor.completed_tasks s /\
        GraphExecutor.total_tasks s' = GraphExecutor.total_tasks s /\
        GraphExecutor.init_done s' = GraphExecutor.init_done s)) /\
  GraphExecutor.cleared
    (Nat.iter (Z.to_nat thread_num) (GraphExecutor.exit_barrier thread_num) s) /\
  (let m' := Nat.iter (Z.to_nat thread_num) Platform.finish m in
   Platform.initialized_ m' = false /\ Platform.init_done_ m' = false /\
   Platform.init_failed_ m' = false /\ Platform.thread_idx_ m' = 0 /\
   Platform.finished_ m' = 0).
Proof.
  intros Hn H0 Hm0 Hmn. split; [|split].
  - intros j Hj sj.
    destruct (exit_barrier_before_last thread_num s j Hn H0 Hj) as (Hf & Hrest).
    fold sj in Hf, Hrest. split; [exact Hf|].
    unfold GraphExecutor.exit_barrier. rewrite Hf.
    destruct (Z.eqb_spec (Z.of_nat j + 1) thread_num) as [He|He].
    + split; [done|]. split; [|done]. intros _. by repeat split.
    + cbn. split.
      * unfold Int32.add. rewrite wrap_small; [done|].
        unfold Int32.in_range, Int32.min_int. lia.
      * split; [done|]. intros _. exact Hrest.
  - replace (Z.to_nat thread_num) with (S (Z.to_nat (thread_num - 1))) by lia.
    cbn [Nat.iter nat_rect]. unfold Nat.iter.
    destruct (exit_barrier_before_last thread_num s (Z.to_nat (thread_num - 1))
                Hn H0 ltac:(lia)) as (Hf & _).
    unfold Nat.iter in Hf.
    set (sp := nat_rect _ s _ (Z.to_nat (thread_num - 1))) in *.
    unfold GraphExecutor.exit_barrier. rewrite Hf.
    destruct (Z.eqb_spec (Z.of_nat (Z.to_nat (thread_num - 1)) + 1) thread_num);
      [|lia].
    by repeat split.
  - subst thread_num.
    replace (Z.to_nat (Platform.thread_num_ m))
      with (S (Z.to_nat (Platform.thread_num_ m - 1))) by lia.
    cbn [Nat.iter nat_rect]. unfold Nat.iter.
    destruct (finish_before_last m (Z.to_nat (Platform.thread_num_ m - 1))
                Hn Hm0 ltac:(lia)) as (Hf & Hnum).
    unfold Nat.iter in Hf, Hnum.
    set (mp := nat_rect _ m _ (Z.to_nat (Platform.thread_num_ m - 1))) in *.
    unfold Platform.finish. rewrite Hf, Hnum.
    destruct (Z.eqb_spec (Z.of_nat (Z.to_nat (Platform.thread_num_ m - 1)) + 1)
                (Platform.thread_num_ m)); [|lia].
    by repeat split.
Qed.

Lemma exit_barrier_resets_witness :
  GraphExecutor.cleared
    (Nat.iter 3 (GraphExecutor.exit_barrier 3)
       (GraphExecutor.mkShared [4; 2] 2 [7] 1 5 5 true 0)).
Proof.
  destruct (exit_barrier_resets 3 (GraphExecutor.mkShared [4; 2] 2 [7] 1 5 5 true 0)
              (fst (Platform.Init (Platform.mkArgs 3 3 9) Platform.g_mt_mgr)))
    as (_ & Hc & _).
  - vm_compute. split; discriminate.
  - reflexivity.
  - reflexivity.
  - reflexivity.
  - exact Hc.
Defined.

(* --------------------------------------------------------------------- *)
(** ** Two runs that go wrong *)
(* --------------------------------------------------------------------- *)

(** C2 at a failing input of [schedule_tasks]: two ready Cube tasks and one
    Cube core.  After the worker has finished task 0 and before
    [check_completions] has seen it, the cell holds [task != 0] and
    [task_status == 0]; [schedule_tasks] writes the pointer to task 1 into
    it.  The completion of task 0 is never counted, and the main loop of
    [execute_graph] no longer changes the state while
    [tasks_completed < num_tasks]. *)
Theorem schedule_tasks_overwrites_completion :
  exists w h w' wf,
    Scenario.worker_done = Some w /\
    Cell.get (AicpuKernel.hank w) 0 = Some h /\
    Cell.completed h /\ ~ Cell.idle h /\
    Cell.task h = Layout.addr Scenario.L 0 /\
    AicpuKernel.schedule_tasks Scenario.L 1 1 w = Some (w', 1) /\
    AicpuKernel.log w' = AicpuKernel.log w
      ++ [Cell.StTask 0 (Layout.addr Scenario.L 1); Cell.StStatus 0 1] /\
    Scenario.final = Some wf /\
    AicpuKernel.main_loop_turn Scenario.L 1 1 wf = Some wf /\
    AicpuKernel.tasks_completed (AicpuKernel.graph wf) = 1 /\
    AicpuKernel.num_tasks (AicpuKernel.graph wf) = 2.
Proof.
  do 4 eexists.
  split; [vm_compute; reflexivity|].
  split; [vm_compute; reflexivity|].
  split; [vm_compute; split; [reflexivity|discriminate]|].
  split; [vm_compute; intros [_ H]; discriminate|].
  split; [vm_compute; reflexivity|].
  split; [vm_compute; reflexivity|].
  split; [vm_compute; reflexivity|].
  split; [vm_compute; reflexivity|].
  split; [vm_compute; reflexivity|].
  split; vm_compute; reflexivity.
Qed.

(** C3 at a failing run: one Cube task on one Cube core.  The scheduler
    publishes the task once; the worker polls twice before the scheduler
    collects the completion, finds [task != 0] both times and invokes the
    kernel twice. *)
Theorem kernel_executed_twice :
  exists s0 s,
    Scenario.launched = Some s0 /\
    GraphExecutor.reachable Scenario.GL s0 s /\
    GraphExecutor.times_dispatched Scenario.GL 0 s = 1%nat /\
    GraphExecutor.kernel_log s
      = [(0, Layout.addr Scenario.GL 0); (0, Layout.addr Scenario.GL 0)] /\
    GraphExecutor.kernel_calls Scenario.GL s = [32768; 32768].
Proof.
  eexists. eexists.
  split; [vm_compute; reflexivity|].
  split.
  - eapply GraphExecutor.reach_step.
    + eapply GraphExecutor.reach_step.
      * eapply GraphExecutor.reach_step; [apply GraphExecutor.reach_start|].
        eapply (GraphExecutor.step_pass _ _ 0%nat).
        -- vm_compute. reflexivity.
        -- vm_compute. reflexivity.
        -- vm_compute. reflexivity.
      * eapply (GraphExecutor.step_worker _ _ 0). vm_compute. reflexivity.
    + eapply (GraphExecutor.step_worker _ _ 0). vm_compute. reflexivity.
  - vm_compute. repeat split; reflexivity.
Qed.

(* --------------------------------------------------------------------- *)
(** ** Logs of stores *)
(* --------------------------------------------------------------------- *)

Section Logs.
Import Cell.

Lemma replay_app tr1 tr2 hank :
  replay (tr1 ++ tr2) hank = replay tr2 (replay tr1 hank).
Proof. unfold replay. apply fold_left_app. Qed.

Lemma snoc_split {A} (l1 : list A) x pre post :
  l1 ++ [x] = pre ++ post ->
  (post = [] /\ pre = l1 ++ [x]) \/
  (exists post', post = post' ++ [x] /\ l1 = pre ++ post').
Proof.
  destruct post as [|y post _] using rev_ind.
  - rewrite app_nil_r. intros <-. by left.
  - rewrite app_assoc. intros [-> ->]%app_inj_tail. right. by eexists.
Qed.

Lemma update_published c f hank :
  Forall published hank ->
  (forall h, published h -> Cell.get hank c = Some h -> published (f h)) ->
  Forall published (update c f hank).
Proof.
  intros Hall Hf. unfold update.
  destruct (Z.leb_spec 0 c) as [Hc|Hc]; [|done].
  destruct (hank !! Z.to_nat c) as [h|] eqn:Hh; [|done].
  apply Forall_insert; [done|]. apply Hf.
  - rewrite Forall_forall in Hall. eapply Hall, list_elem_of_lookup_2, Hh.
  - unfold Cell.get. destruct (Z.leb_spec 0 c); [done|lia].
Qed.

Lemma get_update c f hank c' :
  Cell.get (update c f hank) c' =
  if decide (c' = c) then f <$> Cell.get hank c else Cell.get hank c'.
Proof.
  unfold Cell.get, update.
  destruct (decide (c' = c)) as [->|Hne].
  - destruct (Z.leb_spec 0 c) as [Hc|Hc]; [|done].
    destruct (hank !! Z.to_nat c) as [h|] eqn:Hh.
    + simpl. apply list_lookup_insert_eq. by eapply lookup_lt_Some.
    + by rewrite Hh.
  - destruct (Z.leb_spec 0 c') as [Hc'|Hc']; [|done].
    destruct (Z.leb_spec 0 c) as [Hc|Hc]; [|done].
    destruct (hank !! Z.to_nat c) as [h|] eqn:Hh; [|done].
    apply list_lookup_insert_ne. lia.
Qed.

Lemma publish_published c p hank :
  p <> 0 -> Forall published hank ->
  Forall published (apply_store (StTask c p) hank) /\
  Forall published (apply_store (StStatus c 1) (apply_store (StTask c p) hank)).
Proof.
  intros Hp Hall.
  assert (H1 : Forall published (apply_store (StTask c p) hank)).
  { apply update_published; [done|]. intros h _ _ _. done. }
  split; [done|]. simpl.
  apply update_published; [done|]. intros h _ Hget _.
  simpl in Hget. rewrite get_update, decide_True in Hget by done.
  destruct (Cell.get hank c); [|done]. by injection Hget as <-.
Qed.

(** The worker only ever clears [task_status]: its polling loop does not
    make a doorbell ring on an empty cell. *)
Lemma worker_keeps_published h :
  published h -> published (fst (AiCore.poll h)).
Proof.
  unfold AiCore.poll, published.
  destruct (control h =? 1); [done|].
  destruct (negb (task h =? 0)); [|done]. simpl. lia.
Qed.

Lemma clear_published c h hank :
  Forall published hank -> Cell.get hank c = Some h -> task_status h = 0 ->
  Forall published (apply_store (StTask c 0) hank).
Proof.
  intros Hall Hget Hst. apply update_published; [done|].
  intros h' _ Hget' Hone. rewrite Hget in Hget'. injection Hget' as <-.
  simpl in Hone. lia.
Qed.

Lemma well_ordered_end hank0 tr :
  Forall published hank0 -> well_ordered hank0 tr ->
  Forall published (replay tr hank0).
Proof.
  intros H0. induction 1 as [|tr c h _ IH Hget Hst|tr c p Hp _ IH]; [done|..].
  - rewrite replay_app. by eapply clear_published.
  - rewrite replay_app. simpl. by apply publish_published.
Qed.

Lemma well_ordered_in_order hank0 tr :
  well_ordered hank0 tr -> writes_in_order tr.
Proof.
  induction 1 as [|tr c h _ IH _ _|tr c p Hp _ IH]; intros pre c' v post Heq.
  - by destruct pre.
  - apply snoc_split in Heq as [[? _]|(post' & Hpost & ->)]; [done|].
    destruct post' as [|y post']; [done|].
    injection Hpost as <- _. by eapply IH.
  - change [StTask c p; StStatus c 1] with ([StTask c p] ++ [StStatus c 1]) in Heq.
    rewrite app_assoc in Heq.
    apply snoc_split in Heq as [[? _]|(post' & Hpost & Htr)]; [done|].
    destruct post' as [|y post'].
    + simpl in Hpost. injection Hpost as -> -> ->. rewrite app_nil_r in Htr.
      subst pre. split; [done|]. by exists tr, p.
    + injection Hpost as <- _.
      apply snoc_split in Htr as [[? _]|(post'' & Hpost & ->)]; [done|].
      destruct post'' as [|z post'']; [done|].
      injection Hpost as <- _. by eapply IH.
Qed.

Lemma well_ordered_no_bare_doorbell hank0 tr :
  Forall published hank0 -> well_ordered hank0 tr -> no_bare_doorbell hank0 tr.
Proof.
  intros H0. induction 1 as [|tr c h Hwo IH Hget Hst|tr c p Hp Hwo IH];
    intros pre post Heq.
  - symmetry in Heq. apply app_eq_nil in Heq as [-> _]. done.
  - apply snoc_split in Heq as [[_ ->]|(post' & _ & Htr)]; [|by eapply IH].
    rewrite replay_app. eapply clear_published; [|done..].
    by apply well_ordered_end.
  - destruct (publish_published c p (replay tr hank0) Hp) as [H1 H2].
    { by apply well_ordered_end. }
    change [StTask c p; StStatus c 1] with ([StTask c p] ++ [StStatus c 1]) in Heq.
    rewrite app_assoc in Heq.
    apply snoc_split in Heq as [[_ ->]|(post' & _ & Htr)].
    + by rewrite !replay_app.
    + apply snoc_split in Htr as [[_ ->]|(post'' & _ & Htr)].
      * by rewrite replay_app.
      * by eapply IH.
Qed.

Lemma extends_refl hank log : extends hank log hank log.
Proof. exists []. rewrite app_nil_r. repeat split. constructor. Qed.

Lemma extends_publish hank0 log0 hank log c p :
  p <> 0 ->
  extends hank0 log0 hank log ->
  extends hank0 log0
          (apply_store (StStatus c 1) (apply_store (StTask c p) hank))
          ((log ++ [StTask c p]) ++ [StStatus c 1]).
Proof.
  intros Hp (tr & -> & -> & Hwo).
  exists (tr ++ [StTask c p; StStatus c 1]). split; [|split].
  - by rewrite <- !app_assoc.
  - by rewrite replay_app.
  - by constructor.
Qed.

Lemma extends_clear hank0 log0 hank log c h :
  extends hank0 log0 hank log ->
  Cell.get hank c = Some h -> task_status h = 0 ->
  extends hank0 log0 (apply_store (StTask c 0) hank) (log ++ [StTask c 0]).
Proof.
  intros (tr & -> & -> & Hwo) Hget Hst.
  exists (tr ++ [StTask c 0]). split; [|split].
  - by rewrite <- !app_assoc.
  - by rewrite replay_app.
  - by econstructor.
Qed.

Lemma foreach_invariant {S A} (body : A -> S -> option S) (P : S -> Prop) l :
  (forall a s s', a ∈ l -> P s -> body a s = Some s' -> P s') ->
  forall s s', P s -> Loop.foreach body l s = Some s' -> P s'.
Proof.
  induction l as [|a l IH]; intros Hbody s s' Hs Hrun; simpl in Hrun.
  - by injection Hrun as <-.
  - destruct (body a s) as [s1|] eqn:Ha; [|done].
    eapply IH; [| |exact Hrun].
    + intros b t t' Hb. apply Hbody. by right.
    + eapply Hbody; [by left|exact Hs|exact Ha].
Qed.

End Logs.

(* --------------------------------------------------------------------- *)
(** ** The order of the two stores of a dispatch *)
(* --------------------------------------------------------------------- *)

Lemma addr_nonzero L i : Layout.wf L -> 0 <= i -> Layout.addr L i <> 0.
Proof. intros [Hb Hs] Hi. unfold Layout.addr. nia. Qed.

Lemma index_addr L i : Layout.wf L -> 0 <= i -> Layout.index L (Layout.addr L i) = Some i.
Proof.
  intros [Hb Hs] Hi. unfold Layout.index, Layout.addr.
  replace (Layout.tasks_base L + i * Layout.task_size L - Layout.tasks_base L)
    with (i * Layout.task_size L) by lia.
  rewrite Z.mod_mul by lia. rewrite Z.div_mul by lia.
  destruct (Z.leb_spec 0 (i * Layout.task_size L)); [done|nia].
Qed.

Section PtoOrder.
Import Cell AicpuKernel.
Variable L : Layout.t.
Hypothesis HL : Layout.wf L.

Lemma update_task_Some i f gr gr' :
  update_task i f gr = Some gr' ->
  exists t, Loop.read (tasks gr) i = Some t /\
            gr' = set_tasks (<[ Z.to_nat i := f t ]> (tasks gr)) gr.
Proof.
  unfold update_task. destruct (Loop.read (tasks gr) i) as [t|]; [|done].
  intros [= <-]. by exists t.
Qed.

Lemma assign_extends hank0 log0 c i w w' :
  extends hank0 log0 (hank w) (log w) ->
  assign L c i w = Some w' ->
  extends hank0 log0 (hank w') (log w').
Proof.
  intros Hext. unfold assign.
  destruct (update_task i _ (graph w)) as [gr'|] eqn:Hup; [|done].
  intros [= <-]. simpl.
  apply extends_publish; [|done].
  apply update_task_Some in Hup as (t & [Hi _]%read_Some & _).
  apply addr_nonzero; [done|lia].
Qed.

Lemma schedule_core_extends hank0 log0 a c wk wk' :
  extends hank0 log0 (hank (fst wk)) (log (fst wk)) ->
  schedule_core L a c wk = Some wk' ->
  extends hank0 log0 (hank (fst wk')) (log (fst wk')).
Proof.
  destruct wk as [w k]. simpl. intros Hext. unfold schedule_core.
  destruct (Cell.get (hank w) c) as [h|]; [|done].
  destruct (negb (task h =? 0) && negb (task_status h =? 0)).
  { by intros [= <-]. }
  destruct (find_ready _ _ _ _) as [[i|]|]; [| |done].
  - destruct (assign L c i w) as [w1|] eqn:Has; [|done].
    intros [= <-]. simpl. by eapply assign_extends.
  - by intros [= <-].
Qed.

Lemma schedule_tasks_extends n a w w' k :
  schedule_tasks L n a w = Some (w', k) ->
  extends (hank w) (log w) (hank w') (log w').
Proof.
  unfold schedule_tasks. intros Hrun.
  apply (foreach_invariant (schedule_core L a)
           (fun wk => extends (hank w) (log w) (hank (fst wk)) (log (fst wk)))
           _ (fun c s s' _ => schedule_core_extends _ _ a c s s')
           (w, 0) (w', k) (extends_refl _ _) Hrun).
Qed.

End PtoOrder.

Section ExecutorOrder.
Import Cell GraphExecutor.
Variable L : Layout.t.
Hypothesis HL : Layout.wf L.

Lemma publish_extends hank0 log0 c i s' wl wl' :
  extends hank0 log0 (hank (fst wl)) (log (fst wl)) ->
  publish L c i s' wl = Some wl' ->
  extends hank0 log0 (hank (fst wl')) (log (fst wl')).
Proof.
  destruct wl as [w l]. simpl. intros Hext. unfold publish.
  destruct (get_task (g w) i) as [t|] eqn:Ht; [|done].
  intros [= <-]. simpl. apply extends_publish; [|done].
  apply read_Some in Ht as [Hi _]. apply addr_nonzero; [done|lia].
Qed.

Lemma dispatch_core_extends hank0 log0 c wl wl' :
  extends hank0 log0 (hank (fst wl)) (log (fst wl)) ->
  dispatch_core L c wl = Some wl' ->
  extends hank0 log0 (hank (fst wl')) (log (fst wl')).
Proof.
  intros Hext. unfold dispatch_core.
  destruct (Cell.get (hank (fst wl)) c) as [h|]; [|done].
  destruct ((task_status h =? 0) && (task h =? 0)); [|by intros [= <-]].
  destruct (Cell.core_type h =? 0).
  { destruct (pop_aic _) as [[[i s']|]|]; [| |done].
    - by apply publish_extends.
    - by intros [= <-]. }
  destruct (Cell.core_type h =? 1); [|by intros [= <-]].
  destruct (pop_aiv _) as [[[i s']|]|]; [| |done].
  - by apply publish_extends.
  - by intros [= <-].
Qed.

Lemma collect_core_extends hank0 log0 c wl wl' :
  extends hank0 log0 (hank (fst wl)) (log (fst wl)) ->
  collect_core L c wl = Some wl' ->
  extends hank0 log0 (hank (fst wl')) (log (fst wl')).
Proof.
  destruct wl as [w l]. simpl. intros Hext. unfold collect_core.
  destruct (Cell.get (hank w) c) as [h|] eqn:Hget; [|done].
  destruct (Z.eqb_spec (task_status h) 0) as [Hst|Hst]; simpl;
    [|by intros [= <-]].
  destruct (negb (task h =? 0)); [|by intros [= <-]].
  destruct (Layout.index L (task h)) as [i|]; [|done].
  destruct (get_task (g w) i) as [t|]; [|done].
  destruct (Loop.foreach _ _ _) as [[g' s']|]; [|done].
  intros [= <-]. simpl. by eapply extends_clear.
Qed.

Lemma pass_extends cores w l w' l' :
  pass L cores (w, l) = Some (w', l') ->
  extends (hank w) (log w) (hank w') (log w').
Proof.
  unfold pass, collect_phase, dispatch_phase.
  destruct (Loop.foreach (collect_core L) cores (w, l)) as [wl1|] eqn:H1; [|done].
  assert (He1 : extends (hank w) (log w) (hank (fst wl1)) (log (fst wl1))).
  { apply (foreach_invariant (collect_core L)
             (fun wl => extends (hank w) (log w) (hank (fst wl)) (log (fst wl)))
             _ (fun c s s' _ => collect_core_extends _ _ c s s')
             (w, l) wl1 (extends_refl _ _) H1). }
  destruct (_ <=? _).
  { intros [= ->]. done. }
  intros H2.
  apply (foreach_invariant (dispatch_core L)
           (fun wl => extends (hank w) (log w) (hank (fst wl)) (log (fst wl)))
           _ (fun c s s' _ => dispatch_core_extends _ _ c s s')
           wl1 (w', l') He1 H2).
Qed.

End ExecutorOrder.

(** C5. In every dispatch the scheduler stores the task pointer into the
    cell before it stores [task_status = 1]: in the stores of one call of
    [schedule_tasks], and of one pass of a thread of [execute] through its
    loop body, every store to [task_status] writes 1 and directly follows
    the store of a non-null pointer to [task] of the same cell; and if the
    doorbell of no cell rings while its [task] is 0 before, then it does
    not after any prefix of these stores either. *)
Theorem doorbell_written_last (L : Layout.t) :
  Layout.wf L ->
  (forall core_num aic_num w w' k,
     AicpuKernel.schedule_tasks L core_num aic_num w = Some (w', k) ->
     exists tr,
       AicpuKernel.log w' = AicpuKernel.log w ++ tr /\
       AicpuKernel.hank w' = Cell.replay tr (AicpuKernel.hank w) /\
       Cell.writes_in_order tr /\
       (Forall Cell.published (AicpuKernel.hank w) ->
        Cell.no_bare_doorbell (AicpuKernel.hank w) tr)) /\
  (forall cores w l w' l',
     GraphExecutor.pass L cores (w, l) = Some (w', l') ->
     exists tr,
       GraphExecutor.log w' = GraphExecutor.log w ++ tr /\
       GraphExecutor.hank w' = Cell.replay tr (GraphExecutor.hank w) /\
       Cell.writes_in_order tr /\
       (Forall Cell.published (GraphExecutor.hank w) ->
        Cell.no_bare_doorbell (GraphExecutor.hank w) tr)).
Proof.
  intros HL. split.
  - intros n a w w' k Hrun.
    destruct (schedule_tasks_extends L HL n a w w' k Hrun) as (tr & Hlog & Hhank & Hwo).
    exists tr. split; [done|]. split; [done|].
    split; [by eapply well_ordered_in_order|].
    intros H0. by apply well_ordered_no_bare_doorbell.
  - intros cores w l w' l' Hrun.
    destruct (pass_extends L HL cores w l w' l' Hrun) as (tr & Hlog & Hhank & Hwo).
    exists tr. split; [done|]. split; [done|].
    split; [by eapply well_ordered_in_order|].
    intros H0. by apply well_ordered_no_bare_doorbell.
Qed.

(* --------------------------------------------------------------------- *)
(** ** Kind affinity of [execute] *)
(* --------------------------------------------------------------------- *)

Section Affinity.
Import Cell GraphExecutor.
Variable L : Layout.t.
Variable gr : Graph.
Variable cells : list Handshake.

Lemma add_one_le n : 0 <= n -> Int32.add n 1 <= n + 1.
Proof. intros Hn. apply wrap_le. unfold Int32.min_int. lia. Qed.

Lemma sub_one_le n : 0 < n -> Int32.sub n 1 <= n - 1.
Proof. intros Hn. apply wrap_le. unfold Int32.min_int. lia. Qed.

Lemma push_aic_sorted id t s s' :
  get_task gr id = Some t -> core_type t = 0 ->
  sorted_aic gr s -> sorted_aiv gr s ->
  push_aic id s = Some s' -> sorted_aic gr s' /\ sorted_aiv gr s'.
Proof.
  intros Ht Hk Hc Hv. unfold push_aic.
  destruct (Loop.write (ready_queue_aic s) (ready_count_aic s) id) as [q|] eqn:Hw;
    [|done].
  intros [= <-]. split; [|exact Hv].
  intros j Hj. simpl in *.
  pose proof (write_Some _ _ _ _ Hw) as [Hr _].
  pose proof (add_one_le (ready_count_aic s) ltac:(lia)).
  rewrite (read_write _ _ _ _ j Hw).
  destruct (decide (j = ready_count_aic s)) as [->|Hne].
  - by exists id, t.
  - apply Hc. lia.
Qed.

Lemma push_aiv_sorted id t s s' :
  get_task gr id = Some t -> core_type t <> 0 ->
  sorted_aic gr s -> sorted_aiv gr s ->
  push_aiv id s = Some s' -> sorted_aic gr s' /\ sorted_aiv gr s'.
Proof.
  intros Ht Hk Hc Hv. unfold push_aiv.
  destruct (Loop.write (ready_queue_aiv s) (ready_count_aiv s) id) as [q|] eqn:Hw;
    [|done].
  intros [= <-]. split; [exact Hc|].
  intros j Hj. simpl in *.
  pose proof (write_Some _ _ _ _ Hw) as [Hr _].
  pose proof (add_one_le (ready_count_aiv s) ltac:(lia)).
  rewrite (read_write _ _ _ _ j Hw).
  destruct (decide (j = ready_count_aiv s)) as [->|Hne].
  - by exists id, t.
  - apply Hv. lia.
Qed.

Lemma push_ready_sorted id t s s' :
  get_task gr id = Some t ->
  sorted_aic gr s -> sorted_aiv gr s ->
  push_ready (core_type t) id s = Some s' -> sorted_aic gr s' /\ sorted_aiv gr s'.
Proof.
  intros Ht Hc Hv. unfold push_ready.
  destruct (Z.eqb_spec (core_type t) 0) as [Hk|Hk].
  - by apply (push_aic_sorted id t).
  - by apply (push_aiv_sorted id t).
Qed.

Lemma set_fanin_at_kinds id n gr' :
  same_kinds gr gr' -> same_kinds gr (set_fanin_at id n gr').
Proof.
  intros Hk i. rewrite <- (Hk i). unfold set_fanin_at.
  destruct (get_task gr' id) as [t|] eqn:Ht; [|done].
  unfold get_task in *. simpl.
  pose proof (read_Some _ _ _ Ht) as [Hr _].
  rewrite (read_write _ _ id (set_fanin n t) i (write_in_range _ _ _ Hr)).
  destruct (decide (i = id)) as [->|Hne]; [|done].
  by rewrite Ht.
Qed.

Lemma resolve_successor_sorted dep_id gs gs' :
  same_kinds gr (fst gs) -> sorted_aic gr (snd gs) -> sorted_aiv gr (snd gs) ->
  resolve_successor dep_id gs = Some gs' ->
  same_kinds gr (fst gs') /\ sorted_aic gr (snd gs') /\ sorted_aiv gr (snd gs').
Proof.
  destruct gs as [gr' s]. simpl. intros Hk Hc Hv. unfold resolve_successor.
  destruct (get_task gr' dep_id) as [dep|] eqn:Hdep; [|done].
  pose proof (Hk dep_id) as Hkd. rewrite Hdep in Hkd. simpl in Hkd.
  destruct (get_task gr dep_id) as [t|] eqn:Ht; [|done].
  injection Hkd as Hkd.
  destruct (fanin dep =? 1).
  - destruct (push_ready (core_type dep) dep_id s) as [s'|] eqn:Hp; [|done].
    intros [= <-]. simpl. split; [by apply set_fanin_at_kinds|].
    rewrite Hkd in Hp. by eapply push_ready_sorted.
  - intros [= <-]. simpl. split; [by apply set_fanin_at_kinds|done].
Qed.

Lemma resolve_fanout_sorted fo gs gs' :
  same_kinds gr (fst gs) -> sorted_aic gr (snd gs) -> sorted_aiv gr (snd gs) ->
  Loop.foreach resolve_successor fo gs = Some gs' ->
  same_kinds gr (fst gs') /\ sorted_aic gr (snd gs') /\ sorted_aiv gr (snd gs').
Proof.
  intros Hk Hc Hv Hrun.
  apply (foreach_invariant resolve_successor
           (fun gs => same_kinds gr (fst gs) /\ sorted_aic gr (snd gs)
                      /\ sorted_aiv gr (snd gs))
           fo) with (s := gs); [|done|done].
  intros d x x' _ (H1 & H2 & H3). by apply resolve_successor_sorted.
Qed.

Lemma apply_store_cell_kinds st hank :
  same_cell_kinds cells hank -> same_cell_kinds cells (apply_store st hank).
Proof.
  intros Hk c. rewrite <- (Hk c).
  destruct st as [c' p|c' v]; simpl; rewrite get_update;
    destruct (decide (c = c')) as [->|_]; try done;
    by destruct (Cell.get hank c').
Qed.

Lemma dispatches_agree_clear stores c :
  dispatches_agree L gr cells stores ->
  dispatches_agree L gr cells (stores ++ [StTask c 0]).
Proof.
  intros Hd c' p [Hin|Hin]%elem_of_app Hp; [by apply Hd|].
  apply list_elem_of_singleton in Hin. by injection Hin as -> ->.
Qed.

Lemma collect_core_affine c wl wl' :
  affine L gr cells (fst wl) ->
  collect_core L c wl = Some wl' -> affine L gr cells (fst wl').
Proof.
  destruct wl as [w l]. simpl. intros (Hk & Hck & Hc & Hv & Hd).
  unfold collect_core.
  destruct (Cell.get (hank w) c) as [h|]; [|done].
  destruct ((task_status h =? 0) && negb (task h =? 0)); [|by intros [= <-]].
  destruct (Layout.index L (task h)) as [i|]; [|done].
  destruct (get_task (g w) i) as [t|]; [|done].
  destruct (Loop.foreach _ _ _) as [[g' s']|] eqn:Hrun; [|done].
  intros [= <-]. simpl.
  destruct (resolve_fanout_sorted _ (g w, sh w) (g', s') Hk Hc Hv Hrun)
    as (Hk' & Hc' & Hv').
  repeat split; try done.
  - by apply apply_store_cell_kinds.
  - by apply dispatches_agree_clear.
Qed.

Lemma pop_aic_sorted s id s' :
  sorted_aic gr s -> sorted_aiv gr s ->
  pop_aic s = Some (Some (id, s')) ->
  (exists t, get_task gr id = Some t /\ core_type t = 0) /\
  sorted_aic gr s' /\ sorted_aiv gr s'.
Proof.
  intros Hc Hv. unfold pop_aic.
  destruct (Z.ltb_spec 0 (ready_count_aic s)) as [Hpos|Hpos]; [|done].
  destruct (Loop.read (ready_queue_aic s) (ready_count_aic s - 1)) as [x|] eqn:Hr;
    [|done].
  intros [= <- <-].
  destruct (Hc (ready_count_aic s - 1) ltac:(lia)) as (id & t & Hid & Ht & Hk).
  rewrite Hr in Hid. injection Hid as ->.
  split; [by exists t|]. split; [|exact Hv].
  intros j Hj. simpl in *. apply Hc.
  pose proof (sub_one_le _ Hpos). lia.
Qed.

Lemma pop_aiv_sorted s id s' :
  sorted_aic gr s -> sorted_aiv gr s ->
  pop_aiv s = Some (Some (id, s')) ->
  (exists t, get_task gr id = Some t /\ core_type t <> 0) /\
  sorted_aic gr s' /\ sorted_aiv gr s'.
Proof.
  intros Hc Hv. unfold pop_aiv.
  destruct (Z.ltb_spec 0 (ready_count_aiv s)) as [Hpos|Hpos]; [|done].
  destruct (Loop.read (ready_queue_aiv s) (ready_count_aiv s - 1)) as [x|] eqn:Hr;
    [|done].
  intros [= <- <-].
  destruct (Hv (ready_count_aiv s - 1) ltac:(lia)) as (id & t & Hid & Ht & Hk).
  rewrite Hr in Hid. injection Hid as ->.
  split; [by exists t|]. split; [exact Hc|].
  intros j Hj. simpl in *. apply Hv.
  pose proof (sub_one_le _ Hpos). lia.
Qed.

Lemma publish_affine c i t h0 s' wl wl' :
  affine L gr cells (fst wl) ->
  sorted_aic gr s' -> sorted_aiv gr s' ->
  get_task gr i = Some t -> Cell.get cells c = Some h0 ->
  kinds_agree (Cell.core_type h0) (core_type t) ->
  publish L c i s' wl = Some wl' -> affine L gr cells (fst wl').
Proof.
  destruct wl as [w l]. simpl. intros (Hk & Hck & _ & _ & Hd) Hc Hv Ht Hh Hag.
  unfold publish. destruct (get_task (g w) i); [|done].
  intros [= <-]. simpl. repeat split; try done.
  - by do 2 apply apply_store_cell_kinds.
  - intros c' p Hin Hp.
    apply elem_of_app in Hin as [Hin|Hin];
      [apply elem_of_app in Hin as [Hin|Hin]|].
    + by apply Hd.
    + apply list_elem_of_singleton in Hin. injection Hin as -> ->.
      by exists i, t, h0.
    + by apply list_elem_of_singleton in Hin.
Qed.

Lemma dispatch_core_affine c wl wl' :
  affine L gr cells (fst wl) ->
  dispatch_core L c wl = Some wl' -> affine L gr cells (fst wl').
Proof.
  intros Haff. pose proof Haff as (Hk & Hck & Hc & Hv & Hd).
  unfold dispatch_core.
  destruct (Cell.get (hank (fst wl)) c) as [h|] eqn:Hget; [|done].
  pose proof (Hck c) as Hkc. rewrite Hget in Hkc. simpl in Hkc.
  destruct (Cell.get cells c) as [h0|] eqn:Hget0; [|done].
  injection Hkc as Hkc.
  destruct ((task_status h =? 0) && (task h =? 0)); [|by intros [= <-]].
  destruct (Z.eqb_spec (Cell.core_type h) 0) as [Hcube|Hcube].
  { destruct (pop_aic _) as [[[i s']|]|] eqn:Hpop; [| |done].
    - destruct (pop_aic_sorted _ _ _ Hc Hv Hpop) as ((t & Ht & Hkt) & Hc' & Hv').
      apply (publish_affine c i t h0); try done.
      left. split; [congruence|done].
    - by intros [= <-]. }
  destruct (Z.eqb_spec (Cell.core_type h) 1) as [Hvec|Hvec]; [|by intros [= <-]].
  destruct (pop_aiv _) as [[[i s']|]|] eqn:Hpop; [| |done].
  - destruct (pop_aiv_sorted _ _ _ Hc Hv Hpop) as ((t & Ht & Hkt) & Hc' & Hv').
    apply (publish_affine c i t h0); try done.
    right. split; [congruence|done].
  - by intros [= <-].
Qed.

Lemma pass_affine cs wl wl' :
  affine L gr cells (fst wl) ->
  pass L cs wl = Some wl' -> affine L gr cells (fst wl').
Proof.
  intros Haff. unfold pass, collect_phase, dispatch_phase.
  destruct (Loop.foreach (collect_core L) cs wl) as [wl1|] eqn:H1; [|done].
  assert (Haff1 : affine L gr cells (fst wl1)).
  { apply (foreach_invariant (collect_core L)
             (fun wl => affine L gr cells (fst wl)) cs
             (fun c s s' _ => collect_core_affine c s s') wl wl1 Haff H1). }
  destruct (_ <=? _); [by intros [= <-]|].
  intros H2.
  apply (foreach_invariant (dispatch_core L)
           (fun wl => affine L gr cells (fst wl)) cs
           (fun c s s' _ => dispatch_core_affine c s s') wl1 wl' Haff1 H2).
Qed.

End Affinity.

Section AffinityRuns.
Import Cell GraphExecutor.
Variable L : Layout.t.

Lemma poll_core_type h : Cell.core_type (fst (AiCore.poll h)) = Cell.core_type h.
Proof.
  unfold AiCore.poll. destruct (control h =? 1); [done|].
  by destruct (negb (task h =? 0)).
Qed.

Lemma init_sorted gr s s1 :
  init gr s = Some s1 -> sorted_aic gr s1 /\ sorted_aiv gr s1.
Proof.
  unfold init.
  destruct (Loop.foreach _ _ _) as [s2|] eqn:Hrun; [|done].
  intros [= <-].
  enough (sorted_aic gr s2 /\ sorted_aiv gr s2) as [Hc Hv] by (split; [exact Hc|exact Hv]).
  apply (foreach_invariant (enqueue_initial gr)
           (fun s => sorted_aic gr s /\ sorted_aiv gr s) _) with (3 := Hrun).
  - intros id x x' _ [Hc Hv]. unfold enqueue_initial.
    destruct (get_task gr id) as [t|] eqn:Ht; [|done].
    by apply (push_ready_sorted gr id t).
  - split; intros j Hj; simpl in Hj; lia.
Qed.

Lemma step_affine gr cells s s' :
  affine L gr cells (world s) -> step L s s' -> affine L gr cells (world s').
Proof.
  intros Haff Hstep. destruct Hstep as [s i th w' l' _ _ Hpass|s c h Hget].
  - apply (pass_affine L gr cells (cores th) (world s, loc th) (w', l') Haff Hpass).
  - destruct Haff as (Hk & Hck & Hc & Hv & Hd). repeat split; try done.
    simpl. intros c'. rewrite <- (Hck c'), get_update.
    destruct (decide (c' = c)) as [->|_]; [|done].
    rewrite Hget. simpl. by rewrite poll_core_type.
Qed.

Lemma reachable_affine gr cells s assignment s0 st :
  start gr cells s assignment = Some s0 ->
  reachable L s0 st -> affine L gr cells (world st).
Proof.
  unfold start. destruct (init gr s) as [s1|] eqn:Hinit; [|done].
  intros [= <-]. induction 1 as [|st st' _ IH Hstep].
  - destruct (init_sorted _ _ _ Hinit) as [Hc Hv].
    repeat split; try done. intros c p Hin. by apply elem_of_nil in Hin.
  - by eapply step_affine.
Qed.

End AffinityRuns.

Section PtoAffinity.
Import Cell AicpuKernel.
Variable L : Layout.t.
Variable aic_num : Z.
Variable w0 : World.

Lemma find_ready_Some ts kind n : forall i0 i,
  find_ready ts kind n i0 = Some (Some i) ->
  i0 <= i /\
  exists t, Loop.read ts i = Some t /\ status t = PTO_TASK_READY /\ core_type t = kind.
Proof.
  induction n as [|n IH]; intros i0 i; simpl; [done|].
  destruct (Loop.read ts i0) as [t|] eqn:Ht; [|done].
  destruct (Z.eqb_spec (status t) PTO_TASK_READY) as [Hs|Hs]; simpl.
  - destruct (Z.eqb_spec (core_type t) kind) as [Hk|Hk]; simpl.
    + intros [= <-]. split; [lia|]. by exists t.
    + intros [Hle Hi]%IH. split; [lia|done].
  - intros [Hle Hi]%IH. split; [lia|done].
Qed.

Lemma schedule_core_affine c wk wk' :
  pto_affine L aic_num w0 (fst wk) -> schedule_core L aic_num c wk = Some wk' ->
  pto_affine L aic_num w0 (fst wk').
Proof.
  destruct wk as [w k]. simpl. intros (Hk & Hck & tr & Hlog & Htr).
  unfold schedule_core.
  destruct (Cell.get (hank w) c) as [h|] eqn:Hget; [|done].
  destruct (negb (task h =? 0) && negb (task_status h =? 0)).
  { intros [= <-]. split; [done|]. split; [done|]. by exists tr. }
  destruct (find_ready _ _ _ _) as [[i|]|] eqn:Hfind; [| |done].
  - apply find_ready_Some in Hfind as (_ & t & Ht & _ & Hkind).
    unfold assign, update_task. rewrite Ht.
    intros [= <-]. unfold pto_affine, store.
    cbn [fst graph tasks set_tasks hank log]. split; [|split].
    + intros j. rewrite <- (Hk j).
      pose proof (read_Some _ _ _ Ht) as [Hr _].
      rewrite (read_write _ _ i (set_status PTO_TASK_RUNNING t) j
                 (write_in_range _ _ _ Hr)).
      destruct (decide (j = i)) as [->|_]; [|done]. by rewrite Ht.
    + by do 2 apply apply_store_cell_kinds.
    + exists (tr ++ [StTask c (Layout.addr L i); StStatus c 1]). split.
      * rewrite Hlog. by rewrite <- !app_assoc.
      * intros c' p [Hin|Hin]%elem_of_app; [by apply Htr|].
        apply elem_of_cons in Hin as [[= -> ->]|Hin].
        -- pose proof (Hk i) as Hki. rewrite Ht in Hki. simpl in Hki.
           destruct (Loop.read (tasks (graph w0)) i) as [t0|] eqn:Ht0; [|done].
           injection Hki as Hki.
           pose proof (Hck c) as Hkc. rewrite Hget in Hkc. simpl in Hkc.
           destruct (Cell.get (hank w0) c) as [h0|] eqn:Hget0; [|done].
           exists i, t0, h0. repeat split; congruence.
        -- by apply list_elem_of_singleton in Hin.
  - intros [= <-]. split; [done|]. split; [done|]. by exists tr.
Qed.

Lemma schedule_tasks_affine core_num w' k :
  schedule_tasks L core_num aic_num w0 = Some (w', k) -> pto_affine L aic_num w0 w'.
Proof.
  intros Hrun.
  apply (foreach_invariant (schedule_core L aic_num)
           (fun wk => pto_affine L aic_num w0 (fst wk)) (Loop.upto core_num)
           (fun c s s' _ => schedule_core_affine c s s') (w0, 0) (w', k));
    [|done].
  split; [done|]. split; [done|]. exists []. split; [by rewrite app_nil_r|].
  intros c p Hin. by apply elem_of_nil in Hin.
Qed.

End PtoAffinity.

(** C6. Every pointer the scheduler publishes goes to a cell of the task's
    kind.  In [schedule_tasks] the task's [core_type] equals the kind the
    scheduler derives for the core (Cube below [aic_num], Vector from there
    on), which is the [core_type] of the cell when the host has laid the
    cells out.  In every state the threads of [execute] and the workers can reach,
    each published pointer designates a task [t] and went to a cell [h] with
    [t] a Cube task in a Cube cell, or [t] not a Cube task in a Vector
    cell: a Cube task is never written into a Vector cell, a Vector task
    never into a Cube cell, and when [t] is Cube or Vector the two kinds are
    equal. *)
Theorem dispatch_respects_core_kind (L : Layout.t) :
  (forall core_num aic_num w w' k,
     AicpuKernel.schedule_tasks L core_num aic_num w = Some (w', k) ->
     exists tr, AicpuKernel.log w' = AicpuKernel.log w ++ tr /\
       forall c p, Cell.StTask c p ∈ tr ->
         exists i t h, p = Layout.addr L i /\
           Loop.read (AicpuKernel.tasks (AicpuKernel.graph w)) i = Some t /\
           Cell.get (AicpuKernel.hank w) c = Some h /\
           AicpuKernel.core_type t = AicpuKernel.core_kind aic_num c /\
           (AicpuKernel.host_layout aic_num (AicpuKernel.hank w) ->
            Cell.core_type h = AicpuKernel.core_type t)) /\
  (forall gr cells s assignment s0 st,
     GraphExecutor.start gr cells s assignment = Some s0 ->
     GraphExecutor.reachable L s0 st ->
     forall c p, Cell.StTask c p ∈ GraphExecutor.log (GraphExecutor.world st) ->
       p <> 0 ->
       exists i t h, p = Layout.addr L i /\
         GraphExecutor.get_task gr i = Some t /\ Cell.get cells c = Some h /\
         GraphExecutor.kinds_agree (Cell.core_type h) (GraphExecutor.core_type t) /\
         (GraphExecutor.core_type t = 0 -> Cell.core_type h <> 1) /\
         (GraphExecutor.core_type t = 1 -> Cell.core_type h <> 0) /\
         (GraphExecutor.core_type t = 0 \/ GraphExecutor.core_type t = 1 ->
          Cell.core_type h = GraphExecutor.core_type t)).
Proof.
  split.
  - intros n a w w' k Hrun.
    destruct (schedule_tasks_affine L a w n w' k Hrun) as (_ & _ & tr & Hlog & Htr).
    exists tr. split; [done|]. intros c p Hin.
    destruct (Htr c p Hin) as (i & t & h & Hp & Ht & Hh & Hkind).
    exists i, t, h. repeat split; try done.
    intros Hhost. rewrite Hkind. by apply Hhost.
  - intros gr cells s assignment s0 st Hstart Hreach c p Hin Hp.
    destruct (reachable_affine L gr cells s assignment s0 st Hstart Hreach)
      as (_ & _ & _ & _ & Hd).
    destruct (Hd c p Hin Hp) as (i & t & h & -> & Ht & Hh & Hag).
    exists i, t, h. repeat split; try done.
    all: unfold GraphExecutor.kinds_agree in Hag; lia.
Qed.

(* --------------------------------------------------------------------- *)
(** ** Resolving the fanout of a completed task *)
(* --------------------------------------------------------------------- *)

Lemma sub_one_zero x : Int32.in_range x -> (Int32.sub x 1 = 0 <-> x = 1).
Proof.
  unfold Int32.in_range, Int32.min_int, Int32.max_int, Int32.sub. intros Hx.
  destruct (Z.eq_dec x (- 2 ^ 31)) as [->|Hne]; [by split|].
  rewrite wrap_small; [lia|]. unfold Int32.in_range, Int32.min_int, Int32.max_int. lia.
Qed.

Lemma sub_one_exact x : Int32.in_range x -> Int32.min_int < x -> Int32.sub x 1 = x - 1.
Proof.
  unfold Int32.in_range, Int32.min_int, Int32.max_int, Int32.sub. intros Hx Hm.
  apply wrap_small. unfold Int32.in_range, Int32.min_int, Int32.max_int. lia.
Qed.

Lemma filter_ext_elem {A} (f g : A -> bool) (l : list A) :
  (forall x, x ∈ l -> f x = g x) -> List.filter f l = List.filter g l.
Proof.
  induction l as [|a l IH]; intros Hfg; [done|]. simpl.
  rewrite (Hfg a) by (by left). rewrite IH; [done|].
  intros x Hx. apply Hfg. by right.
Qed.

Section Fanout.
Import Cell GraphExecutor.

Lemma get_set_fanin_at gr v n u :
  get_task (set_fanin_at v n gr) u =
  if decide (u = v) then set_fanin n <$> get_task gr v else get_task gr u.
Proof.
  unfold set_fanin_at. destruct (get_task gr v) as [t|] eqn:Ht.
  - unfold get_task in *. simpl. pose proof (read_Some _ _ _ Ht) as [Hr _].
    rewrite (read_write _ _ v (set_fanin n t) u (write_in_range _ _ _ Hr)).
    by destruct (decide (u = v)).
  - destruct (decide (u = v)) as [->|]; [by rewrite Ht|done].
Qed.

Lemma queued_push slots count v slots' :
  Z.of_nat (length slots) <= Int32.max_int ->
  Loop.write slots count v = Some slots' ->
  queued slots' (Int32.add count 1) = queued slots count ++ [v] /\
  length slots' = length slots.
Proof.
  intros Hcap [Hr ->]%write_Some. unfold queued, Int32.add.
  rewrite wrap_small
    by (unfold Int32.in_range, Int32.min_int, Int32.max_int in *; lia).
  replace (Z.to_nat (count + 1)) with (S (Z.to_nat count)) by lia.
  split; [|by rewrite length_insert].
  rewrite (take_S_r _ _ v) by (apply list_lookup_insert_eq; lia).
  by rewrite take_insert_ge by lia.
Qed.

Lemma push_ready_queued kind v s s1 :
  int_indexed s -> push_ready kind v s = Some s1 ->
  queued_aic s1 = queued_aic s ++ (if kind =? 0 then [v] else []) /\
  queued_aiv s1 = queued_aiv s ++ (if kind =? 0 then [] else [v]) /\
  int_indexed s1 /\ completed_tasks s1 = completed_tasks s.
Proof.
  intros [Hc Hv]. unfold push_ready, push_aic, push_aiv, queued_aic, queued_aiv,
    int_indexed.
  destruct (kind =? 0).
  - destruct (Loop.write (ready_queue_aic s) _ v) as [q|] eqn:Hw; [|done].
    intros [= <-]. simpl. destruct (queued_push _ _ _ _ Hc Hw) as [-> ->].
    by rewrite app_nil_r.
  - destruct (Loop.write (ready_queue_aiv s) _ v) as [q|] eqn:Hw; [|done].
    intros [= <-]. simpl. destruct (queued_push _ _ _ _ Hv Hw) as [-> ->].
    by rewrite app_nil_r.
Qed.

Lemma resolve_successor_spec v gr s gr1 s1 :
  int_indexed s ->
  resolve_successor v (gr, s) = Some (gr1, s1) ->
  (exists t, get_task gr v = Some t /\
             gr1 = set_fanin_at v (Int32.sub (fanin t) 1) gr) /\
  queued_aic s1 = queued_aic s
    ++ (if (fanin_of gr v =? 1) && (kind_of gr v =? 0) then [v] else []) /\
  queued_aiv s1 = queued_aiv s
    ++ (if (fanin_of gr v =? 1) && negb (kind_of gr v =? 0) then [v] else []) /\
  int_indexed s1 /\ completed_tasks s1 = completed_tasks s.
Proof.
  intros Hcap. unfold resolve_successor, fanin_of, kind_of.
  destruct (get_task gr v) as [t|]; [|done].
  destruct (fanin t =? 1); simpl.
  - destruct (push_ready (core_type t) v s) as [s'|] eqn:Hp; [|done].
    intros [= <- <-]. split; [by exists t|].
    destruct (push_ready_queued _ _ _ _ Hcap Hp) as (-> & -> & Hcap' & Hct).
    by destruct (core_type t =? 0).
  - intros [= <- <-]. split; [by exists t|]. by rewrite !app_nil_r.
Qed.

Lemma set_fanin_at_counters v n gr :
  int_counters gr -> Int32.in_range n -> int_counters (set_fanin_at v n gr).
Proof.
  intros Hgr Hn u t. rewrite get_set_fanin_at.
  destruct (decide (u = v)) as [->|_]; [|by apply Hgr].
  destruct (get_task gr v); [|done]. by intros [= <-].
Qed.

Lemma resolve_fanout_spec fo : forall gr s gr' s',
  NoDup fo -> int_indexed s ->
  Loop.foreach resolve_successor fo (gr, s) = Some (gr', s') ->
  (forall v, v ∈ fo ->
     exists t, get_task gr v = Some t /\
               get_task gr' v = Some (set_fanin (Int32.sub (fanin t) 1) t)) /\
  (forall u, u ∉ fo -> get_task gr' u = get_task gr u) /\
  queued_aic s' = queued_aic s
    ++ List.filter (fun v => (fanin_of gr v =? 1) && (kind_of gr v =? 0)) fo /\
  queued_aiv s' = queued_aiv s
    ++ List.filter (fun v => (fanin_of gr v =? 1) && negb (kind_of gr v =? 0)) fo /\
  completed_tasks s' = completed_tasks s.
Proof.
  induction fo as [|v fo IH]; intros gr s gr' s' Hnd Hcap Hrun.
  - simpl in Hrun. injection Hrun as <- <-. rewrite !app_nil_r.
    repeat split; try done. intros v Hv. by apply elem_of_nil in Hv.
  - apply NoDup_cons in Hnd as [Hv Hnd]. cbn [Loop.foreach] in Hrun.
    destruct (resolve_successor v (gr, s)) as [[gr1 s1]|] eqn:Hstep; [|done].
    destruct (resolve_successor_spec _ _ _ _ _ Hcap Hstep)
      as ((t & Ht & ->) & Hqa & Hqv & Hcap1 & Hct1).
    destruct (IH _ _ _ _ Hnd Hcap1 Hrun) as (H1 & H2 & H3 & H4 & H5).
    assert (Hsame : forall u, u ∈ fo ->
              get_task (set_fanin_at v (Int32.sub (fanin t) 1) gr) u = get_task gr u).
    { intros u Hu. rewrite get_set_fanin_at, decide_False; [done|].
      intros ->. done. }
    split; [|split; [|split; [|split]]].
    + intros u [->|Hu]%elem_of_cons.
      * exists t. split; [done|]. rewrite H2 by done.
        rewrite get_set_fanin_at, decide_True by done. by rewrite Ht.
      * destruct (H1 u Hu) as (t' & Ht' & Hget). rewrite Hsame in Ht' by done.
        by exists t'.
    + intros u Hu. rewrite not_elem_of_cons in Hu. destruct Hu as [Hne Hu].
      rewrite H2 by done. by rewrite get_set_fanin_at, decide_False.
    + rewrite H3, Hqa, <- app_assoc. f_equal. cbn [List.filter].
      rewrite (filter_ext_elem _ (fun v => (fanin_of gr v =? 1) && (kind_of gr v =? 0)) fo).
      * by destruct ((fanin_of gr v =? 1) && (kind_of gr v =? 0)).
      * intros u Hu. unfold fanin_of, kind_of. by rewrite Hsame.
    + rewrite H4, Hqv, <- app_assoc. f_equal. cbn [List.filter].
      rewrite (filter_ext_elem _
                 (fun v => (fanin_of gr v =? 1) && negb (kind_of gr v =? 0)) fo).
      * by destruct ((fanin_of gr v =? 1) && negb (kind_of gr v =? 0)).
      * intros u Hu. unfold fanin_of, kind_of. by rewrite Hsame.
    + congruence.
Qed.

End Fanout.

Section Dependents.
Import Cell AicpuKernel.

Lemma read_update_task i f gr gr' u :
  update_task i f gr = Some gr' ->
  Loop.read (tasks gr') u
  = (if decide (u = i) then f <$> Loop.read (tasks gr) i else Loop.read (tasks gr) u)
  /\ num_tasks gr' = num_tasks gr /\ tasks_completed gr' = tasks_completed gr.
Proof.
  unfold update_task. destruct (Loop.read (tasks gr) i) as [t|] eqn:Ht; [|done].
  intros [= <-]. simpl. split; [|done].
  pose proof (read_Some _ _ _ Ht) as [Hr _].
  rewrite (read_write _ _ i (f t) u (write_in_range _ _ _ Hr)).
  by destruct (decide (u = i)).
Qed.

Lemma resolve_dependents_spec deps : forall gr gr',
  NoDup deps ->
  Loop.foreach resolve_dependent deps gr = Some gr' ->
  (forall v, v ∈ deps ->
     exists d, Loop.read (tasks gr) v = Some d /\
               Loop.read (tasks gr') v = Some (release d)) /\
  (forall u, u ∉ deps -> Loop.read (tasks gr') u = Loop.read (tasks gr) u) /\
  num_tasks gr' = num_tasks gr /\ tasks_completed gr' = tasks_completed gr.
Proof.
  induction deps as [|v deps IH]; intros gr gr' Hnd Hrun.
  - simpl in Hrun. injection Hrun as <-. repeat split; try done.
    intros v Hv. by apply elem_of_nil in Hv.
  - apply NoDup_cons in Hnd as [Hv Hnd]. cbn [Loop.foreach] in Hrun.
    destruct (resolve_dependent v gr) as [gr1|] eqn:Hstep; [|done].
    unfold resolve_dependent in Hstep.
    destruct (IH _ _ Hnd Hrun) as (H1 & H2 & H3 & H4).
    pose proof (fun u => proj1 (read_update_task _ _ _ _ u Hstep)) as Hread.
    destruct (read_update_task _ _ _ _ v Hstep) as (_ & Hn & Hc).
    split; [|split; [|split]]; [| |congruence..].
    + intros u [->|Hu]%elem_of_cons.
      * rewrite H2, Hread, decide_True by done.
        destruct (Loop.read (tasks gr) v) as [d|] eqn:Hd.
        -- by exists d.
        -- unfold update_task in Hstep. by rewrite Hd in Hstep.
      * destruct (H1 u Hu) as (d & Hd & Hget). exists d. split; [|done].
        rewrite Hread, decide_False in Hd; [done|]. by intros ->.
    + intros u Hu. rewrite not_elem_of_cons in Hu. destruct Hu as [Hne Hu].
      rewrite H2 by done. by rewrite Hread, decide_False.
Qed.

Lemma release_spec d :
  deps_remaining (release d) = Int32.sub (deps_remaining d) 1 /\
  (deps_remaining (release d) = 0 /\ status d = PTO_TASK_PENDING ->
   status (release d) = PTO_TASK_READY) /\
  (~ (deps_remaining (release d) = 0 /\ status d = PTO_TASK_PENDING) ->
   status (release d) = status d) /\
  core_type (release d) = core_type d /\ dependents (release d) = dependents d.
Proof.
  unfold release.
  destruct (Z.eqb_spec (Int32.sub (deps_remaining d) 1) 0) as [Hz|Hz];
    destruct (Z.eqb_spec (status d) PTO_TASK_PENDING) as [Hp|Hp]; simpl;
    repeat split; try done; tauto.
Qed.

End Dependents.

(** C4 (as amended). When the scheduler collects the completion of task
    [t] from a cell, every successor [v] of [t] has its counter decremented
    by exactly one and no other task is touched.  In [execute], [v] is
    pushed onto the queue of its kind (AIC for a Cube task, AIV otherwise)
    exactly when the decrement makes the counter zero.  In
    [check_completions], [v] becomes Ready exactly when the decrement makes
    the counter zero and [v] is still Pending; otherwise its status is left
    as it is. *)
Theorem completion_releases_successors (L : Layout.t) (c : Z) (h : Cell.Handshake) (i : Z) :
  Cell.completed h -> Layout.index L (Cell.task h) = Some i ->
  (forall w l w' l' t,
     Cell.get (GraphExecutor.hank w) c = Some h ->
     GraphExecutor.get_task (GraphExecutor.g w) i = Some t ->
     NoDup (GraphExecutor.fanout t) ->
     GraphExecutor.int_counters (GraphExecutor.g w) ->
     GraphExecutor.int_indexed (GraphExecutor.sh w) ->
     GraphExecutor.collect_core L c (w, l) = Some (w', l') ->
     let gr := GraphExecutor.g w in
     let gr' := GraphExecutor.g w' in
     (forall v, v ∈ GraphExecutor.fanout t ->
        GraphExecutor.fanin_of gr' v = Int32.sub (GraphExecutor.fanin_of gr v) 1 /\
        (Int32.min_int < GraphExecutor.fanin_of gr v ->
         GraphExecutor.fanin_of gr' v = GraphExecutor.fanin_of gr v - 1) /\
        GraphExecutor.kind_of gr' v = GraphExecutor.kind_of gr v) /\
     (forall u, u ∉ GraphExecutor.fanout t ->
        GraphExecutor.get_task gr' u = GraphExecutor.get_task gr u) /\
     GraphExecutor.queued_aic (GraphExecutor.sh w')
       = GraphExecutor.queued_aic (GraphExecutor.sh w)
         ++ List.filter (fun v => (GraphExecutor.fanin_of gr' v =? 0)
                                  && (GraphExecutor.kind_of gr v =? 0))
                        (GraphExecutor.fanout t) /\
     GraphExecutor.queued_aiv (GraphExecutor.sh w')
       = GraphExecutor.queued_aiv (GraphExecutor.sh w)
         ++ List.filter (fun v => (GraphExecutor.fanin_of gr' v =? 0)
                                  && negb (GraphExecutor.kind_of gr v =? 0))
                        (GraphExecutor.fanout t) /\
     GraphExecutor.completed_tasks (GraphExecutor.sh w')
       = Int32.add (GraphExecutor.completed_tasks (GraphExecutor.sh w)) 1) /\
  (forall w k w' k' t,
     Cell.get (AicpuKernel.hank w) c = Some h ->
     Loop.read (AicpuKernel.tasks (AicpuKernel.graph w)) i = Some t ->
     NoDup (AicpuKernel.dependents t) -> i ∉ AicpuKernel.dependents t ->
     AicpuKernel.complete_core L c (w, k) = Some (w', k') ->
     let ts := AicpuKernel.tasks (AicpuKernel.graph w) in
     let ts' := AicpuKernel.tasks (AicpuKernel.graph w') in
     (forall v, v ∈ AicpuKernel.dependents t ->
        exists d d', Loop.read ts v = Some d /\ Loop.read ts' v = Some d' /\
          AicpuKernel.deps_remaining d' = Int32.sub (AicpuKernel.deps_remaining d) 1 /\
          (AicpuKernel.deps_remaining d' = 0 /\
           AicpuKernel.status d = AicpuKernel.PTO_TASK_PENDING ->
           AicpuKernel.status d' = AicpuKernel.PTO_TASK_READY) /\
          (~ (AicpuKernel.deps_remaining d' = 0 /\
              AicpuKernel.status d = AicpuKernel.PTO_TASK_PENDING) ->
           AicpuKernel.status d' = AicpuKernel.status d)) /\
     (forall u, u ∉ AicpuKernel.dependents t -> u <> i ->
        Loop.read ts' u = Loop.read ts u) /\
     Loop.read ts' i = Some (AicpuKernel.set_status AicpuKernel.PTO_TASK_COMPLETE t) /\
     AicpuKernel.tasks_completed (AicpuKernel.graph w')
       = Int32.add (AicpuKernel.tasks_completed (AicpuKernel.graph w)) 1).
Proof.
  intros [Hst Htask] Hidx. split.
  - intros w l w' l' t Hget Ht Hnd Hcnt Hcap. unfold GraphExecutor.collect_core.
    rewrite Hget, Hst, Hidx, Ht.
    destruct (Z.eqb_spec (Cell.task h) 0) as [|_]; [done|]. simpl.
    destruct (Loop.foreach _ _ _) as [[g' s']|] eqn:Hrun; [|done].
    intros [= <- <-]. unfold GraphExecutor.store.
    cbn [GraphExecutor.g GraphExecutor.sh].
    change (GraphExecutor.queued_aic (GraphExecutor.count_completed s'))
      with (GraphExecutor.queued_aic s').
    change (GraphExecutor.queued_aiv (GraphExecutor.count_completed s'))
      with (GraphExecutor.queued_aiv s').
    change (GraphExecutor.completed_tasks (GraphExecutor.count_completed s'))
      with (Int32.add (GraphExecutor.completed_tasks s') 1).
    destruct (resolve_fanout_spec _ _ _ _ _ Hnd Hcap Hrun) as (H1 & H2 & H3 & H4 & H5).
    assert (Hzero : forall v, v ∈ GraphExecutor.fanout t ->
              (GraphExecutor.fanin_of g' v =? 0)
              = (GraphExecutor.fanin_of (GraphExecutor.g w) v =? 1)).
    { intros v Hv. destruct (H1 v Hv) as (tv & Htv & Htv').
      unfold GraphExecutor.fanin_of. rewrite Htv, Htv'. simpl.
      pose proof (sub_one_zero _ (Hcnt v tv Htv)).
      destruct (Z.eqb_spec (Int32.sub (GraphExecutor.fanin tv) 1) 0),
               (Z.eqb_spec (GraphExecutor.fanin tv) 1); tauto. }
    split; [|split; [|split; [|split]]].
    + intros v Hv. destruct (H1 v Hv) as (tv & Htv & Htv').
      unfold GraphExecutor.fanin_of, GraphExecutor.kind_of. rewrite Htv, Htv'. simpl.
      split; [done|]. split; [|done].
      intros Hmin. apply sub_one_exact; [by eapply Hcnt|done].
    + exact H2.
    + rewrite H3. f_equal. apply filter_ext_elem. intros v Hv. by rewrite Hzero.
    + rewrite H4. f_equal. apply filter_ext_elem. intros v Hv. by rewrite Hzero.
    + by rewrite H5.
  - intros w k w' k' t Hget Ht Hnd Hself. unfold AicpuKernel.complete_core.
    rewrite Hget, Hst, Hidx, Ht.
    destruct (Z.eqb_spec (Cell.task h) 0) as [|_]; [done|]. simpl.
    destruct (AicpuKernel.update_task i _ _) as [g1|] eqn:Hup; [|done].
    destruct (Loop.foreach _ _ _) as [g2|] eqn:Hrun; [|done].
    intros [= <- <-]. simpl.
    destruct (resolve_dependents_spec _ _ _ Hnd Hrun) as (H1 & H2 & H3 & H4).
    pose proof (fun u => proj1 (read_update_task _ _ _ _ u Hup)) as Hread.
    destruct (read_update_task _ _ _ _ i Hup) as (_ & _ & Hc). simpl in *.
    split; [|split; [|split]].
    + intros v Hv. destruct (H1 v Hv) as (d & Hd & Hd').
      rewrite Hread, decide_False in Hd by (intros ->; done).
      exists d, (AicpuKernel.release d). split; [done|]. split; [done|].
      destruct (release_spec d) as (Hr & Hready & Hkeep & _). done.
    + intros u Hu Hne. rewrite H2 by done. by rewrite Hread, decide_False.
    + rewrite H2 by done. rewrite Hread, decide_True by done. by rewrite Ht.
    + congruence.
Qed.

Lemma completion_releases_successors_witness :
  exists w' l',
    GraphExecutor.collect_core Scenario.GL 0
      (Scenario.fork_world, GraphExecutor.mkLocal 0 1 3) = Some (w', l') /\
    GraphExecutor.fanin_of (GraphExecutor.g w') 1 = 0 /\
    GraphExecutor.fanin_of (GraphExecutor.g w') 2 = 1 /\
    GraphExecutor.queued_aiv (GraphExecutor.sh w') = [1] /\
    GraphExecutor.queued_aic (GraphExecutor.sh w') = [].
Proof.
  destruct (GraphExecutor.collect_core Scenario.GL 0
              (Scenario.fork_world, GraphExecutor.mkLocal 0 1 3))
    as [[w' l']|] eqn:Hrun; [|vm_compute in Hrun; discriminate].
  exists w', l'. split; [reflexivity|].
  assert (Hwf : Layout.index Scenario.GL (Cell.task Scenario.done_cell) = Some 0)
    by reflexivity.
  assert (Hdone : Cell.completed Scenario.done_cell)
    by (split; [reflexivity|vm_compute; discriminate]).
  destruct (completion_releases_successors Scenario.GL 0 Scenario.done_cell 0
              Hdone Hwf) as [Hexec _].
  destruct (Hexec Scenario.fork_world (GraphExecutor.mkLocal 0 1 3) w' l'
              (GraphExecutor.mkTask 0 32768 0 [1; 2] 0))
    as (Hdec & _ & Hqa & Hqv & _).
  - reflexivity.
  - reflexivity.
  - apply (bool_decide_unpack _). vm_compute. exact I.
  - intros v t Hv. unfold GraphExecutor.get_task, Loop.read in Hv.
    destruct (0 <=? v); [|discriminate].
    destruct (Z.to_nat v) as [|[|[|n]]]; simpl in Hv; try discriminate;
      injection Hv as <-; vm_compute; split; discriminate.
  - vm_compute. split; discriminate.
  - exact Hrun.
  - destruct (Hdec 1) as (H1 & _); [apply elem_of_cons; by left|].
    destruct (Hdec 2) as (H2 & _);
      [apply elem_of_cons; right; apply elem_of_cons; by left|].
    cbn [GraphExecutor.g Scenario.fork_world] in Hqa, Hqv, H1, H2.
    split; [exact H1|]. split; [exact H2|].
    assert (Hf1 : GraphExecutor.fanin_of (GraphExecutor.g w') 1 = 0) by exact H1.
    assert (Hf2 : GraphExecutor.fanin_of (GraphExecutor.g w') 2 = 1) by exact H2.
    cbn [List.filter GraphExecutor.fanout] in Hqa, Hqv.
    rewrite Hf1, Hf2 in Hqa, Hqv.
    split; [exact Hqv|exact Hqa].
Defined.

(** C4, as stated, fails in [check_completions]: the counter of a dependent
    that is not Pending reaches zero and the dependent is not marked
    Ready. *)
Lemma dependent_not_marked_ready :
  exists w' d',
    AicpuKernel.complete_core Scenario.L 0 (Scenario.stale_world, 0) = Some (w', 1) /\
    Loop.read (AicpuKernel.tasks (AicpuKernel.graph w')) 1 = Some d' /\
    AicpuKernel.deps_remaining d' = 0 /\
    AicpuKernel.status d' <> AicpuKernel.PTO_TASK_READY.
Proof.
  do 2 eexists. split; [vm_compute; reflexivity|].
  split; [vm_compute; reflexivity|]. split; [reflexivity|]. vm_compute. discriminate.
Qed.

Lemma doorbell_written_last_witness :
  Cell.writes_in_order
    [Cell.StTask 0 (Layout.addr Scenario.L 0); Cell.StStatus 0 1].
Proof.
  assert (Hwf : Layout.wf Scenario.L) by (split; reflexivity).
  destruct (doorbell_written_last Scenario.L Hwf) as [Hpto _].
  destruct (AicpuKernel.schedule_tasks Scenario.L 1 1 Scenario.ready_world)
    as [[w' k]|] eqn:Hrun; [|vm_compute in Hrun; discriminate].
  destruct (Hpto 1 1 Scenario.ready_world w' k Hrun) as (tr & Hlog & _ & Hord & _).
  vm_compute in Hrun. injection Hrun as <- <-.
  simpl in Hlog. by subst tr.
Defined.

Lemma dispatch_respects_core_kind_witness :
  exists t h,
    GraphExecutor.get_task Scenario.one_task 0 = Some t /\
    Cell.get [Cell.reset 0] 0 = Some h /\
    Cell.core_type h = GraphExecutor.core_type t.
Proof.
  destruct Scenario.launched as [s0|] eqn:Hstart; [|vm_compute in Hstart; discriminate].
  destruct (GraphExecutor.pass Scenario.GL [0]
              (GraphExecutor.world s0, GraphExecutor.enter (GraphExecutor.sh (GraphExecutor.world s0))))
    as [[w' l']|] eqn:Hpass;
    [|vm_compute in Hstart; injection Hstart as <-; vm_compute in Hpass; discriminate].
  assert (Hreach : GraphExecutor.reachable Scenario.GL s0
            (GraphExecutor.mkSys w'
               (<[ 0%nat := GraphExecutor.mkThread [0] l' ]> (GraphExecutor.threads s0))
               (GraphExecutor.kernel_log s0))).
  { eapply GraphExecutor.reach_step; [apply GraphExecutor.reach_start|].
    apply (GraphExecutor.step_pass Scenario.GL s0 0%nat
             (GraphExecutor.mkThread [0]
                (GraphExecutor.enter (GraphExecutor.sh (GraphExecutor.world s0))))).
    - vm_compute in Hstart. injection Hstart as <-. reflexivity.
    - vm_compute in Hstart. injection Hstart as <-. reflexivity.
    - exact Hpass. }
  destruct (dispatch_respects_core_kind Scenario.GL) as [_ Hexec].
  destruct (Hexec Scenario.one_task [Cell.reset 0] Scenario.fresh [[0]] s0 _
              Hstart Hreach 0 (Layout.addr Scenario.GL 0))
    as (i & t & h & Hp & Ht & Hh & _ & _ & _ & Heq).
  - vm_compute in Hstart. injection Hstart as <-.
    vm_compute in Hpass. injection Hpass as <- <-.
    apply elem_of_cons. by left.
  - vm_compute. discriminate.
  - assert (i = 0) as ->.
    { unfold Layout.addr in Hp. simpl in Hp. lia. }
    exists t, h. split; [exact Ht|]. split; [exact Hh|].
    apply Heq. left.
    vm_compute in Ht. by injection Ht as <-.
Defined.

(* --------------------------------------------------------------------- *)
(** ** Where [execute] dispatches, and when the schedulers return *)
(* --------------------------------------------------------------------- *)

(** The dispatch phase of [execute] stores a task pointer only into a cell
    it has just found idle ([task_status == 0] and [task == 0]). *)
Lemma execute_publishes_to_idle_cells L c wl wl' :
  GraphExecutor.dispatch_core L c wl = Some wl' ->
  GraphExecutor.log (fst wl') = GraphExecutor.log (fst wl) \/
  exists h p, Cell.get (GraphExecutor.hank (fst wl)) c = Some h /\ Cell.idle h /\
    GraphExecutor.log (fst wl')
    = GraphExecutor.log (fst wl) ++ [Cell.StTask c p; Cell.StStatus c 1].
Proof.
  unfold GraphExecutor.dispatch_core.
  destruct (Cell.get (GraphExecutor.hank (fst wl)) c) as [h|]; [|done].
  destruct (Z.eqb_spec (Cell.task_status h) 0) as [Hst|]; simpl;
    [|intros [= <-]; by left].
  destruct (Z.eqb_spec (Cell.task h) 0) as [Htk|]; [|intros [= <-]; by left].
  assert (Hpub : forall i s', GraphExecutor.publish L c i s' wl = Some wl' ->
            GraphExecutor.log (fst wl')
            = GraphExecutor.log (fst wl)
              ++ [Cell.StTask c (Layout.addr L i); Cell.StStatus c 1]).
  { intros i s'. unfold GraphExecutor.publish. destruct wl as [w l].
    destruct (GraphExecutor.get_task (GraphExecutor.g w) i); [|done].
    intros [= <-]. simpl. by rewrite <- app_assoc. }
  destruct (Cell.core_type h =? 0).
  { destruct (GraphExecutor.pop_aic _) as [[[i s']|]|]; [| |done].
    - intros Hp%Hpub. right. by exists h, (Layout.addr L i).
    - intros [= <-]. by left. }
  destruct (Cell.core_type h =? 1); [|intros [= <-]; by left].
  destruct (GraphExecutor.pop_aiv _) as [[[i s']|]|]; [| |done].
  - intros Hp%Hpub. right. by exists h, (Layout.addr L i).
  - intros [= <-]. by left.
Qed.

Section PtoTotal.
Import Cell AicpuKernel.
Variable L : Layout.t.
Variable aic_num : Z.

Lemma find_ready_total ts kind n : forall i0,
  0 <= i0 -> i0 + Z.of_nat n <= Z.of_nat (length ts) ->
  exists r, find_ready ts kind n i0 = Some r /\
            forall i, r = Some i -> 0 <= i < Z.of_nat (length ts).
Proof.
  induction n as [|n IH]; intros i0 H0 Hn; simpl.
  - by exists None.
  - destruct (read_in_range ts i0 ltac:(lia)) as [t ->].
    destruct (negb (status t =? PTO_TASK_READY)); [apply IH; lia|].
    destruct (negb (core_type t =? kind)); [apply IH; lia|].
    exists (Some i0). split; [done|]. intros i [= <-]. lia.
Qed.

Lemma apply_store_length st hk : length (apply_store st hk) = length hk.
Proof.
  destruct st as [c p|c v]; simpl; unfold update;
    destruct (0 <=? c); try done; destruct (hk !! Z.to_nat c); try done;
    by rewrite length_insert.
Qed.

Lemma schedule_core_total core_num c wk :
  0 <= c < core_num -> in_bounds core_num (fst wk) ->
  exists wk', schedule_core L aic_num c wk = Some wk' /\ in_bounds core_num (fst wk').
Proof.
  destruct wk as [w k]. simpl. intros Hc [Hh Ht]. unfold schedule_core.
  destruct (hank w !! Z.to_nat c) as [h|] eqn:Hget.
  2: { apply lookup_ge_None in Hget. lia. }
  unfold Cell.get. destruct (Z.leb_spec 0 c); [|lia]. rewrite Hget.
  destruct (negb (task h =? 0) && negb (task_status h =? 0)).
  { exists (w, k). by repeat split. }
  destruct (find_ready_total (tasks (graph w)) (core_kind aic_num c)
              (Z.to_nat (num_tasks (graph w))) 0 ltac:(lia) ltac:(lia))
    as (r & -> & Hr).
  destruct r as [i|]; [|exists (w, k); by repeat split].
  destruct (read_in_range (tasks (graph w)) i (Hr i eq_refl)) as [t Hti].
  unfold assign, update_task. rewrite Hti.
  eexists. split; [done|]. unfold store, in_bounds.
  cbn [fst hank graph tasks num_tasks set_tasks]. split.
  - by rewrite !apply_store_length.
  - by rewrite length_insert.
Qed.

(** [schedule_tasks] returns whenever the handshake array has [core_num]
    cells and the task array has [num_tasks] entries. *)
Lemma schedule_tasks_total core_num w :
  core_num <= Z.of_nat (length (hank w)) ->
  num_tasks (graph w) <= Z.of_nat (length (tasks (graph w))) ->
  exists w' k, schedule_tasks L core_num aic_num w = Some (w', k).
Proof.
  intros Hh Ht. unfold schedule_tasks.
  assert (Hgen : forall cs wk,
            Forall (fun c => 0 <= c < core_num) cs -> in_bounds core_num (fst wk) ->
            exists wk', Loop.foreach (schedule_core L aic_num) cs wk = Some wk').
  { induction cs as [|c cs IH]; intros wk Hcs Hfit; simpl; [by eexists|].
    apply Forall_cons in Hcs as [Hc Hcs].
    destruct (schedule_core_total core_num c wk Hc Hfit) as (wk1 & -> & Hfit1).
    by apply IH. }
  destruct (Hgen (Loop.upto core_num) (w, 0)) as [[w' k] Hrun].
  - apply Forall_forall. intros c Hc%upto_elem. done.
  - by split.
  - by exists w', k.
Qed.

End PtoTotal.

Section ExecutorTotal.
Import Cell GraphExecutor.
Variable L : Layout.t.
Variable gr : Graph.
Variable cells : list Handshake.

Lemma dispatch_core_total c wl :
  affine L gr cells (fst wl) -> is_Some (Cell.get cells c) ->
  exists wl', dispatch_core L c wl = Some wl'.
Proof.
  intros (Hk & Hck & Hc & Hv & _) [h0 Hh0]. unfold dispatch_core.
  pose proof (Hck c) as Hkc. rewrite Hh0 in Hkc.
  destruct (Cell.get (hank (fst wl)) c) as [h|]; [|done].
  assert (Hpub : forall i s' t, get_task gr i = Some t ->
            exists wl', publish L c i s' wl = Some wl').
  { intros i s' t Ht. unfold publish. destruct wl as [w l].
    pose proof (Hk i) as Hki. rewrite Ht in Hki. simpl in *.
    destruct (get_task (g w) i); [by eexists|done]. }
  destruct ((task_status h =? 0) && (task h =? 0)); [|by eexists].
  destruct (Cell.core_type h =? 0).
  { unfold pop_aic.
    destruct (Z.ltb_spec 0 (ready_count_aic (sh (fst wl)))) as [Hpos|]; [|by eexists].
    destruct (Hc (ready_count_aic (sh (fst wl)) - 1) ltac:(lia))
      as (id & t & -> & Ht & _).
    by eapply Hpub. }
  destruct (Cell.core_type h =? 1); [|by eexists].
  unfold pop_aiv.
  destruct (Z.ltb_spec 0 (ready_count_aiv (sh (fst wl)))) as [Hpos|]; [|by eexists].
  destruct (Hv (ready_count_aiv (sh (fst wl)) - 1) ltac:(lia))
    as (id & t & -> & Ht & _).
  by eapply Hpub.
Qed.

(** In a state where the queues hold tasks of the graph, the dispatch phase
    returns for every list of cores of the handshake array. *)
Lemma dispatch_phase_total cs : forall wl,
  affine L gr cells (fst wl) ->
  Forall (fun c => is_Some (Cell.get cells c)) cs ->
  exists wl', dispatch_phase L cs wl = Some wl'.
Proof.
  unfold dispatch_phase.
  induction cs as [|c cs IH]; intros wl Haff Hcs; simpl; [by eexists|].
  apply Forall_cons in Hcs as [Hc Hcs].
  destruct (dispatch_core_total c wl Haff Hc) as [wl1 Hstep]. rewrite Hstep.
  apply IH; [|done]. by eapply dispatch_core_affine.
Qed.

End ExecutorTotal.

(* ===================================================================== *)
(** * Further properties of the single-thread scheduler *)
(* ===================================================================== *)

Lemma NoDup_upto n : NoDup (Loop.upto n).
Proof.
  unfold Loop.upto. apply NoDup_fmap_2; [apply _|]. apply NoDup_seq.
Qed.

Section PtoSchedule.
Import Cell Loop AicpuKernel.

Variable L : Layout.t.
Variable aic_num : Z.

Lemma find_ready_spec ts kind n : forall i0 r,
  find_ready ts kind n i0 = Some r ->
  match r with
  | Some i => i0 <= i < i0 + Z.of_nat n /\ ready_for ts kind i /\
              forall j, i0 <= j < i -> ~ ready_for ts kind j
  | None => forall j, i0 <= j < i0 + Z.of_nat n -> ~ ready_for ts kind j
  end.
Proof.
  induction n as [|n IH]; intros i0 r H; cbn [find_ready] in H.
  - inversion H; subst. intros j Hj. lia.
  - destruct (read ts i0) as [t|] eqn:Ht; [|discriminate].
    assert (Hskip : ~ ready_for ts kind i0 ->
                    find_ready ts kind n (i0 + 1) = Some r ->
                    match r with
                    | Some i => i0 <= i < i0 + Z.of_nat (S n) /\ ready_for ts kind i /\
                                forall j, i0 <= j < i -> ~ ready_for ts kind j
                    | None => forall j, i0 <= j < i0 + Z.of_nat (S n) ->
                                        ~ ready_for ts kind j
                    end).
    { intros Hno Hr. apply IH in Hr. destruct r as [i|].
      - destruct Hr as (Hi & Hrd & Hlow). split; [lia|]. split; [done|].
        intros j Hj. destruct (decide (j = i0)) as [->|Hne]; [done|].
        apply Hlow. lia.
      - intros j Hj. destruct (decide (j = i0)) as [->|Hne]; [done|].
        apply Hr. lia. }
    destruct (status t =? PTO_TASK_READY) eqn:Hs; cbn [negb] in H.
    + destruct (core_type t =? kind) eqn:Hk; cbn [negb] in H.
      * inversion H; subst. split; [lia|]. split.
        -- exists t. split; [done|]. split; lia.
        -- intros j Hj. lia.
      * apply Hskip; [|done]. intros (t' & Ht' & _ & Hk').
        rewrite Ht in Ht'. inversion Ht'; subst. lia.
    + apply Hskip; [|done]. intros (t' & Ht' & Hs' & _).
      rewrite Ht in Ht'. inversion Ht'; subst. lia.
Qed.

Lemma assign_spec c i w w' :
  assign L c i w = Some w' ->
  exists t, read (tasks (graph w)) i = Some t /\
    update_task i (set_status PTO_TASK_RUNNING) (graph w) = Some (graph w') /\
    hank w' = apply_store (StStatus c 1)
                (apply_store (StTask c (Layout.addr L i)) (hank w)) /\
    log w' = log w ++ handed L (c, i).
Proof.
  unfold assign. intros H.
  destruct (update_task _ _ _) as [g'|] eqn:Hu; [|discriminate].
  pose proof Hu as Hu'.
  apply update_task_Some in Hu' as (t & Ht & ->). inversion H; subst; clear H.
  exists t. cbn. rewrite <- app_assoc. done.
Qed.

Lemma busy_test h :
  negb (task h =? 0) && negb (task_status h =? 0) = true <-> busy h.
Proof. unfold busy. rewrite andb_true_iff, !negb_true_iff, !Z.eqb_neq. done. Qed.

Lemma schedule_core_cases c w k w' k' :
  schedule_core L aic_num c (w, k) = Some (w', k') ->
  exists h, Cell.get (hank w) c = Some h /\
    ((w' = w /\ k' = k /\
      (busy h \/
       forall j, 0 <= j < num_tasks (graph w) ->
                 ~ ready_for (tasks (graph w)) (core_kind aic_num c) j)) \/
     (exists i, ~ busy h /\ 0 <= i < num_tasks (graph w) /\
        ready_for (tasks (graph w)) (core_kind aic_num c) i /\
        (forall j, 0 <= j < i ->
                   ~ ready_for (tasks (graph w)) (core_kind aic_num c) j) /\
        assign L c i w = Some w' /\ k' = k + 1)).
Proof.
  unfold schedule_core. intros H.
  destruct (Cell.get (hank w) c) as [h|] eqn:Hh; [|discriminate].
  exists h. split; [done|].
  destruct (negb (task h =? 0) && negb (task_status h =? 0)) eqn:Hb.
  - inversion H; subst. left. split; [done|]. split; [done|]. left.
    by apply busy_test.
  - assert (Hnb : ~ busy h).
    { rewrite <- busy_test. by rewrite Hb. }
    destruct (find_ready _ _ _ _) as [[i|]|] eqn:Hf; [| |discriminate].
    + destruct (assign L c i w) as [w1|] eqn:Ha; [|discriminate].
      inversion H; subst. apply find_ready_spec in Hf as (Hi & Hr & Hlow).
      right. exists i. split; [done|]. split; [lia|]. done.
    + inversion H; subst. apply find_ready_spec in Hf.
      left. split; [done|]. split; [done|]. right. intros j Hj. apply Hf. lia.
Qed.

Lemma get_handed c p hk c' :
  Cell.get (apply_store (StStatus c 1) (apply_store (StTask c p) hk)) c' =
  if decide (c' = c)
  then (fun h => set_task_status 1 (set_task p h)) <$> Cell.get hk c
  else Cell.get hk c'.
Proof.
  cbn [apply_store]. rewrite !get_update.
  case_decide as Hc; [|done]. subst. rewrite decide_True by done.
  by destruct (Cell.get hk c).
Qed.

Lemma schedule_cores_spec cs : forall w k w' k',
  NoDup cs ->
  foreach (schedule_core L aic_num) cs (w, k) = Some (w', k') ->
  exists ids : list (Z * Z),
    log w' = log w ++ flat_map (handed L) ids /\
    k' = k + Z.of_nat (length ids) /\
    NoDup (map fst ids) /\ NoDup (map snd ids) /\
    (forall c i, (c, i) ∈ ids ->
       c ∈ cs /\ 0 <= i < num_tasks (graph w) /\
       exists t h,
         read (tasks (graph w)) i = Some t /\
         status t = PTO_TASK_READY /\ core_type t = core_kind aic_num c /\
         read (tasks (graph w')) i = Some (set_status PTO_TASK_RUNNING t) /\
         Cell.get (hank w) c = Some h /\ ~ busy h /\
         Cell.get (hank w') c
         = Some (set_task_status 1 (set_task (Layout.addr L i) h))) /\
    (forall i, i ∉ map snd ids ->
       read (tasks (graph w')) i = read (tasks (graph w)) i) /\
    (forall c, c ∉ map fst ids -> Cell.get (hank w') c = Cell.get (hank w) c) /\
    num_tasks (graph w') = num_tasks (graph w) /\
    tasks_completed (graph w') = tasks_completed (graph w).
Proof.
  induction cs as [|c cs IH]; intros w k w' k' Hnd H.
  - cbn in H. inversion H; subst. exists []. cbn.
    rewrite app_nil_r. split; [done|]. split; [lia|].
    split; [constructor|]. split; [constructor|].
    split; [intros c i Hin; by apply elem_of_nil in Hin|]. done.
  - cbn [foreach] in H.
    destruct (schedule_core L aic_num c (w, k)) as [[w1 k1]|] eqn:Hc; [|discriminate].
    apply NoDup_cons in Hnd as [Hc_cs Hnd].
    apply (IH _ _ _ _ Hnd) in H
      as (ids & Hlog & Hk & Hnf & Hns & Hids & Hrest & Hcells & Hnum & Hcomp).
    apply schedule_core_cases in Hc as (h & Hh & [(-> & -> & _)|Hassign]).
    + exists ids. split; [done|]. split; [done|]. split; [done|]. split; [done|].
      split; [|done].
      intros c' i Hin. destruct (Hids c' i Hin) as (Hc' & Hrest').
      split; [|done]. apply elem_of_cons. by right.
    + destruct Hassign as (i & Hnb & Hi & (t & Ht & Hst & Hkind) & _ & Ha & ->).
      apply assign_spec in Ha as (t0 & Ht0 & Hu & Hhank & Hlog1).
      rewrite Ht in Ht0. inversion Ht0; subst t0; clear Ht0.
      pose proof (fun u => read_update_task i _ _ _ u Hu) as Hread.
      destruct (Hread i) as (_ & Hnum1 & Hcomp1).
      assert (Hfst : forall c', c' ∈ map fst ids -> c' ∈ cs).
      { intros c' Hin. apply list_elem_of_fmap in Hin as ([c'' i'] & -> & Hin).
        by destruct (Hids _ _ Hin). }
      assert (Hsnd : i ∉ map snd ids).
      { intros Hin. apply list_elem_of_fmap in Hin as ([c'' i'] & Heq & Hin).
        cbn in Heq. subst i'.
        destruct (Hids _ _ Hin) as (_ & _ & t1 & _ & Ht1 & Hs1 & _).
        destruct (Hread i) as (Hr & _). rewrite decide_True in Hr by done.
        rewrite Ht in Hr. cbn in Hr. rewrite Hr in Ht1.
        inversion Ht1; subst t1. cbn in Hs1. discriminate. }
      assert (Hc_ids : c ∉ map fst ids) by (intros Hin; by apply Hc_cs, Hfst).
      exists ((c, i) :: ids).
      split. { rewrite Hlog, Hlog1. cbn [flat_map]. by rewrite <- app_assoc. }
      split. { rewrite Hk. cbn [length]. lia. }
      split. { cbn [map fst]. by apply NoDup_cons. }
      split. { cbn [map snd]. by apply NoDup_cons. }
      split.
      { intros c' i' Hin. apply elem_of_cons in Hin as [Heq|Hin].
        - inversion Heq; subst c' i'. split; [apply elem_of_cons; by left|].
          split; [done|]. exists t, h.
          split; [done|]. split; [done|]. split; [done|].
          split. { rewrite (Hrest i Hsnd). destruct (Hread i) as (Hr & _).
                   rewrite decide_True in Hr by done. by rewrite Hr, Ht. }
          split; [done|]. split; [done|].
          rewrite (Hcells c Hc_ids), Hhank, get_handed, decide_True by done.
          by rewrite Hh.
        - destruct (Hids _ _ Hin)
            as (Hc' & Hi' & t1 & h1 & Ht1 & Hs1 & Hk1 & Ht1' & Hh1 & Hnb1 & Hh1').
          assert (c' <> c) by (intros ->; done).
          assert (i' <> i).
          { intros ->. apply Hsnd. apply list_elem_of_fmap.
            exists (c', i). done. }
          split; [apply elem_of_cons; by right|]. split; [lia|].
          exists t1, h1.
          destruct (Hread i') as (Hr & _). rewrite decide_False in Hr by done.
          rewrite <- Hr. split; [done|]. split; [done|]. split; [done|].
          split; [done|].
          rewrite Hhank, get_handed, decide_False in Hh1 by done. done. }
      split.
      { intros i' Hi'. cbn [map snd] in Hi'.
        apply not_elem_of_cons in Hi' as [Hne Hi'].
        rewrite (Hrest _ Hi'). destruct (Hread i') as (Hr & _).
        by rewrite decide_False in Hr. }
      split.
      { intros c' Hc'. cbn [map fst] in Hc'.
        apply not_elem_of_cons in Hc' as [Hne Hc'].
        rewrite (Hcells _ Hc'), Hhank, get_handed. by rewrite decide_False. }
      split; [lia|]. lia.
Qed.

Lemma schedule_cores_saturate cs : forall w k w' k',
  Layout.wf L -> NoDup cs ->
  foreach (schedule_core L aic_num) cs (w, k) = Some (w', k') ->
  forall c, c ∈ cs ->
    exists h, Cell.get (hank w') c = Some h /\
      (busy h \/
       forall j, 0 <= j < num_tasks (graph w') ->
                 ~ ready_for (tasks (graph w')) (core_kind aic_num c) j).
Proof.
  induction cs as [|c0 cs IH]; intros w k w' k' HL Hnd H c Hc.
  - by apply elem_of_nil in Hc.
  - cbn [foreach] in H.
    destruct (schedule_core L aic_num c0 (w, k)) as [[w1 k1]|] eqn:Hc0; [|discriminate].
    apply NoDup_cons in Hnd as [Hc0_cs Hnd].
    apply elem_of_cons in Hc as [->|Hc]; [|by eapply IH].
    destruct (schedule_cores_spec _ _ _ _ _ Hnd H)
      as (ids & _ & _ & _ & _ & Hids & Hrest & Hcells & Hnum & _).
    assert (Hkeep : Cell.get (hank w') c0 = Cell.get (hank w1) c0).
    { apply Hcells. intros Hin.
      apply (list_elem_of_fmap fst) in Hin as ([c' i'] & -> & Hin).
      by destruct (Hids _ _ Hin). }
    assert (Hmono : forall kind j, ready_for (tasks (graph w')) kind j ->
                                   ready_for (tasks (graph w1)) kind j).
    { intros kind j (t & Ht & Hs & Hk).
      destruct (decide (j ∈ map snd ids)) as [Hin|Hout].
      - apply (list_elem_of_fmap snd) in Hin as ([c' i'] & -> & Hin).
        destruct (Hids _ _ Hin) as (_ & _ & t1 & _ & _ & _ & _ & Ht1 & _).
        cbn in Ht. rewrite Ht in Ht1. inversion Ht1; subst t.
        cbn in Hs. discriminate.
      - rewrite (Hrest _ Hout) in Ht. by exists t. }
    rewrite Hkeep, Hnum.
    apply schedule_core_cases in Hc0 as (h & Hh & [(-> & -> & Hwhy)|Hassign]).
    + exists h. split; [done|]. destruct Hwhy as [Hb|Hno]; [by left|].
      right. intros j Hj Hr. by apply (Hno j Hj), Hmono.
    + destruct Hassign as (i & _ & Hi & _ & _ & Ha & _).
      apply assign_spec in Ha as (_ & _ & _ & Hhank & _).
      rewrite Hhank, get_handed, decide_True, Hh by done.
      eexists. split; [done|]. left. split; cbn; [|done].
      apply addr_nonzero; [done|lia].
Qed.

End PtoSchedule.

(** X1. The inner loop of [schedule_tasks] picks the ready task of the
    wanted core type that has the lowest id among the first [n]; it
    finds none exactly when no such task is ready. *)
Theorem find_ready_lowest (ts : list AicpuKernel.PTOTask) (kind : Z) (n : nat) :
  Z.of_nat n <= Z.of_nat (length ts) ->
  exists r, AicpuKernel.find_ready ts kind n 0 = Some r /\
    match r with
    | Some i => 0 <= i < Z.of_nat n /\ AicpuKernel.ready_for ts kind i /\
                forall j, 0 <= j < i -> ~ AicpuKernel.ready_for ts kind j
    | None => forall j, 0 <= j < Z.of_nat n -> ~ AicpuKernel.ready_for ts kind j
    end.
Proof.
  intros Hn.
  destruct (find_ready_total ts kind n 0) as (r & Hr & _); [lia|lia|].
  exists r. split; [done|]. apply find_ready_spec in Hr.
  destruct r as [i|]; [|intros j Hj; apply Hr; lia].
  destruct Hr as (Hi & Hrd & Hlow). split; [lia|]. done.
Qed.

Lemma find_ready_lowest_witness :
  exists r,
    AicpuKernel.find_ready
      [Scenario.cube_task 0;
       AicpuKernel.set_status AicpuKernel.PTO_TASK_READY (Scenario.cube_task 1);
       AicpuKernel.set_status AicpuKernel.PTO_TASK_READY (Scenario.cube_task 2)]
      0 3 0 = Some r /\ r = Some 1.
Proof.
  destruct (find_ready_lowest
              [Scenario.cube_task 0;
               AicpuKernel.set_status AicpuKernel.PTO_TASK_READY (Scenario.cube_task 1);
               AicpuKernel.set_status AicpuKernel.PTO_TASK_READY (Scenario.cube_task 2)]
              0 3) as (r & Hr & _).
  - cbn. lia.
  - exists r. split; [exact Hr|]. vm_compute in Hr. congruence.
Defined.

(** X2. One call of [schedule_tasks] that stays inside its arrays hands
    out pairwise different tasks to pairwise different cores: its stores
    are the publications of a list of (core, task) pairs, the return
    value is the length of that list, every task handed out was READY, is
    of the core's type and is RUNNING afterwards, and nothing else of the
    graph changes. *)
Theorem schedule_tasks_assigns_distinct (L : Layout.t) (core_num aic_num : Z)
        (w : AicpuKernel.World) :
  AicpuKernel.in_bounds core_num w ->
  exists w' k ids,
    AicpuKernel.schedule_tasks L core_num aic_num w = Some (w', k) /\
    AicpuKernel.log w' = AicpuKernel.log w ++ flat_map (AicpuKernel.handed L) ids /\
    k = Z.of_nat (length ids) /\
    NoDup (map fst ids) /\ NoDup (map snd ids) /\
    (forall c i, (c, i) ∈ ids ->
       0 <= c < core_num /\ 0 <= i < AicpuKernel.num_tasks (AicpuKernel.graph w) /\
       exists t,
         Loop.read (AicpuKernel.tasks (AicpuKernel.graph w)) i = Some t /\
         AicpuKernel.status t = AicpuKernel.PTO_TASK_READY /\
         AicpuKernel.core_type t = AicpuKernel.core_kind aic_num c /\
         Loop.read (AicpuKernel.tasks (AicpuKernel.graph w')) i
         = Some (AicpuKernel.set_status AicpuKernel.PTO_TASK_RUNNING t)) /\
    (forall i, i ∉ map snd ids ->
       Loop.read (AicpuKernel.tasks (AicpuKernel.graph w')) i
       = Loop.read (AicpuKernel.tasks (AicpuKernel.graph w)) i) /\
    AicpuKernel.num_tasks (AicpuKernel.graph w')
      = AicpuKernel.num_tasks (AicpuKernel.graph w) /\
    AicpuKernel.tasks_completed (AicpuKernel.graph w')
      = AicpuKernel.tasks_completed (AicpuKernel.graph w).
Proof.
  intros [Hc Ht].
  destruct (schedule_tasks_total L aic_num core_num w Hc Ht) as (w' & k & H).
  exists w', k. pose proof H as H'. unfold AicpuKernel.schedule_tasks in H'.
  apply (schedule_cores_spec L aic_num _ _ _ _ _ (NoDup_upto core_num)) in H'
    as (ids & Hlog & Hk & Hnf & Hns & Hids & Hrest & _ & Hnum & Hcomp).
  exists ids. split; [done|]. split; [done|]. split; [lia|].
  split; [done|]. split; [done|]. split; [|done].
  intros c i Hin.
  destruct (Hids c i Hin) as (Hc' & Hi & t & h & Ht0 & Hs & Hk0 & Ht1 & _).
  apply upto_elem in Hc'. split; [done|]. split; [done|]. by exists t.
Qed.

Lemma schedule_tasks_assigns_distinct_witness :
  exists w' ids,
    AicpuKernel.schedule_tasks Scenario.L 1 1 Scenario.ready_world = Some (w', 1) /\
    ids = [(0, 0)] /\
    AicpuKernel.log w' = flat_map (AicpuKernel.handed Scenario.L) ids.
Proof.
  destruct (schedule_tasks_assigns_distinct Scenario.L 1 1 Scenario.ready_world)
    as (w' & k & ids & H & Hlog & Hk & _).
  - split; cbn; lia.
  - vm_compute in H. inversion H; subst w' k. clear H.
    exists (AicpuKernel.mkWorld
              (AicpuKernel.mkGraph 2 0
                 [AicpuKernel.set_status AicpuKernel.PTO_TASK_RUNNING (Scenario.cube_task 0);
                  AicpuKernel.set_status AicpuKernel.PTO_TASK_READY (Scenario.cube_task 1)])
              [Cell.mkHandshake 0 0 0 (Layout.addr Scenario.L 0) 1 0]
              [Cell.StTask 0 (Layout.addr Scenario.L 0); Cell.StStatus 0 1]),
           [(0, 0)].
    split; [reflexivity|]. split; reflexivity.
Defined.

(** X3. When [schedule_tasks] returns, no core in its range is left free
    while a task of its type is ready: every cell is busy, or no task of
    the core's type is READY. *)
Theorem schedule_tasks_leaves_no_free_core (L : Layout.t) (core_num aic_num : Z)
        (w w' : AicpuKernel.World) (k : Z) :
  Layout.wf L ->
  AicpuKernel.schedule_tasks L core_num aic_num w = Some (w', k) ->
  forall c, 0 <= c < core_num ->
    exists h, Cell.get (AicpuKernel.hank w') c = Some h /\
      (Cell.busy h \/
       forall j, 0 <= j < AicpuKernel.num_tasks (AicpuKernel.graph w') ->
         ~ AicpuKernel.ready_for (AicpuKernel.tasks (AicpuKernel.graph w'))
                                 (AicpuKernel.core_kind aic_num c) j).
Proof.
  intros HL H c Hc.
  apply (schedule_cores_saturate L aic_num _ _ _ _ _ HL (NoDup_upto core_num) H).
  by apply upto_elem.
Qed.

Lemma schedule_tasks_leaves_no_free_core_witness :
  exists h, Cell.get [Cell.mkHandshake 0 0 0 (Layout.addr Scenario.L 0) 1 0] 0 = Some h /\
            Cell.busy h.
Proof.
  destruct (schedule_tasks_leaves_no_free_core Scenario.L 1 1 Scenario.ready_world
              _ _ ltac:(split; reflexivity) eq_refl 0 ltac:(lia))
    as (h & Hh & _).
  exists h. split; [exact Hh|].
  vm_compute in Hh. inversion Hh; subst h. split; cbn; discriminate.
Defined.

Section PtoCollect.
Import Cell Loop AicpuKernel.

Variable L : Layout.t.

Lemma completed_collectable h : completed h <-> collectable h = true.
Proof.
  unfold completed, collectable.
  rewrite andb_true_iff, negb_true_iff, Z.eqb_neq, Z.eqb_eq. tauto.
Qed.

Lemma resolve_dependents_counters deps gr gr' :
  foreach resolve_dependent deps gr = Some gr' ->
  num_tasks gr' = num_tasks gr /\ tasks_completed gr' = tasks_completed gr.
Proof.
  apply (foreach_invariant resolve_dependent
           (fun x => num_tasks x = num_tasks gr /\
                     tasks_completed x = tasks_completed gr)); [|done].
  intros a s s' _ [Hn Hc] Hs. unfold resolve_dependent in Hs.
  destruct (read_update_task _ _ _ _ 0 Hs) as (_ & Hn' & Hc'). lia.
Qed.

Lemma complete_core_cases c w k w' k' :
  complete_core L c (w, k) = Some (w', k') ->
  exists h, Cell.get (hank w) c = Some h /\
    (forall c', Cell.get (hank w') c' =
                if decide (c' = c) then Some (collect_cell h) else Cell.get (hank w) c') /\
    num_tasks (graph w') = num_tasks (graph w) /\
    if collectable h
    then k' = k + 1 /\
         tasks_completed (graph w') = Int32.add (tasks_completed (graph w)) 1 /\
         log w' = log w ++ [StTask c 0]
    else w' = w /\ k' = k.
Proof.
  unfold complete_core. intros H.
  destruct (Cell.get (hank w) c) as [h|] eqn:Hh; [|discriminate].
  exists h. split; [done|]. unfold collect_cell.
  change (negb (task h =? 0) && (task_status h =? 0)) with (collectable h) in H.
  destruct (collectable h) eqn:Hcol.
  - destruct (Layout.index L (task h)) as [i|]; [|discriminate].
    destruct (read (tasks (graph w)) i) as [t|]; [|discriminate].
    destruct (update_task i _ _) as [g1|] eqn:Hg1; [|discriminate].
    destruct (foreach resolve_dependent (dependents t) g1) as [g2|] eqn:Hg2;
      [|discriminate].
    inversion H; subst; clear H. cbn.
    destruct (read_update_task _ _ _ _ 0 Hg1) as (_ & Hn1 & Hc1).
    destruct (resolve_dependents_counters _ _ _ Hg2) as (Hn2 & Hc2).
    cbn in Hn1, Hc1.
    split; [|split; [lia|split; [done|split; [congruence|done]]]].
    intros c'. rewrite get_update. case_decide; [|done]. by rewrite Hh.
  - inversion H; subst; clear H. split; [|done].
    intros c'. case_decide; [|done]. by subst.
Qed.

Lemma complete_cores_spec cs : forall w k w' k',
  NoDup cs ->
  Int32.in_range (tasks_completed (graph w)) ->
  foreach (complete_core L) cs (w, k) = Some (w', k') ->
  k' = k + Z.of_nat (length (List.filter (collectable_at (hank w)) cs)) /\
  Int32.in_range (tasks_completed (graph w')) /\
  tasks_completed (graph w') = Int32.wrap (tasks_completed (graph w) + (k' - k)) /\
  num_tasks (graph w') = num_tasks (graph w) /\
  (forall c, Cell.get (hank w') c =
             if decide (c ∈ cs) then collect_cell <$> Cell.get (hank w) c
             else Cell.get (hank w) c).
Proof.
  induction cs as [|c cs IH]; intros w k w' k' Hnd Hrange H.
  - cbn in H. inversion H; subst. cbn. split; [lia|]. split; [done|].
    split; [by rewrite Z.sub_diag, Z.add_0_r, wrap_small|].
    split; [done|]. intros c. rewrite decide_False; [done|]. apply not_elem_of_nil.
  - cbn [foreach] in H.
    destruct (complete_core L c (w, k)) as [[w1 k1]|] eqn:Hc; [|discriminate].
    apply NoDup_cons in Hnd as [Hc_cs Hnd].
    apply complete_core_cases in Hc as (h & Hh & Hget & Hnum1 & Hcase).
    assert (Hrange1 : Int32.in_range (tasks_completed (graph w1))).
    { destruct (collectable h).
      - destruct Hcase as (_ & -> & _). apply wrap_in_range.
      - by destruct Hcase as (-> & _). }
    apply (IH _ _ _ _ Hnd Hrange1) in H as (Hk & Hrange' & Hcomp & Hnum & Hcells).
    assert (Hfilter : List.filter (collectable_at (hank w1)) cs
                      = List.filter (collectable_at (hank w)) cs).
    { apply filter_ext_elem. intros c' Hc'. unfold collectable_at.
      rewrite Hget, decide_False; [done|]. by intros ->. }
    assert (Hall : forall c', Cell.get (hank w') c' =
               if decide (c' ∈ c :: cs) then collect_cell <$> Cell.get (hank w) c'
               else Cell.get (hank w) c').
    { intros c'. rewrite Hcells, Hget.
      destruct (decide (c' = c)) as [->|Hne].
      - rewrite decide_False by done. rewrite decide_True by (apply elem_of_cons; by left).
        by rewrite Hh.
      - destruct (decide (c' ∈ cs)) as [Hin|Hout].
        + by rewrite decide_True by (apply elem_of_cons; by right).
        + rewrite decide_False; [done|]. by apply not_elem_of_cons. }
    cbn [List.filter].
    replace (collectable_at (hank w) c) with (collectable h)
      by (unfold collectable_at; by rewrite Hh).
    rewrite <- Hfilter.
    destruct (collectable h).
    + destruct Hcase as (-> & Hc1 & _). cbn [length].
      split; [lia|]. split; [done|]. split; [|split; [lia|done]].
      rewrite Hcomp, Hc1. unfold Int32.add. rewrite wrap_add_l. f_equal. lia.
    + destruct Hcase as (-> & ->). done.
Qed.

End PtoCollect.

(** X4. [check_completions] collects every completion it can see: it
    returns the number of cells in its range that held a task with
    [task_status == 0], the [int32_t] counter [tasks_completed] is
    incremented that many times (wrapping around), each of those cells
    has its task cleared and no other cell is touched, so that no cell
    in the range is left completed. *)
Theorem check_completions_collects_all (L : Layout.t) (core_num : Z)
        (w w' : AicpuKernel.World) (k : Z) :
  Int32.in_range (AicpuKernel.tasks_completed (AicpuKernel.graph w)) ->
  AicpuKernel.check_completions L core_num w = Some (w', k) ->
  k = Z.of_nat (length (List.filter (AicpuKernel.collectable_at (AicpuKernel.hank w))
                                    (Loop.upto core_num))) /\
  AicpuKernel.tasks_completed (AicpuKernel.graph w')
    = Int32.wrap (AicpuKernel.tasks_completed (AicpuKernel.graph w) + k) /\
  AicpuKernel.num_tasks (AicpuKernel.graph w')
    = AicpuKernel.num_tasks (AicpuKernel.graph w) /\
  (forall c h, Cell.get (AicpuKernel.hank w) c = Some h ->
     Cell.get (AicpuKernel.hank w') c
     = Some (if (0 <=? c) && (c <? core_num) && AicpuKernel.collectable h
             then Cell.set_task 0 h else h)) /\
  (forall c h, 0 <= c < core_num ->
     Cell.get (AicpuKernel.hank w') c = Some h -> ~ Cell.completed h).
Proof.
  intros Hrange H. unfold AicpuKernel.check_completions in H.
  apply (complete_cores_spec _ _ _ _ _ _ (NoDup_upto core_num) Hrange) in H
    as (Hk & _ & Hcomp & Hnum & Hcells).
  split; [lia|]. split; [by rewrite Hcomp, Z.sub_0_r|]. split; [done|]. split.
  - intros c h Hh. rewrite Hcells, Hh. cbn.
    destruct (decide (c ∈ Loop.upto core_num)) as [Hin|Hout].
    + apply upto_elem in Hin.
      replace ((0 <=? c) && (c <? core_num)) with true by lia. done.
    + rewrite upto_elem in Hout.
      replace ((0 <=? c) && (c <? core_num)) with false by lia. done.
  - intros c h Hc Hh. rewrite Hcells, decide_True in Hh by (by apply upto_elem).
    destruct (Cell.get (AicpuKernel.hank w) c) as [h0|]; [|discriminate].
    inversion Hh; subst h. unfold AicpuKernel.collect_cell.
    destruct (AicpuKernel.collectable h0) eqn:Hcol.
    + intros [_ Ht]. by apply Ht.
    + rewrite completed_collectable. by rewrite Hcol.
Qed.

Lemma check_completions_collects_all_witness :
  exists w',
    AicpuKernel.check_completions Scenario.L 1 Scenario.stale_world = Some (w', 1) /\
    AicpuKernel.tasks_completed (AicpuKernel.graph w') = 1 /\
    Cell.get (AicpuKernel.hank w') 0 = Some (Cell.mkHandshake 1 1 0 0 0 0).
Proof.
  eexists. split; [reflexivity|].
  destruct (check_completions_collects_all Scenario.L 1 Scenario.stale_world _ 1
              ltac:(vm_compute; split; discriminate) eq_refl)
    as (_ & Hc & _ & Hcell & _).
  split; [exact Hc|].
  exact (Hcell 0 _ eq_refl).
Defined.

Lemma filter_mem_length (l cs : list Z) :
  NoDup l -> NoDup cs -> (forall x, x ∈ l -> x ∈ cs) ->
  length (List.filter (fun c => bool_decide (c ∈ l)) cs) = length l.
Proof.
  intros Hl Hcs Hsub. apply Permutation_length, NoDup_Permutation; [|done|].
  - apply NoDup_ListNoDup, List.NoDup_filter. by apply NoDup_ListNoDup.
  - intros x. rewrite list_elem_of_In, filter_In, <- list_elem_of_In.
    rewrite bool_decide_eq_true. split; [tauto|]. intros Hx. split; [|done].
    by apply Hsub.
Qed.

Section PtoTurn.
Import Cell Loop AicpuKernel.

Lemma fold_update_get (F : Z -> Handshake -> Handshake) cs : forall hk c,
  NoDup cs ->
  Cell.get (fold_left (fun hk c => update c (F c) hk) cs hk) c =
  if decide (c ∈ cs) then F c <$> Cell.get hk c else Cell.get hk c.
Proof.
  induction cs as [|c0 cs IH]; intros hk c Hnd; cbn [fold_left].
  - rewrite decide_False; [done|]. apply not_elem_of_nil.
  - apply NoDup_cons in Hnd as [Hc0 Hnd]. rewrite (IH _ _ Hnd), get_update.
    destruct (decide (c = c0)) as [->|Hne].
    + rewrite decide_False by done. by rewrite decide_True by (apply elem_of_cons; by left).
    + destruct (decide (c ∈ cs)) as [Hin|Hout].
      * by rewrite decide_True by (apply elem_of_cons; by right).
      * rewrite decide_False; [done|]. by apply not_elem_of_cons.
Qed.

Lemma workers_turn_spec core_num w :
  graph (workers_turn core_num w) = graph w /\
  log (workers_turn core_num w) = log w /\
  forall c, Cell.get (hank (workers_turn core_num w)) c =
            if decide (0 <= c < core_num)
            then (fun h => fst (AiCore.poll h)) <$> Cell.get (hank w) c
            else Cell.get (hank w) c.
Proof.
  unfold workers_turn.
  assert (Hfold : forall cs w0,
    fold_left (fun w c => worker_turn c w) cs w0 =
    mkWorld (graph w0)
            (fold_left (fun hk c => update c (fun h => fst (AiCore.poll h)) hk)
                       cs (hank w0))
            (log w0)).
  { induction cs as [|c cs IH]; intros w0; cbn [fold_left].
    - by destruct w0.
    - by rewrite IH. }
  rewrite Hfold. cbn [graph log hank]. split; [done|]. split; [done|].
  intros c. rewrite (fold_update_get (fun _ h => fst (AiCore.poll h)))
    by apply NoDup_upto.
  destruct (decide (c ∈ upto core_num)) as [Hin|Hout].
  - apply upto_elem in Hin. by rewrite decide_True.
  - rewrite upto_elem in Hout. by rewrite decide_False.
Qed.

End PtoTurn.

Lemma poll_idle h :
  Cell.idle h -> Cell.control h <> 1 -> fst (AiCore.poll h) = h.
Proof.
  intros [_ Ht] Hc. unfold AiCore.poll.
  destruct (Z.eqb_spec (Cell.control h) 1) as [|_]; [done|].
  rewrite Ht. done.
Qed.

Lemma poll_published h :
  Cell.control h <> 1 -> Cell.task h <> 0 ->
  fst (AiCore.poll h) = Cell.set_task_status 0 h.
Proof.
  intros Hc Ht. unfold AiCore.poll.
  destruct (Z.eqb_spec (Cell.control h) 1) as [|_]; [done|].
  destruct (Z.eqb_spec (Cell.task h) 0) as [|_]; done.
Qed.

(** X5. A turn of the main loop in which every worker polls once between
    [schedule_tasks] and [check_completions], started with all cells idle
    and no quit signal: [check_completions] collects exactly the tasks
    [schedule_tasks] assigned, the [int32_t] counter [tasks_completed]
    is incremented that many times (wrapping around), and all cells are
    idle again.  If nothing was assigned, no task was ready for any
    core. *)
Theorem synchronous_turn_collects_what_it_assigns
        (L : Layout.t) (core_num aic_num : Z) (w w' : AicpuKernel.World)
        (assigned collected : Z) :
  Layout.wf L ->
  Int32.in_range (AicpuKernel.tasks_completed (AicpuKernel.graph w)) ->
  (forall c h, 0 <= c < core_num -> Cell.get (AicpuKernel.hank w) c = Some h ->
     Cell.idle h /\ Cell.control h <> 1) ->
  AicpuKernel.synchronous_turn L core_num aic_num w = Some (w', assigned, collected) ->
  collected = assigned /\
  AicpuKernel.tasks_completed (AicpuKernel.graph w')
    = Int32.wrap (AicpuKernel.tasks_completed (AicpuKernel.graph w) + assigned) /\
  (forall c h, 0 <= c < core_num -> Cell.get (AicpuKernel.hank w') c = Some h ->
     Cell.idle h /\ Cell.control h <> 1) /\
  (assigned = 0 ->
   forall c j, 0 <= c < core_num ->
     0 <= j < AicpuKernel.num_tasks (AicpuKernel.graph w) ->
     ~ AicpuKernel.ready_for (AicpuKernel.tasks (AicpuKernel.graph w))
                             (AicpuKernel.core_kind aic_num c) j).
Proof.
  intros HL Hrange Hidle H. unfold AicpuKernel.synchronous_turn in H.
  destruct (AicpuKernel.schedule_tasks L core_num aic_num w) as [[w1 a1]|] eqn:Hs;
    [|discriminate].
  destruct (AicpuKernel.check_completions L core_num _) as [[w2 d1]|] eqn:Hc;
    [|discriminate].
  inversion H; subst w2 a1 d1; clear H.
  pose proof Hs as Hsat.
  unfold AicpuKernel.schedule_tasks in Hs.
  apply (schedule_cores_spec L aic_num _ _ _ _ _ (NoDup_upto core_num)) in Hs
    as (ids & _ & Hk & Hnf & _ & Hids & Hrest & Hcells1 & Hnum1 & Hcomp1).
  destruct (workers_turn_spec core_num w1) as (Hg2 & _ & Hcells2).
  unfold AicpuKernel.check_completions in Hc.
  apply (complete_cores_spec _ _ _ _ _ _ (NoDup_upto core_num)) in Hc
    as (Hd & _ & Hcomp3 & _ & Hcells3); [|by rewrite Hg2, Hcomp1].
  assert (Hcell : forall c, 0 <= c < core_num ->
            match Cell.get (AicpuKernel.hank (AicpuKernel.workers_turn core_num w1)) c with
            | Some h2 =>
                Cell.control h2 <> 1 /\
                if bool_decide (c ∈ map fst ids)
                then Cell.task h2 <> 0 /\ Cell.task_status h2 = 0
                else Cell.idle h2
            | None => c ∉ map fst ids
            end).
  { intros c Hc. rewrite Hcells2, decide_True by done.
    destruct (decide (c ∈ map fst ids)) as [Hin|Hout].
    - rewrite bool_decide_eq_true_2 by done.
      apply (list_elem_of_fmap fst) in Hin as ([c' i] & -> & Hin).
      destruct (Hids _ _ Hin) as (_ & Hi & _ & h & _ & _ & _ & _ & Hh & _ & Hh1).
      cbn [fst] in *. rewrite Hh1. cbn [fmap option_fmap option_map].
      destruct (Hidle _ _ Hc Hh) as [_ Hctl].
      rewrite poll_published; cbn; [|done|apply addr_nonzero; [done|lia]].
      split; [done|]. split; [|done]. apply addr_nonzero; [done|lia].
    - rewrite bool_decide_eq_false_2 by done. rewrite (Hcells1 _ Hout).
      destruct (Cell.get (AicpuKernel.hank w) c) as [h|] eqn:Hh; [|done].
      destruct (Hidle _ _ Hc Hh) as [Hi Hctl]. cbn [fmap option_fmap option_map].
      by rewrite poll_idle. }
  assert (Hfilter :
            List.filter (AicpuKernel.collectable_at
                           (AicpuKernel.hank (AicpuKernel.workers_turn core_num w1)))
                        (Loop.upto core_num)
            = List.filter (fun c => bool_decide (c ∈ map fst ids)) (Loop.upto core_num)).
  { apply filter_ext_elem. intros c Hc. apply upto_elem in Hc.
    specialize (Hcell c Hc). unfold AicpuKernel.collectable_at.
    destruct (Cell.get _ c) as [h2|].
    - destruct Hcell as [_ Hcell]. unfold AicpuKernel.collectable.
      destruct (bool_decide (c ∈ map fst ids)).
      + destruct Hcell as [Ht Hst]. rewrite Hst.
        by destruct (Z.eqb_spec (Cell.task h2) 0).
      + destruct Hcell as [_ Ht]. by rewrite Ht.
    - by rewrite bool_decide_eq_false_2. }
  assert (Hlen : Z.of_nat (length (List.filter (fun c => bool_decide (c ∈ map fst ids))
                                               (Loop.upto core_num)))
                 = Z.of_nat (length ids)).
  { rewrite filter_mem_length; [by rewrite length_map|done|apply NoDup_upto|].
    intros c Hin. apply (list_elem_of_fmap fst) in Hin as ([c' i] & -> & Hin).
    by destruct (Hids _ _ Hin). }
  rewrite Hfilter, Hlen in Hd. rewrite Hg2 in Hcomp3.
  split; [lia|]. split; [rewrite Hcomp3, Hcomp1; f_equal; lia|]. split.
  - intros c h Hc Hh. rewrite Hcells3, decide_True in Hh by (by apply upto_elem).
    specialize (Hcell c Hc).
    destruct (Cell.get _ c) as [h2|]; [|discriminate].
    destruct Hcell as [Hctl Hcell]. inversion Hh; subst h; clear Hh.
    unfold AicpuKernel.collect_cell, AicpuKernel.collectable.
    destruct (bool_decide (c ∈ map fst ids)).
    + destruct Hcell as [Ht Hst]. rewrite Hst.
      destruct (Z.eqb_spec (Cell.task h2) 0) as [|_]; [done|].
      cbn. done.
    + destruct Hcell as [Hst Ht]. rewrite Ht. cbn. done.
  - intros Hzero c j Hc Hj.
    assert (ids = []) as -> by (destruct ids; [done|cbn in Hk; lia]).
    destruct (schedule_cores_saturate L aic_num _ _ _ _ _ HL (NoDup_upto core_num)
                Hsat c) as (h & Hh & [Hb|Hno]); [by apply upto_elem| |].
    + rewrite Hcells1 in Hh by apply not_elem_of_nil.
      destruct (Hidle _ _ Hc Hh) as [[_ Ht] _]. by destruct Hb.
    + intros Hr. apply (Hno j); [lia|].
      destruct Hr as (t & Ht & Hr). exists t. split; [|done].
      by rewrite Hrest by apply not_elem_of_nil.
Qed.

Lemma synchronous_turn_collects_what_it_assigns_witness :
  exists w',
    AicpuKernel.synchronous_turn Scenario.L 1 1 Scenario.ready_world = Some (w', 1, 1) /\
    AicpuKernel.tasks_completed (AicpuKernel.graph w') = 1.
Proof.
  edestruct (synchronous_turn_collects_what_it_assigns
               Scenario.L 1 1 Scenario.ready_world) as (_ & Hc & _).
  - split; reflexivity.
  - vm_compute. split; discriminate.
  - intros c h Hc Hh. assert (c = 0) as -> by lia.
    vm_compute in Hh. inversion Hh; subst h.
    split; [split; reflexivity|discriminate].
  - reflexivity.
  - eexists. split; [reflexivity|]. exact Hc.
Defined.

Section Pokes.
Import Cell Loop.

Lemma poke_update f i hk hk' :
  poke f i hk = Some hk' -> hk' = update i f hk /\ length hk' = length hk.
Proof.
  unfold poke, Cell.get, update. intros H.
  destruct (0 <=? i); [|discriminate].
  destruct (hk !! Z.to_nat i); [|discriminate].
  inversion H; subst. by rewrite length_insert.
Qed.

Lemma poke_all_spec f cs : forall hk hk',
  NoDup cs -> foreach (poke f) cs hk = Some hk' ->
  forall c, Cell.get hk' c =
            if decide (c ∈ cs) then f <$> Cell.get hk c else Cell.get hk c.
Proof.
  induction cs as [|c0 cs IH]; intros hk hk' Hnd H c; cbn [foreach] in H.
  - inversion H; subst. rewrite decide_False; [done|]. apply not_elem_of_nil.
  - destruct (poke f c0 hk) as [hk1|] eqn:Hp; [|discriminate].
    apply NoDup_cons in Hnd as [Hc0 Hnd].
    apply poke_update in Hp as [-> _].
    rewrite (IH _ _ Hnd H), get_update.
    destruct (decide (c = c0)) as [->|Hne].
    + rewrite decide_False by done. by rewrite decide_True by (apply elem_of_cons; by left).
    + destruct (decide (c ∈ cs)) as [Hin|Hout].
      * by rewrite decide_True by (apply elem_of_cons; by right).
      * rewrite decide_False; [done|]. by apply not_elem_of_cons.
Qed.

Lemma poke_all_total f cs : forall hk,
  Forall (fun c => 0 <= c < Z.of_nat (length hk)) cs ->
  exists hk', foreach (poke f) cs hk = Some hk'.
Proof.
  induction cs as [|c0 cs IH]; intros hk Hcs; cbn [foreach]; [by eexists|].
  apply Forall_cons in Hcs as [Hc0 Hcs].
  destruct (poke f c0 hk) as [hk1|] eqn:Hp.
  - apply poke_update in Hp as [_ Hlen]. apply IH. by rewrite Hlen.
  - exfalso. unfold poke, Cell.get in Hp.
    destruct (Z.leb_spec 0 c0) as [_|Hneg]; [|lia].
    destruct (lookup_lt_is_Some_2 hk (Z.to_nat c0)) as [h Hh]; [lia|].
    by rewrite Hh in Hp.
Qed.

Lemma poke_range f core_num hk :
  core_num <= Z.of_nat (length hk) ->
  exists hk', foreach (poke f) (upto core_num) hk = Some hk' /\
    forall c h, Cell.get hk c = Some h ->
      Cell.get hk' c = Some (if (0 <=? c) && (c <? core_num) then f h else h).
Proof.
  intros Hn. destruct (poke_all_total f (upto core_num) hk) as [hk' H].
  { apply Forall_forall. intros c Hc. apply upto_elem in Hc. lia. }
  exists hk'. split; [done|]. intros c h Hh.
  rewrite (poke_all_spec _ _ _ _ (NoDup_upto core_num) H), Hh.
  destruct (decide (c ∈ upto core_num)) as [Hin|Hout].
  - apply upto_elem in Hin.
    replace ((0 <=? c) && (c <? core_num)) with true by lia. done.
  - rewrite upto_elem in Hout.
    replace ((0 <=? c) && (c <? core_num)) with false by lia. done.
Qed.

End Pokes.

(** X6. The bring-up handshake closes.  Phase 1 of [handshake_aicore]
    sets [aicpu_ready] on every cell in range and touches nothing else;
    each worker then acknowledges with its index plus one, which is not
    zero, so that phase 2 finds every core acknowledged.  A worker whose
    cell still has [aicpu_ready == 0] does not acknowledge. *)
Theorem handshake_completes (core_num : Z) (cells : list Cell.Handshake) :
  core_num <= Z.of_nat (length cells) ->
  exists cells1,
    AicpuKernel.signal_ready core_num cells = Some cells1 /\
    (forall c h, Cell.get cells c = Some h ->
       Cell.get cells1 c
       = Some (if (0 <=? c) && (c <? core_num) then Cell.set_aicpu_ready 1 h else h)) /\
    (forall c h, 0 <= c < core_num -> Cell.get cells c = Some h ->
       Cell.get (AicpuKernel.workers_acknowledge core_num cells1) c
       = Some (Cell.set_aicore_done (c + 1) (Cell.set_aicpu_ready 1 h))) /\
    AicpuKernel.acknowledged core_num
      (AicpuKernel.workers_acknowledge core_num cells1) = true /\
    (forall c h, 0 <= c < core_num -> Cell.get cells c = Some h ->
       Cell.aicpu_ready h = 0 ->
       Cell.get (AicpuKernel.workers_acknowledge core_num cells) c = Some h).
Proof.
  intros Hn.
  destruct (poke_range (Cell.set_aicpu_ready 1) core_num cells Hn) as (cells1 & H1 & Hcells1).
  exists cells1. split; [done|]. split; [done|].
  assert (Hack : forall c h, 0 <= c < core_num -> Cell.get cells c = Some h ->
            Cell.get (AicpuKernel.workers_acknowledge core_num cells1) c
            = Some (Cell.set_aicore_done (c + 1) (Cell.set_aicpu_ready 1 h))).
  { intros c h Hc Hh. unfold AicpuKernel.workers_acknowledge.
    rewrite (fold_update_get AiCore.acknowledge) by apply NoDup_upto.
    rewrite decide_True by (by apply upto_elem).
    rewrite (Hcells1 _ _ Hh).
    replace ((0 <=? c) && (c <? core_num)) with true by lia. done. }
  split; [done|]. split.
  - unfold AicpuKernel.acknowledged. apply forallb_forall. intros c Hc.
    apply list_elem_of_In, upto_elem in Hc.
    destruct (lookup_lt_is_Some_2 cells (Z.to_nat c)) as [h Hh]; [lia|].
    assert (Hget : Cell.get cells c = Some h).
    { unfold Cell.get. by destruct (Z.leb_spec 0 c); [|lia]. }
    rewrite (Hack _ _ Hc Hget). cbn. apply negb_true_iff, Z.eqb_neq. lia.
  - intros c h Hc Hh Hr. unfold AicpuKernel.workers_acknowledge.
    rewrite (fold_update_get AiCore.acknowledge) by apply NoDup_upto.
    rewrite decide_True by (by apply upto_elem). rewrite Hh. cbn.
    unfold AiCore.acknowledge, AiCore.bring_up. by rewrite Hr.
Qed.

Lemma handshake_completes_witness :
  AicpuKernel.acknowledged 2
    (AicpuKernel.workers_acknowledge 2 [Cell.mkHandshake 1 0 0 0 0 0;
                                        Cell.mkHandshake 1 0 0 0 0 1]) = true.
Proof.
  destruct (handshake_completes 2 [Cell.reset 0; Cell.reset 1]) as (cells1 & H1 & _ & _ & Hack & _).
  - cbn. lia.
  - vm_compute in H1. inversion H1; subst cells1. exact Hack.
Defined.

(** X7. [shutdown_aicore] sets the quit signal on every cell in range and
    changes nothing else; the next iteration of each of these workers
    leaves the loop without running anything, whatever task its cell
    holds. *)
Theorem shutdown_stops_every_worker (core_num : Z) (cells : list Cell.Handshake) :
  core_num <= Z.of_nat (length cells) ->
  exists cells',
    AicpuKernel.shutdown_aicore core_num cells = Some cells' /\
    (forall c h, Cell.get cells c = Some h ->
       Cell.get cells' c
       = Some (if (0 <=? c) && (c <? core_num) then Cell.set_control 1 h else h)) /\
    (forall c h', 0 <= c < core_num -> Cell.get cells' c = Some h' ->
       AiCore.poll h' = (h', AiCore.Quit)).
Proof.
  intros Hn.
  destruct (poke_range (Cell.set_control 1) core_num cells Hn) as (cells' & H1 & Hcells).
  exists cells'. split; [done|]. split; [done|].
  intros c h' Hc Hh'.
  destruct (lookup_lt_is_Some_2 cells (Z.to_nat c)) as [h Hh]; [lia|].
  assert (Hget : Cell.get cells c = Some h).
  { unfold Cell.get. by destruct (Z.leb_spec 0 c); [|lia]. }
  rewrite (Hcells _ _ Hget) in Hh'.
  replace ((0 <=? c) && (c <? core_num)) with true in Hh' by lia.
  inversion Hh'; subst h'. done.
Qed.

Lemma shutdown_stops_every_worker_witness :
  exists cells',
    AicpuKernel.shutdown_aicore 1 [Scenario.leftover] = Some cells' /\
    forall h', Cell.get cells' 0 = Some h' -> AiCore.poll h' = (h', AiCore.Quit).
Proof.
  destruct (shutdown_stops_every_worker 1 [Scenario.leftover])
    as (cells' & H & _ & Hq).
  - cbn. lia.
  - exists cells'. split; [exact H|]. intros h'. apply Hq. lia.
Defined.

(* ===================================================================== *)
(** * The start of a run: the graph and the workers' cells *)
(* ===================================================================== *)

Section PtoInit.
Import Cell Loop AicpuKernel.

Lemma update_tasks_spec (f : PTOTask -> PTOTask) cs : forall gr gr',
  NoDup cs ->
  foreach (fun i g => update_task i f g) cs gr = Some gr' ->
  (forall u, read (tasks gr') u =
             if decide (u ∈ cs) then f <$> read (tasks gr) u else read (tasks gr) u) /\
  num_tasks gr' = num_tasks gr /\ tasks_completed gr' = tasks_completed gr.
Proof.
  induction cs as [|i cs IH]; intros gr gr' Hnd H; cbn [foreach] in H.
  - inversion H; subst. split; [|done]. intros u.
    rewrite decide_False; [done|]. apply not_elem_of_nil.
  - destruct (update_task i f gr) as [g1|] eqn:Hu; [|discriminate].
    apply NoDup_cons in Hnd as [Hi Hnd].
    destruct (IH _ _ Hnd H) as (Hread & Hn & Hc).
    pose proof (fun u => read_update_task i _ _ _ u Hu) as Hread1.
    destruct (Hread1 0) as (_ & Hn1 & Hc1).
    split; [|lia]. intros u. rewrite Hread. destruct (Hread1 u) as (-> & _).
    destruct (decide (u = i)) as [->|Hne].
    + rewrite decide_False by done. by rewrite decide_True by (apply elem_of_cons; by left).
    + destruct (decide (u ∈ cs)) as [Hin|Hout].
      * by rewrite decide_True by (apply elem_of_cons; by right).
      * rewrite decide_False; [done|]. by apply not_elem_of_cons.
Qed.

Lemma update_tasks_total (f : PTOTask -> PTOTask) cs : forall gr,
  Forall (fun c => 0 <= c < Z.of_nat (length (tasks gr))) cs ->
  exists gr', foreach (fun i g => update_task i f g) cs gr = Some gr'.
Proof.
  induction cs as [|i cs IH]; intros gr Hcs; cbn [foreach]; [by eexists|].
  apply Forall_cons in Hcs as [Hi Hcs].
  destruct (read_in_range (tasks gr) i Hi) as [t Ht].
  unfold update_task at 1. rewrite Ht. apply IH. cbn. by rewrite length_insert.
Qed.

End PtoInit.

(** X8. The initialisation loop of [execute_graph] marks exactly the
    tasks without dependencies READY: a task among the first [num_tasks]
    whose [dep_count] is 0 gets status READY, every other task keeps the
    status it came with, and no other field and neither counter of the
    graph changes. *)
Theorem execute_graph_init_marks_roots (g : AicpuKernel.PTOTaskGraph) :
  AicpuKernel.num_tasks g <= Z.of_nat (length (AicpuKernel.tasks g)) ->
  exists g',
    AicpuKernel.execute_graph_init g = Some g' /\
    AicpuKernel.num_tasks g' = AicpuKernel.num_tasks g /\
    AicpuKernel.tasks_completed g' = AicpuKernel.tasks_completed g /\
    forall i t, Loop.read (AicpuKernel.tasks g) i = Some t ->
      Loop.read (AicpuKernel.tasks g') i
      = Some (if (i <? AicpuKernel.num_tasks g) && (AicpuKernel.dep_count t =? 0)
              then AicpuKernel.set_status AicpuKernel.PTO_TASK_READY t else t).
Proof.
  intros Hn. unfold AicpuKernel.execute_graph_init, AicpuKernel.mark_initial.
  destruct (update_tasks_total
              (fun t => if AicpuKernel.dep_count t =? 0
                        then AicpuKernel.set_status AicpuKernel.PTO_TASK_READY t else t)
              (Loop.upto (AicpuKernel.num_tasks g)) g) as [g' H].
  { apply Forall_forall. intros c Hc. apply upto_elem in Hc. lia. }
  exists g'. split; [done|].
  apply update_tasks_spec in H as (Hread & Hnum & Hcomp); [|apply NoDup_upto].
  split; [done|]. split; [done|]. intros i t Ht. rewrite Hread, Ht. cbn.
  apply read_Some in Ht as [Hi _].
  destruct (decide (i ∈ Loop.upto (AicpuKernel.num_tasks g))) as [Hin|Hout].
  - apply upto_elem in Hin.
    replace (i <? AicpuKernel.num_tasks g) with true by lia. done.
  - rewrite upto_elem in Hout.
    replace (i <? AicpuKernel.num_tasks g) with false by lia. done.
Qed.

Lemma execute_graph_init_marks_roots_witness :
  exists g',
    AicpuKernel.execute_graph_init Scenario.running_dependent = Some g' /\
    (AicpuKernel.status <$> Loop.read (AicpuKernel.tasks g') 0)
      = Some AicpuKernel.PTO_TASK_READY /\
    (AicpuKernel.status <$> Loop.read (AicpuKernel.tasks g') 1)
      = Some AicpuKernel.PTO_TASK_RUNNING.
Proof.
  destruct (execute_graph_init_marks_roots Scenario.running_dependent)
    as (g' & H & _ & _ & Hread).
  - cbn. lia.
  - exists g'. split; [exact H|]. split.
    + by rewrite (Hread 0 _ eq_refl).
    + by rewrite (Hread 1 _ eq_refl).
Defined.

(** X10. The cell a worker polls, by its kind.  With [block_num] blocks
    of one Cube and [subblockdim] Vector workers each, the Cube worker of
    block [b] polls cell [b], which [schedule_tasks] treats as a Cube
    core; the Vector workers poll the cells
    [block_num .. block_num + block_num * subblockdim), each cell exactly
    one worker, and [schedule_tasks] treats them as Vector cores.  With
    two Vector workers per block the three cells of block [b] are the
    triple the bring-up manager gives thread [b]. *)
Theorem worker_cells_by_kind (block_num subblockdim : Z) :
  0 < subblockdim ->
  0 <= block_num ->
  block_num + block_num * subblockdim <= Int32.max_int ->
  (forall b, 0 <= b < block_num ->
     AiCore.aic_block_idx b = b /\
     AicpuKernel.core_kind block_num (AiCore.aic_block_idx b) = 0) /\
  (forall b s, 0 <= b < block_num -> 0 <= s < subblockdim ->
     AiCore.aiv_block_idx b subblockdim s block_num = block_num + b * subblockdim + s /\
     block_num <= AiCore.aiv_block_idx b subblockdim s block_num
       < block_num + block_num * subblockdim /\
     AicpuKernel.core_kind block_num
       (AiCore.aiv_block_idx b subblockdim s block_num) = 1) /\
  (forall b s b' s',
     0 <= b < block_num -> 0 <= s < subblockdim ->
     0 <= b' < block_num -> 0 <= s' < subblockdim ->
     AiCore.aiv_block_idx b subblockdim s block_num
       = AiCore.aiv_block_idx b' subblockdim s' block_num ->
     b = b' /\ s = s') /\
  (forall c, block_num <= c < block_num + block_num * subblockdim ->
     exists b s, 0 <= b < block_num /\ 0 <= s < subblockdim /\
       AiCore.aiv_block_idx b subblockdim s block_num = c) /\
  (subblockdim = 2 ->
   forall b, 0 <= b < block_num ->
     [AiCore.aic_block_idx b;
      AiCore.aiv_block_idx b subblockdim 0 block_num;
      AiCore.aiv_block_idx b subblockdim 1 block_num]
     = Platform.owned block_num b).
Proof.
  intros Hd Hn Hmax.
  assert (Haic : forall b, 0 <= b < block_num -> AiCore.aic_block_idx b = b).
  { intros b Hb. unfold AiCore.aic_block_idx. apply wrap_small.
    unfold Int32.in_range, Int32.min_int, Int32.max_int in *. nia. }
  assert (Haiv : forall b s, 0 <= b < block_num -> 0 <= s < subblockdim ->
            AiCore.aiv_block_idx b subblockdim s block_num
            = block_num + b * subblockdim + s /\
            block_num <= block_num + b * subblockdim + s
              < block_num + block_num * subblockdim).
  { intros b s Hb Hs.
    assert (block_num <= block_num + b * subblockdim + s
            < block_num + block_num * subblockdim) by nia.
    split; [|done]. unfold AiCore.aiv_block_idx.
    rewrite wrap_small; [lia|].
    unfold Int32.in_range, Int32.min_int, Int32.max_int in *. lia. }
  split.
  { intros b Hb. rewrite (Haic b Hb). split; [done|].
    unfold AicpuKernel.core_kind. destruct (Z.ltb_spec b block_num); [done|lia]. }
  split.
  { intros b s Hb Hs. destruct (Haiv b s Hb Hs) as [-> Hr].
    split; [done|]. split; [done|].
    unfold AicpuKernel.core_kind.
    destruct (Z.ltb_spec (block_num + b * subblockdim + s) block_num); [lia|done]. }
  split.
  { intros b s b' s' Hb Hs Hb' Hs' Heq.
    destruct (Haiv b s Hb Hs) as [E _]. destruct (Haiv b' s' Hb' Hs') as [E' _].
    rewrite E, E' in Heq.
    assert (b = b') by nia. subst b'. split; [done|]. lia. }
  split.
  { intros c Hc. exists ((c - block_num) / subblockdim), ((c - block_num) mod subblockdim).
    pose proof (Z.div_mod (c - block_num) subblockdim ltac:(lia)) as Hdm.
    pose proof (Z.mod_pos_bound (c - block_num) subblockdim Hd) as Hm.
    assert (Hq : 0 <= (c - block_num) / subblockdim < block_num).
    { split; [apply Z.div_pos; lia|]. apply Z.div_lt_upper_bound; [done|]. nia. }
    split; [done|]. split; [done|].
    destruct (Haiv _ _ Hq Hm) as [-> _]. lia. }
  intros -> b Hb. rewrite (Haic b Hb).
  destruct (Haiv b 0 Hb ltac:(lia)) as [-> _].
  destruct (Haiv b 1 Hb ltac:(lia)) as [-> _].
  unfold Platform.owned. by rewrite Z.add_0_r, (Z.mul_comm b 2).
Qed.

Lemma worker_cells_by_kind_witness :
  [AiCore.aic_block_idx 1; AiCore.aiv_block_idx 1 2 0 24; AiCore.aiv_block_idx 1 2 1 24]
  = Platform.owned 24 1.
Proof.
  destruct (worker_cells_by_kind 24 2) as (_ & _ & _ & _ & H).
  - lia.
  - lia.
  - vm_compute. discriminate.
  - apply H; [reflexivity|lia].
Defined.

(* ===================================================================== *)
(** * Further properties of the multi-thread scheduler *)
(* ===================================================================== *)

Section ExecutorQueues.
Import Cell Loop GraphExecutor.

Lemma push_ready_counts kind v s s1 :
  int_indexed s -> push_ready kind v s = Some s1 ->
  ready_count_aic s1 = ready_count_aic s + (if kind =? 0 then 1 else 0) /\
  ready_count_aiv s1 = ready_count_aiv s + (if kind =? 0 then 0 else 1) /\
  length (ready_queue_aic s1) = length (ready_queue_aic s) /\
  length (ready_queue_aiv s1) = length (ready_queue_aiv s) /\
  total_tasks s1 = total_tasks s /\ init_done s1 = init_done s /\
  finished_count s1 = finished_count s.
Proof.
  intros [Ha Hv] H. unfold push_ready, push_aic, push_aiv in H.
  destruct (kind =? 0).
  - destruct (write (ready_queue_aic s) _ _) as [q|] eqn:Hw; [|discriminate].
    inversion H; subst; clear H. cbn.
    apply write_Some in Hw as [Hr ->]. rewrite length_insert.
    unfold Int32.add. rewrite wrap_small; [split_and!; (done || lia)|].
    unfold Int32.in_range, Int32.min_int, Int32.max_int in *. lia.
  - destruct (write (ready_queue_aiv s) _ _) as [q|] eqn:Hw; [|discriminate].
    inversion H; subst; clear H. cbn.
    apply write_Some in Hw as [Hr ->]. rewrite length_insert.
    unfold Int32.add. rewrite wrap_small; [split_and!; (done || lia)|].
    unfold Int32.in_range, Int32.min_int, Int32.max_int in *. lia.
Qed.

Lemma push_ready_total kind v s :
  0 <= ready_count_aic s -> 0 <= ready_count_aiv s ->
  ready_count_aic s + (if kind =? 0 then 1 else 0)
    <= Z.of_nat (length (ready_queue_aic s)) ->
  ready_count_aiv s + (if kind =? 0 then 0 else 1)
    <= Z.of_nat (length (ready_queue_aiv s)) ->
  exists s1, push_ready kind v s = Some s1.
Proof.
  intros Ha Hv Hca Hcv. unfold push_ready, push_aic, push_aiv.
  destruct (kind =? 0).
  - rewrite write_in_range by lia. by eexists.
  - rewrite write_in_range by lia. by eexists.
Qed.

Variable gr : Graph.

Lemma enqueue_all_spec l : forall s s1,
  int_indexed s ->
  foreach (enqueue_initial gr) l s = Some s1 ->
  queued_aic s1 = queued_aic s ++ List.filter (fun v => kind_of gr v =? 0) l /\
  queued_aiv s1 = queued_aiv s ++ List.filter (fun v => negb (kind_of gr v =? 0)) l /\
  ready_count_aic s1
    = ready_count_aic s
      + Z.of_nat (length (List.filter (fun v => kind_of gr v =? 0) l)) /\
  ready_count_aiv s1
    = ready_count_aiv s
      + Z.of_nat (length (List.filter (fun v => negb (kind_of gr v =? 0)) l)).
Proof.
  induction l as [|v l IH]; intros s s1 Hs H; cbn [foreach] in H.
  - inversion H; subst. cbn. rewrite !app_nil_r. split; [done|]. split; [done|]. lia.
  - destruct (enqueue_initial gr v s) as [s'|] eqn:Hv; [|discriminate].
    unfold enqueue_initial in Hv.
    destruct (get_task gr v) as [t|] eqn:Ht; [|discriminate].
    destruct (push_ready_queued _ _ _ _ Hs Hv) as (Hqa & Hqv & Hs' & _).
    destruct (push_ready_counts _ _ _ _ Hs Hv) as (Hca & Hcv & _).
    destruct (IH _ _ Hs' H) as (Ha & Hb & Hc & Hd).
    assert (Hk : kind_of gr v = core_type t) by (unfold kind_of; by rewrite Ht).
    cbn [List.filter]. rewrite Hk, Ha, Hb, Hc, Hd, Hqa, Hqv, Hca, Hcv.
    destruct (core_type t =? 0); cbn [negb length];
      rewrite <- ?app_assoc; cbn [app]; rewrite ?app_nil_r;
      (split; [done|]); (split; [done|]); lia.
Qed.

Lemma enqueue_all_total l : forall s,
  int_indexed s ->
  0 <= ready_count_aic s -> 0 <= ready_count_aiv s ->
  Forall (fun v => is_Some (get_task gr v)) l ->
  ready_count_aic s + Z.of_nat (length (List.filter (fun v => kind_of gr v =? 0) l))
    <= Z.of_nat (length (ready_queue_aic s)) ->
  ready_count_aiv s
    + Z.of_nat (length (List.filter (fun v => negb (kind_of gr v =? 0)) l))
    <= Z.of_nat (length (ready_queue_aiv s)) ->
  exists s1, foreach (enqueue_initial gr) l s = Some s1.
Proof.
  induction l as [|v l IH]; intros s Hs Ha Hv Hl Hca Hcv; cbn [foreach]; [by eexists|].
  apply Forall_cons in Hl as [[t Ht] Hl].
  assert (Hk : kind_of gr v = core_type t) by (unfold kind_of; by rewrite Ht).
  cbn [List.filter] in Hca, Hcv. rewrite Hk in Hca, Hcv.
  unfold enqueue_initial at 1. rewrite Ht.
  destruct (push_ready_total (core_type t) v s) as [s' Hp]; [done|done| | |].
  { destruct (core_type t =? 0); cbn [negb length] in *; lia. }
  { destruct (core_type t =? 0); cbn [negb length] in *; lia. }
  rewrite Hp.
  destruct (push_ready_queued _ _ _ _ Hs Hp) as (_ & _ & Hs' & _).
  destruct (push_ready_counts _ _ _ _ Hs Hp) as (Hca' & Hcv' & Hla & Hlv & _).
  apply IH; [done| | |done| |].
  - destruct (core_type t =? 0); lia.
  - destruct (core_type t =? 0); lia.
  - rewrite Hca', Hla. destruct (core_type t =? 0); cbn [negb length] in *; lia.
  - rewrite Hcv', Hlv. destruct (core_type t =? 0); cbn [negb length] in *; lia.
Qed.

Lemma initial_ready_known :
  Forall (fun v => is_Some (get_task gr v)) (get_initial_ready_tasks gr).
Proof.
  apply Forall_forall. intros v Hv. unfold get_initial_ready_tasks in Hv.
  apply list_elem_of_In, filter_In in Hv as [_ Hv].
  by destruct (get_task gr v).
Qed.

End ExecutorQueues.

(** X11. Thread 0's initialisation sorts the initially ready tasks by
    core type: the AIC queue holds the Cube ones and the AIV queue all
    the others, each in the order the graph lists them, the two counts
    are the numbers of tasks queued, and the run starts with no task
    completed, [total_tasks] set and [init_done] raised.  The loop stays
    inside the two arrays when they have room for the tasks. *)
Theorem init_sorts_ready_tasks_by_kind (gr : GraphExecutor.Graph)
        (s : GraphExecutor.Shared) :
  let ready := GraphExecutor.get_initial_ready_tasks gr in
  let cube := List.filter (fun v => GraphExecutor.kind_of gr v =? 0) ready in
  let vector := List.filter (fun v => negb (GraphExecutor.kind_of gr v =? 0)) ready in
  GraphExecutor.int_indexed s ->
  (length cube <= length (GraphExecutor.ready_queue_aic s))%nat ->
  (length vector <= length (GraphExecutor.ready_queue_aiv s))%nat ->
  exists s1,
    GraphExecutor.init gr s = Some s1 /\
    GraphExecutor.queued_aic s1 = cube /\
    GraphExecutor.queued_aiv s1 = vector /\
    GraphExecutor.ready_count_aic s1 = Z.of_nat (length cube) /\
    GraphExecutor.ready_count_aiv s1 = Z.of_nat (length vector) /\
    GraphExecutor.completed_tasks s1 = 0 /\
    GraphExecutor.total_tasks s1 = GraphExecutor.num_tasks gr /\
    GraphExecutor.init_done s1 = true /\
    GraphExecutor.finished_count s1 = 0.
Proof.
  intros ready cube vector Hs Hca Hcv. unfold GraphExecutor.init.
  set (s0 := GraphExecutor.mkShared _ 0 _ 0 0 _ _ 0).
  assert (Hs0 : GraphExecutor.int_indexed s0) by done.
  destruct (enqueue_all_total gr ready s0) as [s1 H];
    [done|done|done|apply initial_ready_known| | |].
  { cbn. fold cube. lia. }
  { cbn. fold vector. lia. }
  fold ready. rewrite H.
  destruct (enqueue_all_spec gr _ _ _ Hs0 H) as (Ha & Hv & Hna & Hnv).
  eexists. split; [done|].
  unfold GraphExecutor.queued_aic, GraphExecutor.queued_aiv in *. cbn in *.
  unfold GraphExecutor.queued in Ha at 2. unfold GraphExecutor.queued in Hv at 2.
  cbn in Ha, Hv. split; [done|]. split; [done|].
  split; [subst cube; lia|]. split; [subst vector; lia|]. done.
Qed.

Lemma init_sorts_ready_tasks_by_kind_witness :
  exists s1,
    GraphExecutor.init Scenario.fork Scenario.fresh = Some s1 /\
    GraphExecutor.queued_aic s1 = [0] /\ GraphExecutor.queued_aiv s1 = [].
Proof.
  destruct (init_sorts_ready_tasks_by_kind Scenario.fork Scenario.fresh)
    as (s1 & H & Ha & Hv & _).
  - split; vm_compute; discriminate.
  - vm_compute. lia.
  - vm_compute. lia.
  - exists s1. split; [exact H|]. split; [exact Ha|exact Hv].
Defined.

(** X12. Each ready queue is a stack: a task id pushed on a queue is the
    one the next pop of that queue returns, and after the pop both
    queues hold what they held before the push, with the same counts.
    Popping a queue whose count is not positive returns nothing and
    reads no slot. *)
Theorem ready_queue_is_a_stack (kind id : Z) (s s1 : GraphExecutor.Shared) :
  GraphExecutor.int_indexed s ->
  GraphExecutor.push_ready kind id s = Some s1 ->
  (exists s2,
     (if kind =? 0 then GraphExecutor.pop_aic s1 else GraphExecutor.pop_aiv s1)
       = Some (Some (id, s2)) /\
     GraphExecutor.queued_aic s2 = GraphExecutor.queued_aic s /\
     GraphExecutor.queued_aiv s2 = GraphExecutor.queued_aiv s /\
     GraphExecutor.ready_count_aic s2 = GraphExecutor.ready_count_aic s /\
     GraphExecutor.ready_count_aiv s2 = GraphExecutor.ready_count_aiv s) /\
  (GraphExecutor.ready_count_aic s <= 0 -> GraphExecutor.pop_aic s = Some None) /\
  (GraphExecutor.ready_count_aiv s <= 0 -> GraphExecutor.pop_aiv s = Some None).
Proof.
  intros Hs H. split.
  - destruct (push_ready_counts _ _ _ _ Hs H) as (Hca & Hcv & _).
    destruct Hs as [Ha Hv].
    unfold GraphExecutor.push_ready, GraphExecutor.push_aic, GraphExecutor.push_aiv in H.
    unfold GraphExecutor.pop_aic, GraphExecutor.pop_aiv,
      GraphExecutor.queued_aic, GraphExecutor.queued_aiv, GraphExecutor.queued.
    destruct (kind =? 0).
    + destruct (Loop.write (GraphExecutor.ready_queue_aic s) _ _) as [q|] eqn:Hw;
        [|discriminate].
      pose proof (read_write _ _ _ _ (GraphExecutor.ready_count_aic s) Hw) as Hr.
      rewrite decide_True in Hr by done.
      apply write_Some in Hw as [Hrange ->].
      inversion H; subst s1; clear H. cbn in *.
      assert (Hadd : Int32.add (GraphExecutor.ready_count_aic s) 1
                     = GraphExecutor.ready_count_aic s + 1) by lia.
      rewrite Hadd.
      destruct (Z.ltb_spec 0 (GraphExecutor.ready_count_aic s + 1)); [|lia].
      replace (GraphExecutor.ready_count_aic s + 1 - 1)
        with (GraphExecutor.ready_count_aic s) by lia.
      rewrite Hr. eexists. split; [done|]. cbn.
      assert (Hsub : Int32.sub (GraphExecutor.ready_count_aic s + 1) 1
                     = GraphExecutor.ready_count_aic s).
      { unfold Int32.sub. rewrite wrap_small; [lia|].
        unfold Int32.in_range, Int32.min_int, Int32.max_int in *. lia. }
      rewrite Hsub. rewrite take_insert_ge by lia. done.
    + destruct (Loop.write (GraphExecutor.ready_queue_aiv s) _ _) as [q|] eqn:Hw;
        [|discriminate].
      pose proof (read_write _ _ _ _ (GraphExecutor.ready_count_aiv s) Hw) as Hr.
      rewrite decide_True in Hr by done.
      apply write_Some in Hw as [Hrange ->].
      inversion H; subst s1; clear H. cbn in *.
      assert (Hadd : Int32.add (GraphExecutor.ready_count_aiv s) 1
                     = GraphExecutor.ready_count_aiv s + 1) by lia.
      rewrite Hadd.
      destruct (Z.ltb_spec 0 (GraphExecutor.ready_count_aiv s + 1)); [|lia].
      replace (GraphExecutor.ready_count_aiv s + 1 - 1)
        with (GraphExecutor.ready_count_aiv s) by lia.
      rewrite Hr. eexists. split; [done|]. cbn.
      assert (Hsub : Int32.sub (GraphExecutor.ready_count_aiv s + 1) 1
                     = GraphExecutor.ready_count_aiv s).
      { unfold Int32.sub. rewrite wrap_small; [lia|].
        unfold Int32.in_range, Int32.min_int, Int32.max_int in *. lia. }
      rewrite Hsub. rewrite take_insert_ge by lia. done.
  - split; intros Hc.
    + unfold GraphExecutor.pop_aic.
      by destruct (Z.ltb_spec 0 (GraphExecutor.ready_count_aic s)); [lia|].
    + unfold GraphExecutor.pop_aiv.
      by destruct (Z.ltb_spec 0 (GraphExecutor.ready_count_aiv s)); [lia|].
Qed.

Lemma ready_queue_is_a_stack_witness :
  exists s1 s2,
    GraphExecutor.push_ready 1 7 Scenario.fresh = Some s1 /\
    GraphExecutor.pop_aiv s1 = Some (Some (7, s2)) /\
    GraphExecutor.queued_aiv s2 = [].
Proof.
  edestruct (ready_queue_is_a_stack 1 7 Scenario.fresh) as ((s2 & Hpop & _ & Hq & _) & _).
  - split; vm_compute; discriminate.
  - reflexivity.
  - eexists. exists s2. split; [reflexivity|]. split; [exact Hpop|exact Hq].
Defined.

Section ExecutorAccounts.
Import Cell Loop GraphExecutor.

Variable L : Layout.t.
Hypothesis HL : Layout.wf L.

Lemma collections_app tr1 tr2 :
  collections (tr1 ++ tr2) = collections tr1 + collections tr2.
Proof. unfold collections. rewrite List.filter_app, length_app. lia. Qed.

Lemma publications_app tr1 tr2 :
  publications (tr1 ++ tr2) = publications tr1 + publications tr2.
Proof. unfold publications. rewrite List.filter_app, length_app. lia. Qed.

Lemma resolve_successor_totals v gs gs' :
  resolve_successor v gs = Some gs' ->
  completed_tasks (snd gs') = completed_tasks (snd gs) /\
  total_tasks (snd gs') = total_tasks (snd gs).
Proof.
  destruct gs as [g0 s0]. unfold resolve_successor. intros H.
  destruct (get_task g0 v) as [t|]; [|discriminate].
  destruct (fanin t =? 1); [|by inversion H].
  destruct (push_ready _ _ _) as [s1|] eqn:Hp; [|discriminate].
  inversion H; subst; clear H. cbn.
  unfold push_ready, push_aic, push_aiv in Hp.
  destruct (core_type t =? 0).
  - destruct (write _ _ _); [|discriminate]. by inversion Hp.
  - destruct (write _ _ _); [|discriminate]. by inversion Hp.
Qed.

Lemma collect_core_accounted w0 l0 c wl wl' :
  accounted w0 l0 wl -> collect_core L c wl = Some wl' -> accounted w0 l0 wl'.
Proof.
  destruct wl as [w l]. intros (tr & Hlog & Hc & Hf & Ht & Hct & Htt) H.
  unfold collect_core in H.
  destruct (Cell.get (hank w) c) as [h|]; [|discriminate].
  destruct ((task_status h =? 0) && negb (task h =? 0)); [|inversion H; by exists tr].
  destruct (Layout.index L (task h)) as [i|]; [|discriminate].
  destruct (get_task (g w) i) as [t|]; [|discriminate].
  destruct (foreach resolve_successor (fanout t) (g w, sh w)) as [[g' s']|] eqn:Hr;
    [|discriminate].
  inversion H; subst; clear H.
  assert (Hs' : completed_tasks s' = completed_tasks (sh w) /\
                total_tasks s' = total_tasks (sh w)).
  { apply (foreach_invariant resolve_successor
             (fun gs => completed_tasks (snd gs) = completed_tasks (sh w) /\
                        total_tasks (snd gs) = total_tasks (sh w))
             (fanout t) ) with (s := (g w, sh w)) (s' := (g', s')); [|done|done].
    intros a gs gs' _ [E1 E2] Hs. apply resolve_successor_totals in Hs. lia. }
  destruct Hs' as [Hcs Hts]. cbn in *.
  exists (tr ++ [StTask c 0]). cbn. rewrite collections_app, publications_app.
  change (collections [StTask c 0]) with 1. change (publications [StTask c 0]) with 0.
  rewrite Hlog, <- app_assoc. split; [done|]. split; [lia|]. split; [lia|].
  split; [done|]. split; [|lia].
  unfold Int32.add. rewrite Hcs, Hct, wrap_add_l. f_equal. lia.
Qed.

Lemma publish_accounted w0 l0 c i s' wl wl' :
  accounted w0 l0 wl ->
  completed_tasks s' = completed_tasks (sh (fst wl)) ->
  total_tasks s' = total_tasks (sh (fst wl)) ->
  publish L c i s' wl = Some wl' -> accounted w0 l0 wl'.
Proof.
  destruct wl as [w l]. intros (tr & Hlog & Hc & Hf & Ht & Hct & Htt) Hcs Hts H.
  unfold publish in H.
  destruct (get_task (g w) i) as [t|] eqn:Hget; [|discriminate].
  inversion H; subst; clear H. cbn in *.
  exists (tr ++ [StTask c (Layout.addr L i); StStatus c 1]). cbn.
  rewrite collections_app, publications_app.
  assert (Hp : Layout.addr L i <> 0).
  { apply addr_nonzero; [done|]. unfold get_task in Hget.
    by apply read_Some in Hget as [[? _] _]. }
  assert (E1 : collections [StTask c (Layout.addr L i); StStatus c 1] = 0).
  { unfold collections. cbn. by destruct (Z.eqb_spec (Layout.addr L i) 0). }
  rewrite E1. change (publications [StTask c (Layout.addr L i); StStatus c 1]) with 1.
  rewrite Hlog, <- !app_assoc. split; [done|]. split; [lia|]. split; [lia|].
  split; [done|]. split; [|lia]. rewrite Hcs, Hct. f_equal. lia.
Qed.

Lemma dispatch_core_accounted w0 l0 c wl wl' :
  accounted w0 l0 wl -> dispatch_core L c wl = Some wl' -> accounted w0 l0 wl'.
Proof.
  intros Hacc H. unfold dispatch_core in H.
  destruct (Cell.get (hank (fst wl)) c) as [h|]; [|discriminate].
  destruct ((task_status h =? 0) && (task h =? 0)); [|by inversion H; subst].
  destruct (Cell.core_type h =? 0).
  - unfold pop_aic in H. destruct (0 <? ready_count_aic (sh (fst wl)));
      [|by inversion H; subst].
    destruct (read _ _) as [id|]; [|discriminate].
    refine (publish_accounted w0 l0 c id _ wl wl' Hacc _ _ H); reflexivity.
  - destruct (Cell.core_type h =? 1); [|by inversion H; subst].
    unfold pop_aiv in H. destruct (0 <? ready_count_aiv (sh (fst wl)));
      [|by inversion H; subst].
    destruct (read _ _) as [id|]; [|discriminate].
    refine (publish_accounted w0 l0 c id _ wl wl' Hacc _ _ H); reflexivity.
Qed.

Lemma pass_accounted cores w l w' l' :
  Int32.in_range (completed_tasks (sh w)) ->
  pass L cores (w, l) = Some (w', l') -> accounted w l (w', l').
Proof.
  intros Hr H. unfold pass in H.
  destruct (collect_phase L cores (w, l)) as [wl1|] eqn:H1; [|discriminate].
  assert (A0 : accounted w l (w, l)).
  { exists []. change (collections []) with 0. change (publications []) with 0.
    cbn [fst snd]. rewrite app_nil_r, !Z.add_0_r, wrap_small by done.
    split_and!; (done || lia). }
  assert (A1 : accounted w l wl1).
  { apply (foreach_invariant (collect_core L) (accounted w l) cores) with (s := (w, l));
      [|done|done].
    intros a s s' _ Hs Hb. by eapply collect_core_accounted. }
  destruct (Z.of_nat (length cores) <=? cur_thread_tasks_in_flight (snd wl1)).
  - by inversion H; subst.
  - apply (foreach_invariant (dispatch_core L) (accounted w l) cores) with (s := wl1);
      [|done|done].
    intros a s s' _ Hs Hb. by eapply dispatch_core_accounted.
Qed.

End ExecutorAccounts.

(** X13. The bookkeeping of one pass of a scheduler thread agrees with
    its stores: [cur_thread_completed] and the shared [completed_tasks]
    grow by the number of cells the pass cleared, and
    [cur_thread_tasks_in_flight] changes by the number of doorbells rung
    minus the number of cells cleared.  [task_count] and [total_tasks]
    are not written. *)
Theorem pass_accounts_for_tasks_in_flight (L : Layout.t) (cores : list Z)
        (w w' : GraphExecutor.World) (l l' : GraphExecutor.Local) :
  Layout.wf L ->
  Int32.in_range (GraphExecutor.completed_tasks (GraphExecutor.sh w)) ->
  GraphExecutor.pass L cores (w, l) = Some (w', l') ->
  exists tr,
    GraphExecutor.log w' = GraphExecutor.log w ++ tr /\
    GraphExecutor.cur_thread_completed l'
      = GraphExecutor.cur_thread_completed l + GraphExecutor.collections tr /\
    GraphExecutor.cur_thread_tasks_in_flight l'
      = GraphExecutor.cur_thread_tasks_in_flight l
        - GraphExecutor.collections tr + GraphExecutor.publications tr /\
    GraphExecutor.task_count l' = GraphExecutor.task_count l /\
    GraphExecutor.completed_tasks (GraphExecutor.sh w')
      = Int32.wrap (GraphExecutor.completed_tasks (GraphExecutor.sh w)
                    + GraphExecutor.collections tr) /\
    GraphExecutor.total_tasks (GraphExecutor.sh w')
      = GraphExecutor.total_tasks (GraphExecutor.sh w).
Proof. intros HL Hr H. exact (pass_accounted L HL cores w l w' l' Hr H). Qed.

Lemma pass_accounts_for_tasks_in_flight_witness :
  exists w' l' tr,
    GraphExecutor.pass Scenario.GL [0]
      (Scenario.fork_world, GraphExecutor.mkLocal 0 1 3) = Some (w', l') /\
    GraphExecutor.log w' = [] ++ tr /\
    GraphExecutor.cur_thread_tasks_in_flight l'
    = 1 - GraphExecutor.collections tr + GraphExecutor.publications tr.
Proof.
  edestruct pass_accounts_for_tasks_in_flight
    with (L := Scenario.GL) (cores := [0]) (w := Scenario.fork_world)
         (l := GraphExecutor.mkLocal 0 1 3) as (tr & Hlog & _ & Hf & _).
  - split; reflexivity.
  - split; vm_compute; discriminate.
  - reflexivity.
  - eexists. eexists. exists tr. split; [reflexivity|]. split; [exact Hlog|exact Hf].
Defined.

Section ExecutorCollect.
Import Cell Loop GraphExecutor.

Variable L : Layout.t.

Lemma completed_test h :
  (task_status h =? 0) && negb (task h =? 0) = true <-> completed h.
Proof.
  unfold completed. rewrite andb_true_iff, negb_true_iff, Z.eqb_eq, Z.eqb_neq. done.
Qed.

Lemma collect_core_cell c wl wl' :
  collect_core L c wl = Some wl' ->
  exists h, Cell.get (hank (fst wl)) c = Some h /\
    ((completed h /\
      forall c', Cell.get (hank (fst wl')) c' =
                 if decide (c' = c) then Some (set_task 0 h)
                 else Cell.get (hank (fst wl)) c') \/
     (~ completed h /\ hank (fst wl') = hank (fst wl))).
Proof.
  destruct wl as [w l]. unfold collect_core. intros H. cbn [fst].
  destruct (Cell.get (hank w) c) as [h|] eqn:Hh; [|discriminate].
  exists h. split; [done|].
  destruct ((task_status h =? 0) && negb (task h =? 0)) eqn:Ht.
  - left. split; [by apply completed_test|].
    destruct (Layout.index L (task h)) as [i|]; [|discriminate].
    destruct (get_task (g w) i) as [t|]; [|discriminate].
    destruct (foreach resolve_successor (fanout t) (g w, sh w)) as [[g' s']|];
      [|discriminate].
    inversion H; subst; clear H. cbn. intros c'.
    rewrite get_update. case_decide; [|done]. by rewrite Hh.
  - right. split.
    + rewrite <- completed_test. by rewrite Ht.
    + by inversion H; subst.
Qed.

Lemma collect_cores_cells cs : forall wl wl',
  foreach (collect_core L) cs wl = Some wl' ->
  (forall c h, Cell.get (hank (fst wl)) c = Some h -> c ∈ cs -> completed h ->
     Cell.get (hank (fst wl')) c = Some (set_task 0 h)) /\
  (forall c h, Cell.get (hank (fst wl)) c = Some h -> c ∉ cs \/ ~ completed h ->
     Cell.get (hank (fst wl')) c = Some h) /\
  (forall c, c ∈ cs ->
     exists h, Cell.get (hank (fst wl')) c = Some h /\ ~ completed h).
Proof.
  induction cs as [|c0 cs IH]; intros wl wl' H; cbn [foreach] in H.
  - inversion H; subst. split; [|split].
    + intros c h _ Hc. by apply elem_of_nil in Hc.
    + done.
    + intros c Hc. by apply elem_of_nil in Hc.
  - destruct (collect_core L c0 wl) as [wl1|] eqn:H0; [|discriminate].
    destruct (IH _ _ H) as (IH1 & IH2 & IH3).
    assert (Hclear : forall h, ~ completed (set_task 0 h)).
    { intros h [_ Ht]. by apply Ht. }
    apply collect_core_cell in H0 as (h0 & Hh0 & Hcase).
    assert (Hstep : forall c h, Cell.get (hank (fst wl)) c = Some h ->
              Cell.get (hank (fst wl1)) c
              = Some (if decide (c = c0 /\ completed h) then set_task 0 h else h)).
    { intros c h Hh. destruct Hcase as [[Hc0 Hcells]|[Hn0 ->]].
      - rewrite Hcells. destruct (decide (c = c0)) as [->|Hne].
        + rewrite Hh0 in Hh. inversion Hh; subst h0. by rewrite decide_True.
        + rewrite decide_False by tauto. done.
      - rewrite Hh. f_equal. destruct (decide (c = c0 /\ completed h)) as [[-> Hc]|]; [|done].
        rewrite Hh0 in Hh. by inversion Hh; subst h0. }
    split; [|split].
    + intros c h Hh Hin Hc. pose proof (Hstep c h Hh) as H1.
      destruct (decide (c = c0 /\ completed h)) as [_|Hno].
      * apply IH2; [done|]. right. apply Hclear.
      * apply IH1; [done| |done].
        apply elem_of_cons in Hin as [->|Hin]; [tauto|done].
    + intros c h Hh Hwhy. pose proof (Hstep c h Hh) as H1.
      destruct (decide (c = c0 /\ completed h)) as [[-> Hc]|Hno].
      * destruct Hwhy as [Hout|Hn]; [|done]. exfalso. apply Hout, elem_of_cons. by left.
      * apply IH2; [done|]. destruct Hwhy as [Hout|Hn]; [|by right].
        left. intros Hin. apply Hout, elem_of_cons. by right.
    + intros c Hin. destruct (decide (c ∈ cs)) as [Hcs|Hcs]; [by apply IH3|].
      apply elem_of_cons in Hin as [->|Hin]; [|done].
      pose proof (Hstep c0 h0 Hh0) as H1.
      destruct (decide (c0 = c0 /\ completed h0)) as [_|Hno].
      * exists (set_task 0 h0). split; [|apply Hclear]. apply IH2; [done|by left].
      * exists h0. split; [apply IH2; [done|by left]|]. tauto.
Qed.

End ExecutorCollect.

(** X14. Phase 1 of a pass leaves no completion behind on the thread's
    own cores: every cell of the thread that held a finished task has its
    task cleared, no other cell is changed, and afterwards none of the
    thread's cells is in the completed state. *)
Theorem collect_phase_clears_completions (L : Layout.t) (cores : list Z)
        (w w' : GraphExecutor.World) (l l' : GraphExecutor.Local) :
  GraphExecutor.collect_phase L cores (w, l) = Some (w', l') ->
  (forall c h, Cell.get (GraphExecutor.hank w) c = Some h ->
     c ∈ cores -> Cell.completed h ->
     Cell.get (GraphExecutor.hank w') c = Some (Cell.set_task 0 h)) /\
  (forall c h, Cell.get (GraphExecutor.hank w) c = Some h ->
     c ∉ cores \/ ~ Cell.completed h ->
     Cell.get (GraphExecutor.hank w') c = Some h) /\
  (forall c, c ∈ cores ->
     exists h, Cell.get (GraphExecutor.hank w') c = Some h /\ ~ Cell.completed h).
Proof.
  intros H. exact (collect_cores_cells L cores (w, l) (w', l') H).
Qed.

Lemma collect_phase_clears_completions_witness :
  exists w' l',
    GraphExecutor.collect_phase Scenario.GL [0]
      (Scenario.fork_world, GraphExecutor.mkLocal 0 1 3) = Some (w', l') /\
    Cell.get (GraphExecutor.hank w') 0 = Some (Cell.set_task 0 Scenario.done_cell).
Proof.
  edestruct collect_phase_clears_completions
    with (L := Scenario.GL) (cores := [0]) (w := Scenario.fork_world)
         (l := GraphExecutor.mkLocal 0 1 3) as (Hc & _).
  - reflexivity.
  - eexists. eexists. split; [reflexivity|].
    apply (Hc 0 Scenario.done_cell).
    + reflexivity.
    + apply elem_of_cons. by left.
    + split; [reflexivity|]. vm_compute. discriminate.
Defined.

(* ===================================================================== *)
(** * Further properties of the bring-up manager *)
(* ===================================================================== *)

Section RunLists.
Import Loop Platform.

Lemma init_body_accepts k m :
  accepted k ->
  snd (init_body k m) = 0 /\
  cores_per_thread_ (fst (init_body k m)) = cores_per_thread k /\
  initialized_ (fst (init_body k m)) = initialized_ m /\
  thread_idx_ (fst (init_body k m)) = thread_idx_ m /\
  finished_ (fst (init_body k m)) = finished_ m.
Proof.
  intros [Ht Hc]. unfold init_body.
  destruct (Z.ltb_spec (effective_threads k) 1); [lia|].
  destruct (Z.ltb_spec MAX_AICPU_THREADS (effective_threads k)); [lia|].
  destruct (Z.ltb_spec MAX_CORES_PER_THREAD (cores_per_thread k)); [lia|].
  done.
Qed.

Lemma fresh_row t :
  0 <= t < MAX_AICPU_THREADS ->
  read (core_assignments_ g_mt_mgr) t
  = Some (replicate (Z.to_nat MAX_CORES_PER_THREAD) 0).
Proof.
  intros Ht. unfold read. destruct (Z.leb_spec 0 t); [|lia].
  cbn [core_assignments_ g_mt_mgr]. apply lookup_replicate_2.
  unfold MAX_AICPU_THREADS in *. lia.
Qed.

Lemma slot_value_owned a t j :
  0 <= a <= Int32.max_int - 2 * MAX_AICPU_THREADS -> 0 <= t < MAX_AICPU_THREADS ->
  0 <= j < 3 ->
  Some (slot_value (Int32.wrap a) t j) = owned a t !! Z.to_nat j.
Proof.
  intros Ha Ht Hj. unfold Int32.max_int, MAX_AICPU_THREADS in *.
  assert (E0 : Int32.wrap a = a)
    by (apply wrap_small; unfold Int32.in_range, Int32.min_int, Int32.max_int; lia).
  assert (E1 : Int32.add a (t * 2) = a + 2 * t).
  { unfold Int32.add. rewrite wrap_small; [lia|].
    unfold Int32.in_range, Int32.min_int, Int32.max_int; lia. }
  assert (E2 : Int32.add (a + 2 * t) 1 = a + 2 * t + 1).
  { unfold Int32.add. rewrite wrap_small; [lia|].
    unfold Int32.in_range, Int32.min_int, Int32.max_int; lia. }
  rewrite E0. unfold owned.
  assert (j = 0 \/ j = 1 \/ j = 2) as [-> | [-> | ->]] by lia.
  - reflexivity.
  - change (slot_value a t 1) with (Int32.add a (t * 2)). by rewrite E1.
  - change (slot_value a t 2) with (Int32.add (Int32.add a (t * 2)) 1).
    by rewrite E1, E2.
Qed.

Lemma init_rows k m' t :
  0 <= nrAic k <= Int32.max_int - 2 * MAX_AICPU_THREADS ->
  Init k g_mt_mgr = (m', 0) -> 0 <= t < thread_num_ m' ->
  read (core_assignments_ m') t
  = Some (owned (nrAic k) t ++ replicate (Z.to_nat (MAX_CORES_PER_THREAD - 3)) 0).
Proof.
  intros Ha H Ht. unfold Init in H. cbn [initialized_ g_mt_mgr] in H.
  apply init_body_success in H as (Hn & _ & Htn & _ & _ & Htable).
  rewrite Htn in Ht.
  destruct (entry_assign_threads (Int32.wrap (nrAic k)) (upto (effective_threads k))
              (core_assignments_ (set_initialized true g_mt_mgr)))
    as [Hshape Hentry].
  { apply g_mt_mgr_well_shaped. }
  { apply Forall_forall. intros u Hu. apply upto_elem in Hu. lia. }
  rewrite <- Htable in Hshape, Hentry.
  destruct (read_in_range (core_assignments_ m') t) as [row Hrow].
  { destruct Hshape as [-> _]. unfold MAX_AICPU_THREADS in *. lia. }
  pose proof (well_shaped_row _ _ _ Hshape Hrow) as Hlen.
  rewrite Hrow. f_equal. apply list_eq. intros j.
  specialize (Hentry t (Z.of_nat j)). unfold entry in Hentry at 1.
  rewrite Hrow in Hentry. unfold read in Hentry at 1.
  destruct (Z.leb_spec 0 (Z.of_nat j)); [|lia]. rewrite Nat2Z.id in Hentry.
  rewrite Hentry. destruct (decide (j < 3)%nat) as [Hj|Hj].
  - rewrite decide_True by (split; [apply upto_elem|]; lia).
    rewrite lookup_app_l by (cbn; lia).
    rewrite slot_value_owned by lia. by rewrite Nat2Z.id.
  - rewrite decide_False by lia.
    rewrite lookup_app_r by (cbn; lia). cbn [length owned].
    unfold entry. change (core_assignments_ (set_initialized true g_mt_mgr))
      with (core_assignments_ g_mt_mgr).
    rewrite fresh_row by lia. unfold read.
    destruct (Z.leb_spec 0 (Z.of_nat j)); [|lia]. rewrite Nat2Z.id.
    unfold MAX_CORES_PER_THREAD, MAX_AIC_PER_THREAD, MAX_AIV_PER_THREAD.
    destruct (decide (j < 72)%nat) as [Hlt|Hge].
    + rewrite !lookup_replicate_2 by lia. done.
    + rewrite !lookup_ge_None_2 by (rewrite length_replicate; lia). done.
Qed.

Lemma cur_thread_cores_init k m' t :
  0 <= nrAic k <= Int32.max_int - 2 * MAX_AICPU_THREADS ->
  Init k g_mt_mgr = (m', 0) -> 0 <= t < thread_num_ m' ->
  cur_thread_cores m' t
  = Some (take (Z.to_nat (cores_per_thread_ m'))
               (owned (nrAic k) t
                ++ replicate (Z.to_nat (MAX_CORES_PER_THREAD - 3)) 0)).
Proof.
  intros Ha HInit Ht. unfold cur_thread_cores. rewrite (init_rows k m' t Ha HInit Ht).
  rewrite length_app, length_replicate. cbn [length owned].
  unfold Init in HInit. cbn [initialized_ g_mt_mgr] in HInit.
  pose proof (init_body_success _ _ _ HInit) as (Hn & Hmax & _).
  assert (Hacc : accepted k) by done.
  destruct (init_body_accepts k (set_initialized true g_mt_mgr) Hacc) as (_ & Hcpt & _).
  rewrite HInit in Hcpt. cbn [fst] in Hcpt. rewrite Hcpt.
  destruct (Z.leb_spec (cores_per_thread k)
              (Z.of_nat (3 + Z.to_nat (MAX_CORES_PER_THREAD - 3)))); [done|].
  unfold MAX_CORES_PER_THREAD, MAX_AIC_PER_THREAD, MAX_AIV_PER_THREAD in *. lia.
Qed.

End RunLists.

(** X15. The cores a scheduler thread works on.  After [Init] has
    accepted a configuration on the fresh manager, [cores_per_thread_]
    is the quotient of the core count, as the [int] [total_cores_]
    holds it, by the thread count; thread [t] handshakes, schedules and
    shuts down the first [cores_per_thread_] entries of its row, and the
    row holds the thread's Cube core, its two Vector cores and zeros:
    with fewer than three cores per thread a Vector core is dropped, and
    with more than three the list is filled up with core 0 instead of
    further cores. *)
Theorem run_core_lists (k : Platform.KernelArgs) :
  Platform.accepted k ->
  0 <= Platform.nrAic k <= Int32.max_int - 2 * Platform.MAX_AICPU_THREADS ->
  exists m',
    Platform.Init k Platform.g_mt_mgr = (m', 0) /\
    Platform.thread_num_ m' = Platform.effective_threads k /\
    Platform.cores_per_thread_ m'
      = Z.quot (Int32.wrap (Platform.core_num k)) (Platform.effective_threads k) /\
    forall t, 0 <= t < Platform.thread_num_ m' ->
      Platform.cur_thread_cores m' t
      = Some (take (Z.to_nat (Platform.cores_per_thread_ m'))
                   (Platform.owned (Platform.nrAic k) t
                    ++ replicate (Z.to_nat (Platform.MAX_CORES_PER_THREAD - 3)) 0)) /\
      (3 <= Platform.cores_per_thread_ m' ->
       Platform.cur_thread_cores m' t
       = Some (Platform.owned (Platform.nrAic k) t
               ++ replicate (Z.to_nat (Platform.cores_per_thread_ m' - 3)) 0)).
Proof.
  intros Hacc Ha.
  destruct (Platform.Init k Platform.g_mt_mgr) as [m' rc] eqn:HInit.
  pose proof HInit as H. unfold Platform.Init in H.
  cbn [Platform.initialized_ Platform.g_mt_mgr] in H.
  destruct (init_body_accepts k (Platform.set_initialized true Platform.g_mt_mgr) Hacc)
    as (Hrc & Hcpt & _).
  rewrite H in Hrc, Hcpt. cbn [fst snd] in Hrc, Hcpt. subst rc.
  pose proof (init_body_success _ _ _ H) as (_ & Hmax & Htn & _).
  exists m'. split; [done|]. split; [done|]. split; [done|].
  intros t Ht.
  pose proof (cur_thread_cores_init k m' t Ha HInit Ht) as Hlist.
  split; [done|]. intros H3. rewrite Hlist. f_equal.
  rewrite take_app_ge by (cbn; lia). cbn [length Platform.owned]. f_equal.
  rewrite take_replicate. f_equal.
  rewrite Hcpt in *.
  unfold Platform.MAX_CORES_PER_THREAD, Platform.MAX_AIC_PER_THREAD,
    Platform.MAX_AIV_PER_THREAD in *. lia.
Qed.

Lemma run_core_lists_witness :
  exists m',
    Platform.Init (Platform.mkArgs 1 2 6) Platform.g_mt_mgr = (m', 0) /\
    Platform.cur_thread_cores m' 0 = Some [0; 2; 3; 0; 0; 0].
Proof.
  destruct (run_core_lists (Platform.mkArgs 1 2 6)) as (m' & H & Ht & Hc & Hl).
  - split; [split|]; vm_compute; discriminate.
  - split; vm_compute; discriminate.
  - exists m'. split; [exact H|].
    destruct (Hl 0) as [_ Hfill].
    + rewrite Ht. vm_compute. split; [discriminate|reflexivity].
    + rewrite Hfill; [|rewrite Hc; vm_compute; discriminate].
      rewrite Hc. reflexivity.
Defined.

(** X16. In the layout the manager is written for, one scheduler thread
    per Cube core and two Vector cores for each, the threads' core lists
    partition the cores: every thread works on exactly its triple, the
    triples lie inside the handshake array, and every core belongs to
    exactly one thread. *)
Theorem one_thread_per_cube_core_partitions (k : Platform.KernelArgs) :
  let T := Platform.scheCpuNum k in
  1 <= T <= Platform.MAX_AICPU_THREADS ->
  Platform.nrAic k = T ->
  Platform.core_num k = 3 * T ->
  exists m',
    Platform.Init k Platform.g_mt_mgr = (m', 0) /\
    Platform.thread_num_ m' = T /\
    (forall t, 0 <= t < T ->
       Platform.cur_thread_cores m' t = Some (Platform.owned T t)) /\
    (forall t c, 0 <= t < T -> c ∈ Platform.owned T t -> 0 <= c < 3 * T) /\
    (forall c, 0 <= c < 3 * T ->
       exists t, 0 <= t < T /\ c ∈ Platform.owned T t /\
         forall u, 0 <= u < T -> c ∈ Platform.owned T u -> u = t).
Proof.
  intros T HT Ha Hc. unfold Platform.MAX_AICPU_THREADS in HT.
  assert (Heff : Platform.effective_threads k = T).
  { unfold Platform.effective_threads. fold T.
    rewrite wrap_small
      by (unfold Int32.in_range, Int32.min_int, Int32.max_int; lia).
    destruct (Z.eqb_spec T 0); [lia|done]. }
  assert (Hq : Platform.cores_per_thread k = 3).
  { unfold Platform.cores_per_thread, Platform.total_cores. rewrite Heff, Hc.
    rewrite wrap_small
      by (unfold Int32.in_range, Int32.min_int, Int32.max_int; lia).
    apply Z.quot_mul. lia. }
  assert (Hacc : Platform.accepted k).
  { split; [rewrite Heff; unfold Platform.MAX_AICPU_THREADS; lia|].
    rewrite Hq. vm_compute. discriminate. }
  destruct (Platform.Init k Platform.g_mt_mgr) as [m' rc] eqn:HInit.
  pose proof HInit as H. unfold Platform.Init in H.
  cbn [Platform.initialized_ Platform.g_mt_mgr] in H.
  destruct (init_body_accepts k (Platform.set_initialized true Platform.g_mt_mgr) Hacc)
    as (Hrc & Hcpt & _).
  rewrite H in Hrc, Hcpt. cbn [fst snd] in Hrc, Hcpt. subst rc.
  pose proof (init_body_success _ _ _ H) as (_ & _ & Htn & _).
  rewrite Heff in Htn. rewrite Hq in Hcpt.
  exists m'. split; [done|]. split; [done|]. split.
  { intros t Ht. rewrite (cur_thread_cores_init k m' t); [|by (rewrite Ha;
      unfold Int32.max_int, Platform.MAX_AICPU_THREADS; lia)|done|lia].
    rewrite Hcpt, Ha. reflexivity. }
  assert (Hmem : forall t c, c ∈ Platform.owned T t <->
                   c = t \/ c = T + 2 * t \/ c = T + 2 * t + 1).
  { intros t c. unfold Platform.owned.
    rewrite !elem_of_cons, elem_of_nil. tauto. }
  split.
  { intros t c Ht Hin. apply Hmem in Hin. lia. }
  intros c Hcr. destruct (Z.lt_ge_cases c T) as [Hlt|Hge].
  - exists c. split; [lia|]. split; [apply Hmem; lia|].
    intros u Hu Hin. apply Hmem in Hin. lia.
  - exists ((c - T) / 2).
    pose proof (Z.div_mod (c - T) 2 ltac:(lia)) as Hdm.
    pose proof (Z.mod_pos_bound (c - T) 2 ltac:(lia)) as Hm.
    split; [lia|]. split; [apply Hmem; lia|].
    intros u Hu Hin. apply Hmem in Hin. lia.
Qed.

Lemma one_thread_per_cube_core_partitions_witness :
  exists m',
    Platform.Init (Platform.mkArgs 3 3 9) Platform.g_mt_mgr = (m', 0) /\
    Platform.cur_thread_cores m' 1 = Some [1; 5; 6].
Proof.
  destruct (one_thread_per_cube_core_partitions (Platform.mkArgs 3 3 9))
    as (m' & H & _ & Hl & _).
  - split; vm_compute; discriminate.
  - reflexivity.
  - reflexivity.
  - exists m'. split; [exact H|]. apply (Hl 1). split; vm_compute; [discriminate|reflexivity].
Defined.

Section Poisoned.
Import Loop Platform.

Variable k : KernelArgs.

Lemma thread_step_poisoned m pc :
  poisoned m -> held_back pc -> pc <> InInit ->
  fst (thread_step k m pc) = m /\
  held_back (snd (thread_step k m pc)) /\ snd (thread_step k m pc) <> InInit.
Proof.
  intros (Hi & Hd & Hf) (Hrun & Hin & Hfin & Hret) Hinit.
  destruct pc; cbn [thread_step]; try done.
  - rewrite Hi. cbn. split; [done|]. split; [|done]. apply held_back_waiting. auto.
  - rewrite Hd. cbn. split; [done|]. split; [|done]. apply held_back_waiting. auto.
  - rewrite Hf. cbn. split; [done|]. split; [|done]. apply held_back_waiting. auto 6.
Qed.

Lemma reachable_poisoned m n s :
  poisoned m -> reachable k (relaunch m n) s ->
  mgr s = m /\ Forall (fun pc => held_back pc /\ pc <> InInit) (pcs s).
Proof.
  intros Hm. induction 1 as [|s s' _ [Hmgr Hpcs] Hstep].
  - split; [done|]. cbn. apply Forall_forall.
    intros pc Hpc%elem_of_replicate. destruct Hpc as [-> _].
    split; [|done]. apply held_back_waiting. auto.
  - destruct Hstep as [s i Hi|s i idx Hi].
    + unfold run_thread.
      destruct (lookup_lt_is_Some_2 (pcs s) i Hi) as [pc Hpc]. rewrite Hpc.
      assert (Hb : held_back pc /\ pc <> InInit).
      { rewrite Forall_forall in Hpcs. eapply Hpcs, list_elem_of_lookup_2, Hpc. }
      destruct Hb as [Hb Hin]. rewrite Hmgr.
      destruct (thread_step_poisoned m pc Hm Hb Hin) as (Hm' & Hb' & Hin').
      destruct (thread_step k m pc) as [m' pc']. cbn in *.
      split; [done|]. by apply Forall_insert.
    + exfalso. rewrite Forall_forall in Hpcs.
      destruct (Hpcs _ (list_elem_of_lookup_2 _ _ _ Hi)) as ((_ & Hin & _) & _).
      by apply (Hin idx).
Qed.

Lemma three_rounds_poisoned m n :
  poisoned m ->
  Nat.iter 3 (round k) (relaunch m n) = mkServer m (replicate n (Returned (-1))).
Proof.
  intros (Hi & Hd & Hf). unfold relaunch, Nat.iter. cbn [nat_rect].
  assert (R1 : sweep k m (replicate n CallInit) = (m, replicate n LoadDone)).
  { apply sweep_replicate. cbn. by rewrite Hi. }
  assert (R2 : sweep k m (replicate n LoadDone) = (m, replicate n LoadFailed)).
  { apply sweep_replicate. cbn. by rewrite Hd. }
  assert (R3 : sweep k m (replicate n LoadFailed) = (m, replicate n (Returned (-1)))).
  { apply sweep_replicate. cbn. by rewrite Hf. }
  rewrite round_sweep, R1. cbn [fst snd].
  rewrite round_sweep, R2. cbn [fst snd].
  rewrite round_sweep, R3. done.
Qed.

End Poisoned.

Lemma failed_launch_manager (k : Platform.KernelArgs) (n : nat) :
  Platform.uint32 (Platform.scheCpuNum k) -> Platform.rejected k -> (0 < n)%nat ->
  Platform.mgr (Nat.iter 4 (Platform.round k) (Platform.launch n))
  = fst (Platform.Init k Platform.g_mt_mgr).
Proof.
  intros Huint Hrej Hn. destruct n as [|n]; [lia|].
  unfold Platform.launch, Nat.iter. cbn [nat_rect replicate].
  pose (m1 := Platform.set_initialized true Platform.g_mt_mgr).
  pose (m2 := fst (Platform.init_body k m1)).
  destruct (init_body_failure k m1 (rejected_fails k Huint Hrej))
    as (_ & Hfail & Hdone & _).
  fold m2 in Hfail, Hdone. change (Platform.init_done_ m1) with false in Hdone.
  assert (R1 : Platform.sweep k Platform.g_mt_mgr
                 (Platform.CallInit :: replicate n Platform.CallInit)
               = (m1, Platform.InInit :: replicate n Platform.LoadDone)).
  { apply (sweep_cons k Platform.g_mt_mgr Platform.CallInit _ m1 Platform.InInit);
      [done|]. by apply sweep_replicate. }
  assert (R2 : Platform.sweep k m1 (Platform.InInit :: replicate n Platform.LoadDone)
               = (m2, Platform.LoadDone :: replicate n Platform.LoadFailed)).
  { apply (sweep_cons k m1 Platform.InInit _ m2 Platform.LoadDone); [done|].
    apply sweep_replicate. cbn. by rewrite Hdone. }
  assert (R3 : Platform.sweep k m2 (Platform.LoadDone :: replicate n Platform.LoadFailed)
               = (m2, Platform.LoadFailed :: replicate n (Platform.Returned (-1)))).
  { apply (sweep_cons k m2 Platform.LoadDone _ m2 Platform.LoadFailed).
    - cbn. by rewrite Hdone.
    - apply sweep_replicate. cbn. by rewrite Hfail. }
  assert (R4 : Platform.sweep k m2
                 (Platform.LoadFailed :: replicate n (Platform.Returned (-1)))
               = (m2, Platform.Returned (-1) :: replicate n (Platform.Returned (-1)))).
  { apply (sweep_cons k m2 Platform.LoadFailed _ m2 (Platform.Returned (-1))).
    - cbn. by rewrite Hfail.
    - by apply sweep_replicate. }
  rewrite round_sweep, R1. cbn [fst snd].
  rewrite round_sweep, R2. cbn [fst snd].
  rewrite round_sweep, R3. cbn [fst snd].
  rewrite round_sweep, R4. done.
Qed.

(** X17. A failed initialisation poisons the manager.  The launch that
    [Init] rejected leaves [initialized_] and [init_failed_] set and
    [init_done_] clear, and nothing on the failure path resets them:
    every thread of a later launch, whatever its configuration, finds
    [Init] already claimed, never gets past the barrier to [Run], and
    returns -1. *)
Theorem failed_init_poisons_manager (k k' : Platform.KernelArgs) (n n' : nat) :
  Platform.uint32 (Platform.scheCpuNum k) ->
  Platform.div_defined k ->
  Platform.rejected k ->
  (0 < n)%nat ->
  let m := Platform.mgr (Nat.iter 4 (Platform.round k) (Platform.launch n)) in
  Platform.poisoned m /\
  (forall s, Platform.reachable k' (Platform.relaunch m n') s ->
     Platform.mgr s = m /\
     Forall (fun pc => pc <> Platform.InRun /\
                       (forall thread_idx, pc <> Platform.Running thread_idx) /\
                       pc <> Platform.Finishing /\
                       forall rc, pc = Platform.Returned rc -> rc = -1)
            (Platform.pcs s)) /\
  Nat.iter 3 (Platform.round k') (Platform.relaunch m n')
    = Platform.mkServer m (replicate n' (Platform.Returned (-1))).
Proof.
  intros Huint _ Hrej Hn m.
  assert (Hm : Platform.poisoned m).
  { unfold m. rewrite (failed_launch_manager k n Huint Hrej Hn).
    unfold Platform.Init. cbn [Platform.initialized_ Platform.g_mt_mgr].
    destruct (init_body_failure k (Platform.set_initialized true Platform.g_mt_mgr)
                (rejected_fails k Huint Hrej)) as (_ & Hf & Hd & Hi).
    split; [by rewrite Hi|]. split; [by rewrite Hd|]. done. }
  split; [done|]. split.
  - intros s Hs. destruct (reachable_poisoned k' m n' s Hm Hs) as [Hmgr Hpcs].
    split; [done|]. eapply Forall_impl; [exact Hpcs|]. by intros pc [Hb _].
  - by apply three_rounds_poisoned.
Qed.

Lemma failed_init_poisons_manager_witness :
  let m := Platform.mgr (Nat.iter 4 (Platform.round (Platform.mkArgs 5 5 15))
                                  (Platform.launch 5)) in
  Platform.pcs (Nat.iter 3 (Platform.round (Platform.mkArgs 3 3 9))
                         (Platform.relaunch m 3))
  = replicate 3 (Platform.Returned (-1)).
Proof.
  intros m.
  destruct (failed_init_poisons_manager (Platform.mkArgs 5 5 15)
              (Platform.mkArgs 3 3 9) 5 3) as (_ & _ & H).
  - split; vm_compute; [discriminate|reflexivity].
  - intros [H _]. vm_compute in H. discriminate.
  - left. vm_compute. reflexivity.
  - lia.
  - fold m in H. by rewrite H.
Defined.

Section Counting.
Import Platform.





End Counting.

Section Accepted.
Import Loop Platform.

Variable k : KernelArgs.
Hypothesis Hacc : accepted k.









End Accepted.



(* ===================================================================== *)
(** * The doorbell queue of the reference example *)
(* ===================================================================== *)

Ltac mod_lia := Z.to_euclidean_division_equations; lia.

Lemma foreach_app {S A} (body : A -> S -> option S) (l1 l2 : list A) (s : S) :
  Loop.foreach body (l1 ++ l2) s =
  match Loop.foreach body l1 s with
  | Some s' => Loop.foreach body l2 s'
  | None => None
  end.
Proof.
  revert s. induction l1 as [|a l1 IH]; intros s; cbn [app Loop.foreach]; [done|].
  destruct (body a s); [apply IH|done].
Qed.

Section Queue.
Import Loop TaskQueue.

Lemma uint32_round_trip t : 0 <= t < 2 ^ 32 -> to_uint32 (Int32.wrap t) = t.
Proof.
  intros Ht. unfold to_uint32, Int32.wrap.
  rewrite Zminus_mod_idemp_l.
  replace (t + 2 ^ 31 - 2 ^ 31) with t by lia. by apply Z.mod_small.
Qed.

Lemma submit_task_spec t ctx :
  wf ctx ->
  exists ctx',
    submit_task t ctx = Some ctx' /\ wf ctx' /\
    queue_head ctx' = queue_head ctx /\
    queue_tail ctx' = (queue_tail ctx + 1) mod 256 /\
    queue_count ctx' = Int32.add (queue_count ctx) 1 /\
    task_queue ctx' = <[ Z.to_nat (queue_tail ctx) := Int32.wrap t ]> (task_queue ctx).
Proof.
  intros (Hlen & Hh & Ht & Hc). unfold submit_task, TASK_QUEUE_DEPTH in *.
  rewrite write_in_range by lia. eexists. split; [done|].
  unfold wf, TASK_QUEUE_DEPTH. cbn [queue_head queue_tail queue_count task_queue].
  assert (Hr : Z.rem (queue_tail ctx + 1) 256 = (queue_tail ctx + 1) mod 256)
    by mod_lia.
  rewrite Hr. split; [|done].
  split; [by rewrite length_insert|].
  split; [done|]. split; [mod_lia|]. apply wrap_in_range.
Qed.

Lemma submit_all_spec l : forall ctx,
  wf ctx ->
  exists ctx1,
    submit_all l ctx = Some ctx1 /\ wf ctx1 /\
    queue_head ctx1 = queue_head ctx /\
    queue_tail ctx1 = (queue_tail ctx + Z.of_nat (length l)) mod 256 /\
    queue_count ctx1 = Int32.wrap (queue_count ctx + Z.of_nat (length l)) /\
    forall (j : nat) t, l !! j = Some t ->
      Z.of_nat (length l) - Z.of_nat j <= 256 ->
      read (task_queue ctx1) ((queue_tail ctx + Z.of_nat j) mod 256)
      = Some (Int32.wrap t).
Proof.
  induction l as [|x l IH] using rev_ind; intros ctx Hwf.
  - exists ctx. pose proof Hwf as (Hlen & Hh & Ht & Hc). unfold TASK_QUEUE_DEPTH in *.
    cbn [length]. split; [done|]. split; [done|]. split; [done|].
    split; [mod_lia|]. split; [by rewrite Z.add_0_r, wrap_small|].
    intros j t Hj. by rewrite lookup_nil in Hj.
  - destruct (IH ctx Hwf) as (ctx1 & H1 & Hwf1 & Hh1 & Ht1 & Hc1 & Hslots).
    destruct (submit_task_spec x ctx1 Hwf1) as (ctx2 & H2 & Hwf2 & Hh2 & Ht2 & Hc2 & Hq2).
    exists ctx2. unfold submit_all in *. rewrite foreach_app, H1. cbn [foreach].
    rewrite H2. split; [done|]. split; [done|].
    rewrite length_app. cbn [length].
    destruct Hwf as (Hlen & Hh & Ht & _). destruct Hwf1 as (Hlen1 & Hh1' & Ht1' & _).
    unfold TASK_QUEUE_DEPTH in *.
    split; [congruence|]. split; [rewrite Ht2, Ht1; mod_lia|].
    split; [rewrite Hc2, Hc1; unfold Int32.add; rewrite wrap_add_l; f_equal; lia|].
    intros j t Hj Hnear. rewrite Hq2. unfold read.
    destruct (Z.leb_spec 0 ((queue_tail ctx + Z.of_nat j) mod 256)); [|mod_lia].
    destruct (decide (j = length l)) as [->|Hne].
    + rewrite lookup_app_r, Nat.sub_diag in Hj by lia. inversion Hj; subst t.
      rewrite <- Ht1. apply list_lookup_insert_eq. lia.
    + assert (Hlt : (j < length l)%nat).
      { apply lookup_lt_Some in Hj. rewrite length_app in Hj. cbn in Hj. lia. }
      rewrite lookup_app_l in Hj by done.
      specialize (Hslots j t Hj ltac:(lia)). unfold read in Hslots.
      destruct (Z.leb_spec 0 ((queue_tail ctx + Z.of_nat j) mod 256)); [|lia].
      rewrite list_lookup_insert_ne; [done|].
      rewrite Ht1. intros Heq. apply Z2Nat.inj in Heq; mod_lia.
Qed.

Lemma device_main_entry_spec ts : forall ctx fuel,
  wf ctx ->
  (forall (i : nat) t, ts !! i = Some t ->
     read (task_queue ctx) ((queue_head ctx + Z.of_nat i) mod 256) = Some t) ->
  queue_tail ctx = (queue_head ctx + Z.of_nat (length ts)) mod 256 ->
  (length ts < 256)%nat -> (length ts <= fuel)%nat ->
  device_main_entry fuel ctx
  = Some (map to_uint32 ts,
          mkContext (task_queue ctx) (queue_tail ctx) (queue_tail ctx)
                    (Int32.wrap (queue_count ctx - Z.of_nat (length ts)))).
Proof.
  induction ts as [|t ts IH]; intros ctx fuel Hwf Hslots Htail Hlen Hfuel.
  - cbn [length] in *. destruct Hwf as (_ & Hh & _ & Hc). unfold TASK_QUEUE_DEPTH in *.
    assert (Heq : queue_head ctx = queue_tail ctx) by mod_lia.
    assert (Hctx : mkContext (task_queue ctx) (queue_tail ctx) (queue_tail ctx)
                     (Int32.wrap (queue_count ctx - Z.of_nat 0)) = ctx).
    { rewrite Z.sub_0_r, wrap_small by done. destruct ctx; cbn in *. subst.
      f_equal; mod_lia. }
    rewrite Hctx.
    destruct fuel; cbn [device_main_entry]; by rewrite Heq, Z.eqb_refl.
  - cbn [length] in *. pose proof Hwf as (Hq & Hh & Ht & Hc).
    unfold TASK_QUEUE_DEPTH in *.
    destruct fuel as [|fuel]; [lia|]. cbn [device_main_entry].
    destruct (Z.eqb_spec (queue_head ctx) (queue_tail ctx)) as [Heq|_]; [mod_lia|].
    pose proof (Hslots 0%nat t eq_refl) as H0.
    replace ((queue_head ctx + Z.of_nat 0) mod 256) with (queue_head ctx) in H0
      by mod_lia.
    unfold read_task. rewrite H0.
    assert (Hr : Z.rem (queue_head ctx + 1) TASK_QUEUE_DEPTH
                 = (queue_head ctx + 1) mod 256) by (unfold TASK_QUEUE_DEPTH; mod_lia).
    rewrite Hr.
    rewrite (IH _ fuel).
    + cbn. f_equal. f_equal. f_equal. unfold Int32.sub.
      rewrite <- (Z.add_opp_r (Int32.wrap _)), wrap_add_l. f_equal. lia.
    + split; [done|]. cbn. unfold TASK_QUEUE_DEPTH.
      split; [mod_lia|]. split; [done|]. apply wrap_in_range.
    + intros i t' Hi. cbn. specialize (Hslots (S i) t' Hi).
      replace (((queue_head ctx + 1) mod 256 + Z.of_nat i) mod 256)
        with ((queue_head ctx + Z.of_nat (S i)) mod 256) by mod_lia. done.
    + cbn. rewrite Htail. mod_lia.
    + lia.
    + lia.
Qed.

(** What the device finds after the host has submitted [l] to an empty
    queue. *)
Lemma queue_round_trip ctx l :
  wf ctx -> queue_head ctx = queue_tail ctx ->
  Forall (fun t => 0 <= t < 2 ^ 32) l ->
  let n := Z.of_nat (length l) in
  exists ctx1,
    submit_all l ctx = Some ctx1 /\ wf ctx1 /\
    queue_head ctx1 = queue_head ctx /\
    queue_tail ctx1 = (queue_head ctx + n) mod 256 /\
    forall fuel, n mod 256 <= Z.of_nat fuel ->
      device_main_entry fuel ctx1
      = Some (drop (Z.to_nat (256 * (n / 256))) l,
              mkContext (task_queue ctx1) (queue_tail ctx1) (queue_tail ctx1)
                        (Int32.wrap (queue_count ctx + 256 * (n / 256)))).
Proof.
  intros Hwf Hempty Hl n.
  destruct (submit_all_spec l ctx Hwf) as (ctx1 & H1 & Hwf1 & Hh1 & Ht1 & Hc1 & Hslots).
  exists ctx1. split; [done|]. split; [done|]. split; [done|].
  rewrite <- Hempty in Ht1, Hslots. split; [done|]. intros fuel Hfuel.
  set (k := Z.to_nat (256 * (n / 256))).
  assert (Hk : Z.of_nat k = 256 * (n / 256)) by (unfold k, n; mod_lia).
  assert (Hlenk : Z.of_nat (length (drop k l)) = n mod 256).
  { rewrite length_drop. unfold n in *. mod_lia. }
  rewrite (device_main_entry_spec (map Int32.wrap (drop k l))).
  - rewrite length_map, Hlenk, Hc1. f_equal. f_equal.
    + rewrite map_map. rewrite <- (map_id (drop k l)) at 2.
      apply map_ext_Forall. apply Forall_drop.
      eapply Forall_impl; [exact Hl|]. intros t Ht. by apply uint32_round_trip.
    + f_equal. rewrite <- (Z.add_opp_r (Int32.wrap _)), wrap_add_l. f_equal.
      fold n. mod_lia.
  - done.
  - intros i t Hi. change (map Int32.wrap (drop k l)) with (Int32.wrap <$> drop k l) in Hi.
    rewrite list_lookup_fmap, lookup_drop in Hi.
    destruct (l !! (k + i)%nat) as [t0|] eqn:Ht0; [|discriminate].
    inversion Hi; subst t. pose proof (lookup_lt_Some _ _ _ Ht0) as Hlt.
    rewrite <- (Hslots (k + i)%nat t0 Ht0) by (fold n; mod_lia).
    rewrite Hh1. f_equal. mod_lia.
  - rewrite length_map, Hlenk, Ht1, Hh1. fold n. mod_lia.
  - rewrite length_map. mod_lia.
  - rewrite length_map. lia.
Qed.

End Queue.

(** X19. The doorbell queue delivers in order.  Fewer than 256 tasks
    submitted to an empty queue are read by the device loop exactly once
    each, in the order of submission and with their values intact; the
    loop stops with the queue empty again and [queue_count] back at its
    old value. *)
Theorem queue_delivers_in_order (ctx : TaskQueue.TaskContext) (l : list Z) :
  TaskQueue.wf ctx ->
  TaskQueue.queue_head ctx = TaskQueue.queue_tail ctx ->
  Forall (fun t => 0 <= t < 2 ^ 32) l ->
  (length l < 256)%nat ->
  exists ctx1 ctx2,
    TaskQueue.submit_all l ctx = Some ctx1 /\
    (l <> [] -> TaskQueue.queue_head ctx1 <> TaskQueue.queue_tail ctx1) /\
    (forall fuel, (length l <= fuel)%nat ->
       TaskQueue.device_main_entry fuel ctx1 = Some (l, ctx2)) /\
    TaskQueue.queue_head ctx2 = TaskQueue.queue_tail ctx2 /\
    TaskQueue.queue_tail ctx2 = TaskQueue.queue_tail ctx1 /\
    TaskQueue.queue_count ctx2 = TaskQueue.queue_count ctx.
Proof.
  intros Hwf Hempty Hl Hlen.
  destruct (queue_round_trip ctx l Hwf Hempty Hl) as (ctx1 & H1 & Hwf1 & Hh1 & Ht1 & Hdev).
  assert (Hq : Z.of_nat (length l) / 256 = 0) by (apply Z.div_small; lia).
  assert (Hm : Z.of_nat (length l) mod 256 = Z.of_nat (length l))
    by (apply Z.mod_small; lia).
  rewrite Hq, Hm in Hdev. cbn [Z.mul Z.to_nat drop] in Hdev.
  eexists ctx1, _. split; [done|]. split.
  { intros Hne. rewrite Ht1, Hh1. destruct Hwf as (_ & Hh & _).
    unfold TaskQueue.TASK_QUEUE_DEPTH in Hh.
    assert (0 < Z.of_nat (length l) < 256) by (destruct l; [done|cbn [length] in *; lia]).
    mod_lia. }
  split; [intros fuel Hf; apply Hdev; lia|].
  cbn. split; [done|]. split; [done|].
  destruct Hwf as (_ & _ & _ & Hc). by rewrite Z.add_0_r, wrap_small.
Qed.

Lemma queue_delivers_in_order_witness :
  exists ctx1 ctx2,
    TaskQueue.submit_all [17; 18; 19] TaskQueue.init_context = Some ctx1 /\
    TaskQueue.device_main_entry 3 ctx1 = Some ([17; 18; 19], ctx2).
Proof.
  destruct (queue_delivers_in_order TaskQueue.init_context [17; 18; 19])
    as (ctx1 & ctx2 & H1 & _ & Hdev & _).
  - split; [reflexivity|]. split; [|split]; vm_compute; split; discriminate || reflexivity.
  - reflexivity.
  - repeat constructor; vm_compute; discriminate || reflexivity.
  - cbn. lia.
  - exists ctx1, ctx2. split; [exact H1|]. apply Hdev. cbn. lia.
Defined.

(** X20. [submit_task] never checks for a full queue.  Of the tasks
    submitted to an empty queue the device loop reads only those after
    the last multiple of 256, the earlier ones are overwritten or
    skipped, and the [int32_t] counter [queue_count] keeps counting them
    (wrapping around); after exactly 256
    submissions head and tail coincide, so that the queue looks empty to
    the device loop and to the host's wait loop, and no task is read. *)
Theorem queue_overflow_loses_tasks (ctx : TaskQueue.TaskContext) (l : list Z) :
  TaskQueue.wf ctx ->
  TaskQueue.queue_head ctx = TaskQueue.queue_tail ctx ->
  Forall (fun t => 0 <= t < 2 ^ 32) l ->
  let n := Z.of_nat (length l) in
  exists ctx1 ctx2,
    TaskQueue.submit_all l ctx = Some ctx1 /\
    (forall fuel, n mod 256 <= Z.of_nat fuel ->
       TaskQueue.device_main_entry fuel ctx1
       = Some (drop (Z.to_nat (n - n mod 256)) l, ctx2)) /\
    TaskQueue.queue_count ctx2
      = Int32.wrap (TaskQueue.queue_count ctx + (n - n mod 256)) /\
    (n mod 256 = 0 ->
       TaskQueue.queue_head ctx1 = TaskQueue.queue_tail ctx1 /\
       forall fuel, TaskQueue.device_main_entry fuel ctx1 = Some ([], ctx1)).
Proof.
  intros Hwf Hempty Hl n.
  destruct (queue_round_trip ctx l Hwf Hempty Hl) as (ctx1 & H1 & Hwf1 & Hh1 & Ht1 & Hdev).
  fold n in Ht1, Hdev.
  assert (Hn : 256 * (n / 256) = n - n mod 256) by mod_lia.
  rewrite Hn in Hdev.
  eexists ctx1, _. split; [done|]. split; [exact Hdev|]. split; [done|].
  intros Hz. assert (Heq : TaskQueue.queue_head ctx1 = TaskQueue.queue_tail ctx1).
  { rewrite Ht1, Hh1. destruct Hwf as (_ & Hh & _).
    unfold TaskQueue.TASK_QUEUE_DEPTH in Hh. mod_lia. }
  split; [done|]. intros fuel.
  destruct fuel; cbn [TaskQueue.device_main_entry]; by rewrite Heq, Z.eqb_refl.
Qed.

Lemma queue_overflow_loses_tasks_witness :
  exists ctx1,
    TaskQueue.submit_all (replicate 256 17) TaskQueue.init_context = Some ctx1 /\
    TaskQueue.queue_count ctx1 = 256 /\
    TaskQueue.device_main_entry 256 ctx1 = Some ([], ctx1).
Proof.
  destruct (queue_overflow_loses_tasks TaskQueue.init_context (replicate 256 17))
    as (ctx1 & ctx2 & H1 & _ & _ & Hfull).
  - split; [reflexivity|]. split; [|split]; vm_compute; split; discriminate || reflexivity.
  - reflexivity.
  - apply Forall_replicate. vm_compute. split; discriminate || reflexivity.
  - exists ctx1. split; [exact H1|]. split.
    + vm_compute in H1. inversion H1. reflexivity.
    + apply Hfull. reflexivity.
Defined.

(* ===================================================================== *)
(** * The multi-thread scheduler over a whole run *)
(* ===================================================================== *)

Lemma app_cons_split {A} (tr suffix pre post : list A) x :
  tr ++ suffix = pre ++ x :: post ->
  (exists post', tr = pre ++ x :: post' /\ post = post' ++ suffix) \/
  (exists pre', pre = tr ++ pre' /\ suffix = pre' ++ x :: post).
Proof.
  revert pre. induction tr as [|a tr IH]; intros pre H.
  - right. exists pre. done.
  - destruct pre as [|b pre]; cbn in H.
    + inversion H; subst. left. by exists tr.
    + inversion H as [[Hab Hrest]]. subst b.
      destruct (IH pre Hrest) as [(post' & -> & ->)|(pre' & -> & ->)].
      * left. by exists post'.
      * right. by exists pre'.
Qed.

Section ExecutorIdle.
Import Cell Loop GraphExecutor.

Variable L : Layout.t.






End ExecutorIdle.



Section ExecutorTotals.
Import Cell Loop GraphExecutor.

Variable L : Layout.t.
Hypothesis HL : Layout.wf L.

Lemma total_insert (f : Thread -> Z) ths : forall i th th',
  ths !! i = Some th ->
  foldr (fun th acc => f th + acc) 0 (<[ i := th' ]> ths)
  = foldr (fun th acc => f th + acc) 0 ths - f th + f th'.
Proof.
  induction ths as [|a ths IH]; intros i th th' Hi; [done|].
  destruct i as [|i].
  - cbn in *. inversion Hi; subst. lia.
  - change (<[S i := th']> (a :: ths)) with (a :: <[i := th']> ths).
    cbn [foldr]. rewrite (IH i th th' Hi). lia.
Qed.

Lemma step_balanced st st' : balanced st -> step L st st' -> balanced st'.
Proof.
  intros (Hc & Ht & Hf) Hstep. destruct Hstep as [s i th w' l' Hi _ Hpass|s c h Hh].
  - apply (pass_accounted L HL) in Hpass
      as (tr & Hlog & Hc' & Hf' & _ & Hct & _);
      [|rewrite Hc; apply wrap_in_range].
    cbn [fst snd] in *. unfold balanced. cbn [world threads].
    rewrite Hlog, collections_app, publications_app, Hct, Hc, wrap_add_l.
    split; [done|].
    unfold completed_total, in_flight_total in *.
    rewrite (total_insert (fun th => cur_thread_completed (loc th)) _ _ _ _ Hi).
    rewrite (total_insert (fun th => cur_thread_tasks_in_flight (loc th)) _ _ _ _ Hi).
    cbn [loc]. split; lia.
  - done.
Qed.

Lemma start_balanced gr cells s assignment s0 :
  start gr cells s assignment = Some s0 -> balanced s0.
Proof.
  unfold start, init. intros H.
  destruct (foreach (enqueue_initial gr) _ _) as [s1|]; [|discriminate].
  inversion H; subst; clear H. unfold balanced. cbn.
  split; [done|].
  induction assignment as [|cs assignment IH]; [done|].
  cbn. destruct IH as [-> ->]. done.
Qed.

Lemma reachable_balanced gr cells s assignment s0 st :
  start gr cells s assignment = Some s0 -> reachable L s0 st -> balanced st.
Proof.
  intros Hs. induction 1 as [|st st' _ IH Hstep].
  - by eapply start_balanced.
  - by eapply step_balanced.
Qed.

End ExecutorTotals.

(** X22. Over a whole run of the scheduler threads and the workers, from
    the start and under every interleaving, the counters agree with the
    stores: [completed_tasks] is the number of cells cleared so far
    (as an [int]), the threads' [cur_thread_completed] add up to that
    number, and their [cur_thread_tasks_in_flight] add up to the number
    of doorbells rung minus the number of cells cleared. *)
Theorem counters_account_for_the_stores (L : Layout.t) (gr : GraphExecutor.Graph)
        (cells : list Cell.Handshake) (s : GraphExecutor.Shared)
        (assignment : list (list Z)) (s0 st : GraphExecutor.Sys) :
  Layout.wf L ->
  GraphExecutor.start gr cells s assignment = Some s0 ->
  GraphExecutor.reachable L s0 st ->
  let tr := GraphExecutor.log (GraphExecutor.world st) in
  GraphExecutor.completed_tasks (GraphExecutor.sh (GraphExecutor.world st))
    = Int32.wrap (GraphExecutor.collections tr) /\
  GraphExecutor.completed_total (GraphExecutor.threads st)
    = GraphExecutor.collections tr /\
  GraphExecutor.in_flight_total (GraphExecutor.threads st)
    = GraphExecutor.publications tr - GraphExecutor.collections tr.
Proof.
  intros HL Hs Hr. exact (reachable_balanced L HL gr cells s assignment s0 st Hs Hr).
Qed.

Lemma counters_account_for_the_stores_witness :
  exists s0 s1,
    Scenario.launched = Some s0 /\
    GraphExecutor.reachable Scenario.GL s0 s1 /\
    GraphExecutor.log (GraphExecutor.world s1)
      = [Cell.StTask 0 (Layout.addr Scenario.GL 0); Cell.StStatus 0 1] /\
    GraphExecutor.in_flight_total (GraphExecutor.threads s1) = 1.
Proof.
  eexists. eexists. split; [reflexivity|].
  assert (Hr : GraphExecutor.reachable Scenario.GL
                 (GraphExecutor.mkSys
                    (GraphExecutor.mkWorld Scenario.one_task [Cell.reset 0]
                       (GraphExecutor.mkShared [0; 0; 0; 0] 1 [0; 0; 0; 0] 0 0 1 true 0) [])
                    [GraphExecutor.mkThread [0] (GraphExecutor.mkLocal 0 0 1)] [])
                 (GraphExecutor.mkSys
                    (GraphExecutor.mkWorld Scenario.one_task
                       [Cell.mkHandshake 0 0 0 (Layout.addr Scenario.GL 0) 1 0]
                       (GraphExecutor.mkShared [0; 0; 0; 0] 0 [0; 0; 0; 0] 0 0 1 true 0)
                       [Cell.StTask 0 (Layout.addr Scenario.GL 0); Cell.StStatus 0 1])
                    [GraphExecutor.mkThread [0] (GraphExecutor.mkLocal 0 1 1)] [])).
  { eapply GraphExecutor.reach_step; [apply GraphExecutor.reach_start|].
    apply (GraphExecutor.step_pass Scenario.GL
             (GraphExecutor.mkSys
                (GraphExecutor.mkWorld Scenario.one_task [Cell.reset 0]
                   (GraphExecutor.mkShared [0; 0; 0; 0] 1 [0; 0; 0; 0] 0 0 1 true 0) [])
                [GraphExecutor.mkThread [0] (GraphExecutor.mkLocal 0 0 1)] [])
             0%nat (GraphExecutor.mkThread [0] (GraphExecutor.mkLocal 0 0 1))).
    - reflexivity.
    - reflexivity.
    - reflexivity. }
  split; [exact Hr|]. split; [reflexivity|].
  destruct (counters_account_for_the_stores Scenario.GL Scenario.one_task
              [Cell.reset 0] Scenario.fresh [[0]] _ _ ltac:(split; reflexivity)
              eq_refl Hr) as (_ & _ & Hf).
  exact Hf.
Defined.

(* ===================================================================== *)
(** * The cores a thread reaches *)
(* ===================================================================== *)

Section Reached.
Import Cell Loop Platform.

Lemma poke_list_spec f cs : forall hk hk',
  (forall h, f (f h) = f h) ->
  foreach (poke f) cs hk = Some hk' ->
  forall c, Cell.get hk' c =
            if decide (c ∈ cs) then f <$> Cell.get hk c else Cell.get hk c.
Proof.
  induction cs as [|c0 cs IH]; intros hk hk' Hf H c; cbn [foreach] in H.
  - inversion H; subst. rewrite decide_False; [done|]. apply not_elem_of_nil.
  - destruct (poke f c0 hk) as [hk1|] eqn:Hp; [|discriminate].
    apply poke_update in Hp as [-> _].
    rewrite (IH _ _ Hf H), get_update.
    destruct (decide (c = c0)) as [->|Hne].
    + rewrite (decide_True (P := c0 ∈ c0 :: cs)) by (apply elem_of_cons; by left).
      destruct (decide (c0 ∈ cs)); [|done].
      destruct (Cell.get hk c0); cbn; [by rewrite Hf|done].
    + destruct (decide (c ∈ cs)) as [Hin|Hout].
      * by rewrite decide_True by (apply elem_of_cons; by right).
      * rewrite decide_False; [done|]. by apply not_elem_of_cons.
Qed.

Lemma listed_cores k m' t cs :
  0 <= nrAic k <= Int32.max_int - 2 * MAX_AICPU_THREADS ->
  Init k g_mt_mgr = (m', 0) -> 0 <= t < thread_num_ m' ->
  cur_thread_cores m' t = Some cs ->
  forall c, c ∈ cs -> c ∈ owned (nrAic k) t \/ c = 0.
Proof.
  intros Ha HInit Ht Hcs c Hc.
  pose proof (cur_thread_cores_init k m' t Ha HInit Ht) as Hlist.
  rewrite Hcs in Hlist. apply (inj Some) in Hlist. rewrite Hlist in Hc.
  apply elem_of_take in Hc as (i & Hi & _).
  apply list_elem_of_lookup_2 in Hi.
  apply elem_of_app in Hi as [Hi|Hi]; [by left|].
  apply elem_of_replicate in Hi as [-> _]. by right.
Qed.

End Reached.

(** X23. Cores outside the threads' lists are never reached.  After
    [Init] has accepted a configuration, the cores a scheduler thread
    signals ready and later tells to quit are those of its list, each
    cell getting only that one field written, and the list holds nothing
    but the thread's triple and core 0.  The cell of any other core is
    left untouched by every thread: its worker never sees [aicpu_ready]
    and never sees the quit signal. *)
Theorem cores_outside_the_lists_are_never_reached (k : Platform.KernelArgs) :
  Platform.accepted k ->
  0 <= Platform.nrAic k <= Int32.max_int - 2 * Platform.MAX_AICPU_THREADS ->
  exists m',
    Platform.Init k Platform.g_mt_mgr = (m', 0) /\
    forall t cores, 0 <= t < Platform.thread_num_ m' ->
      Platform.cur_thread_cores m' t = Some cores ->
      (forall c, c ∈ cores -> c ∈ Platform.owned (Platform.nrAic k) t \/ c = 0) /\
      (forall cells cells' c, Platform.HankAiCore_signal cores cells = Some cells' ->
         Cell.get cells' c =
         if decide (c ∈ cores) then Cell.set_aicpu_ready 1 <$> Cell.get cells c
         else Cell.get cells c) /\
      (forall cells cells' c, Platform.ShutdownAiCore cores cells = Some cells' ->
         Cell.get cells' c =
         if decide (c ∈ cores) then Cell.set_control 1 <$> Cell.get cells c
         else Cell.get cells c) /\
      (forall cells cells' c, c <> 0 -> c ∉ Platform.owned (Platform.nrAic k) t ->
         Platform.HankAiCore_signal cores cells = Some cells' \/
         Platform.ShutdownAiCore cores cells = Some cells' ->
         Cell.get cells' c = Cell.get cells c).
Proof.
  intros Hacc Ha.
  destruct (Platform.Init k Platform.g_mt_mgr) as [m' rc] eqn:HInit.
  pose proof HInit as H. unfold Platform.Init in H.
  cbn [Platform.initialized_ Platform.g_mt_mgr] in H.
  destruct (init_body_accepts k (Platform.set_initialized true Platform.g_mt_mgr) Hacc)
    as (Hrc & _).
  rewrite H in Hrc. cbn [snd] in Hrc. subst rc.
  exists m'. split; [done|]. intros t cores Ht Hcores.
  pose proof (listed_cores k m' t cores Ha HInit Ht Hcores) as Hlisted.
  assert (Hsig : forall cells cells' c,
            Platform.HankAiCore_signal cores cells = Some cells' ->
            Cell.get cells' c =
            if decide (c ∈ cores) then Cell.set_aicpu_ready 1 <$> Cell.get cells c
            else Cell.get cells c).
  { intros cells cells' c Hs.
    exact (poke_list_spec (Cell.set_aicpu_ready 1) cores cells cells'
             (fun h => eq_refl) Hs c). }
  assert (Hquit : forall cells cells' c,
            Platform.ShutdownAiCore cores cells = Some cells' ->
            Cell.get cells' c =
            if decide (c ∈ cores) then Cell.set_control 1 <$> Cell.get cells c
            else Cell.get cells c).
  { intros cells cells' c Hs.
    exact (poke_list_spec (Cell.set_control 1) cores cells cells'
             (fun h => eq_refl) Hs c). }
  split; [done|]. split; [done|]. split; [done|].
  intros cells cells' c Hc0 Hout [Hs|Hs].
  - rewrite (Hsig _ _ c Hs). rewrite decide_False; [done|].
    intros Hin. destruct (Hlisted c Hin); done.
  - rewrite (Hquit _ _ c Hs). rewrite decide_False; [done|].
    intros Hin. destruct (Hlisted c Hin); done.
Qed.

Lemma cores_outside_the_lists_are_never_reached_witness :
  exists m' cells',
    Platform.Init (Platform.mkArgs 1 2 6) Platform.g_mt_mgr = (m', 0) /\
    Platform.cur_thread_cores m' 0 = Some [0; 2; 3; 0; 0; 0] /\
    Platform.HankAiCore_signal [0; 2; 3; 0; 0; 0] (replicate 6 (Cell.reset 0))
      = Some cells' /\
    Cell.get cells' 1 = Some (Cell.reset 0).
Proof.
  destruct (cores_outside_the_lists_are_never_reached (Platform.mkArgs 1 2 6))
    as (m' & H & Hl).
  - split; [split|]; vm_compute; discriminate.
  - split; vm_compute; discriminate.
  - exists m'. eexists. split; [exact H|].
    assert (Hcs : Platform.cur_thread_cores m' 0 = Some [0; 2; 3; 0; 0; 0]).
    { vm_compute in H. inversion H. reflexivity. }
    split; [exact Hcs|]. split; [reflexivity|].
    destruct (Hl 0 _ ltac:(vm_compute in H; inversion H; vm_compute; split; [discriminate|reflexivity]) Hcs)
      as (_ & _ & _ & Hout).
    rewrite (Hout (replicate 6 (Cell.reset 0)) _ 1); [reflexivity|discriminate| |left; reflexivity].
    unfold Platform.owned. rewrite !elem_of_cons, elem_of_nil. vm_compute. intuition discriminate.
Defined.

(* ===================================================================== *)
(** * The order in which a single scheduler thread publishes and collects *)
(* ===================================================================== *)

Lemma filter_drop_one {A} `{EqDecision A} (f f' : A -> bool) (l : list A) (i : A) :
  NoDup l -> i ∈ l -> f i = true -> f' i = false ->
  (forall x, x <> i -> f' x = f x) ->
  length (List.filter f l) = S (length (List.filter f' l)).
Proof.
  intros Hnd Hi Hfi Hf'i Hrest. induction l as [|a l IH]; [by apply elem_of_nil in Hi|].
  apply NoDup_cons in Hnd as [Ha Hnd]. cbn [List.filter].
  destruct (decide (a = i)) as [->|Hne].
  - rewrite Hfi, Hf'i. cbn [length]. f_equal. f_equal.
    apply filter_ext_elem. intros x Hx. symmetry. apply Hrest. by intros ->.
  - apply elem_of_cons in Hi as [->|Hi]; [done|].
    rewrite (Hrest a Hne). destruct (f a); cbn [length]; rewrite (IH Hnd Hi); done.
Qed.

Lemma filter_nil_elem {A} (f : A -> bool) (l : list A) x :
  List.filter f l = [] -> x ∈ l -> f x = false.
Proof.
  intros Hnil Hx. destruct (f x) eqn:Hfx; [|done].
  assert (Hin : In x (List.filter f l)) by (apply filter_In; split; [by apply list_elem_of_In|done]).
  rewrite Hnil in Hin. done.
Qed.

Section DagLists.
Import Cell Loop GraphExecutor.

Variable L : Layout.t.

Lemma collected_app cells tr1 tr2 :
  collected L cells (tr1 ++ tr2)
  = collected L cells tr1 ++ collected L (replay tr1 cells) tr2.
Proof.
  revert cells. induction tr1 as [|st tr1 IH]; intros cells; [done|].
  cbn [app collected replay fold_left]. rewrite IH. by rewrite <- app_assoc.
Qed.

Lemma dispatched_app tr1 tr2 :
  dispatched L (tr1 ++ tr2) = dispatched L tr1 ++ dispatched L tr2.
Proof. unfold dispatched. apply flat_map_app. Qed.

Lemma fanout_of_ids gr u v : v ∈ fanout_of gr u -> u ∈ ids gr.
Proof.
  unfold fanout_of, get_task, ids. intros Hv.
  destruct (read (tasks gr) u) as [t|] eqn:Ht; [|by apply elem_of_nil in Hv].
  apply read_Some in Ht as [Hr _]. by apply upto_elem.
Qed.

Lemma pending_preds_nil gr C v u :
  pending_preds gr C v = [] -> v ∈ fanout_of gr u -> u ∈ C.
Proof.
  intros Hnil Hv.
  pose proof (filter_nil_elem _ _ u Hnil (fanout_of_ids _ _ _ Hv)) as Hf.
  cbn in Hf. rewrite bool_decide_eq_true_2 in Hf by done. cbn in Hf.
  apply negb_false_iff, bool_decide_eq_true in Hf. done.
Qed.

Lemma pending_preds_edge gr C i v :
  i ∈ ids gr -> i ∉ C -> v ∈ fanout_of gr i ->
  length (pending_preds gr C v) = S (length (pending_preds gr (C ++ [i]) v)).
Proof.
  intros Hi HC Hv. unfold pending_preds. apply (filter_drop_one _ _ _ i).
  - apply NoDup_upto.
  - done.
  - rewrite bool_decide_eq_true_2 by done. by rewrite bool_decide_eq_false_2.
  - rewrite bool_decide_eq_true_2 by done.
    rewrite bool_decide_eq_true_2; [done|]. apply elem_of_app. right. by apply list_elem_of_singleton.
  - intros x Hx. f_equal. f_equal. apply bool_decide_ext.
    rewrite elem_of_app, list_elem_of_singleton. tauto.
Qed.

Lemma pending_preds_other gr C i v :
  v ∉ fanout_of gr i ->
  pending_preds gr (C ++ [i]) v = pending_preds gr C v.
Proof.
  intros Hv. unfold pending_preds. apply filter_ext_elem. intros x _.
  destruct (decide (x = i)) as [->|Hne].
  - by rewrite bool_decide_eq_false_2.
  - f_equal. f_equal. apply bool_decide_ext.
    rewrite elem_of_app, list_elem_of_singleton. tauto.
Qed.

Lemma pending_preds_bound gr C v :
  Z.of_nat (length (pending_preds gr C v)) <= Z.of_nat (length (tasks gr)).
Proof.
  unfold pending_preds. pose proof (List.filter_length_le
    (fun u => bool_decide (v ∈ fanout_of gr u) && negb (bool_decide (u ∈ C))) (ids gr)) as H.
  unfold ids, upto in *. rewrite length_map, length_seq in H. lia.
Qed.

(** Two memories whose cells hold the same task pointers. *)
Lemma same_tasks_store st cells cells' :
  (forall c, task <$> Cell.get cells c = task <$> Cell.get cells' c) ->
  forall c, task <$> Cell.get (apply_store st cells) c
            = task <$> Cell.get (apply_store st cells') c.
Proof.
  intros H c. destruct st as [c0 p|c0 v]; cbn [apply_store]; rewrite !get_update.
  - case_decide; [|done]. subst. specialize (H c0).
    destruct (Cell.get cells c0), (Cell.get cells' c0); done.
  - case_decide; [|done]. subst. specialize (H c0).
    destruct (Cell.get cells c0), (Cell.get cells' c0); done.
Qed.


Hypothesis HL : Layout.wf L.

Lemma addr_inj i j : 0 <= i -> 0 <= j -> Layout.addr L i = Layout.addr L j -> i = j.
Proof.
  intros Hi Hj Heq. pose proof (index_addr L i HL Hi) as H1.
  rewrite Heq, (index_addr L j HL Hj) in H1. by injection H1.
Qed.

Lemma pop_aic_queued s id s' :
  int_indexed s -> pop_aic s = Some (Some (id, s')) ->
  queued_aic s = queued_aic s' ++ [id] /\ queued_aiv s' = queued_aiv s /\
  int_indexed s'.
Proof.
  intros [Hc Hv]. unfold pop_aic.
  destruct (Z.ltb_spec 0 (ready_count_aic s)) as [Hpos|Hpos]; [|done].
  destruct (read (ready_queue_aic s) (ready_count_aic s - 1)) as [x|] eqn:Hr; [|done].
  intros [= <- <-]. apply read_Some in Hr as [Hrange Hlook].
  unfold queued_aic, queued_aiv, queued, int_indexed. cbn.
  unfold Int32.sub. rewrite wrap_small
    by (unfold Int32.in_range, Int32.min_int, Int32.max_int in *; lia).
  split; [|done].
  replace (Z.to_nat (ready_count_aic s)) with (S (Z.to_nat (ready_count_aic s - 1))) by lia.
  by rewrite (take_S_r _ _ x).
Qed.

Lemma pop_aiv_queued s id s' :
  int_indexed s -> pop_aiv s = Some (Some (id, s')) ->
  queued_aiv s = queued_aiv s' ++ [id] /\ queued_aic s' = queued_aic s /\
  int_indexed s'.
Proof.
  intros [Hc Hv]. unfold pop_aiv.
  destruct (Z.ltb_spec 0 (ready_count_aiv s)) as [Hpos|Hpos]; [|done].
  destruct (read (ready_queue_aiv s) (ready_count_aiv s - 1)) as [x|] eqn:Hr; [|done].
  intros [= <- <-]. apply read_Some in Hr as [Hrange Hlook].
  unfold queued_aic, queued_aiv, queued, int_indexed. cbn.
  unfold Int32.sub. rewrite wrap_small
    by (unfold Int32.in_range, Int32.min_int, Int32.max_int in *; lia).
  split; [|done].
  replace (Z.to_nat (ready_count_aiv s)) with (S (Z.to_nat (ready_count_aiv s - 1))) by lia.
  by rewrite (take_S_r _ _ x).
Qed.

Lemma resolve_fanout_indexed fo gr s gr' s' :
  int_indexed s -> foreach resolve_successor fo (gr, s) = Some (gr', s') ->
  int_indexed s'.
Proof.
  intros Hs Hrun.
  apply (foreach_invariant resolve_successor (fun gs => int_indexed (snd gs)) fo)
    with (s := (gr, s)) (s' := (gr', s')); [|done|done].
  intros v [g1 s1] [g2 s2] _ H1 H2. cbn in *.
  by destruct (resolve_successor_spec _ _ _ _ _ H1 H2) as (_ & _ & _ & ? & _).
Qed.

Lemma collected_clear cells0 tr hk c h i :
  (forall c, task <$> Cell.get hk c = task <$> Cell.get (replay tr cells0) c) ->
  Cell.get hk c = Some h -> task h = Layout.addr L i -> 0 <= i ->
  collected L cells0 (tr ++ [StTask c 0]) = collected L cells0 tr ++ [i].
Proof.
  intros Ha Hh Ht Hi. rewrite collected_app. f_equal. cbn.
  specialize (Ha c). rewrite Hh in Ha. cbn in Ha.
  destruct (Cell.get (replay tr cells0) c) as [h'|]; [|done].
  cbn in Ha. injection Ha as Ha. rewrite <- Ha, Ht, index_addr by done. done.
Qed.

Lemma collected_publish cells0 tr c i :
  0 <= i ->
  collected L cells0 (tr ++ [StTask c (Layout.addr L i); StStatus c 1])
  = collected L cells0 tr.
Proof.
  intros Hi. rewrite collected_app. cbn.
  destruct (Z.eqb_spec (Layout.addr L i) 0) as [H0|_]; [by apply addr_nonzero in H0|].
  by rewrite app_nil_r.
Qed.

Lemma dispatched_clear tr c : dispatched L (tr ++ [StTask c 0]) = dispatched L tr.
Proof. rewrite dispatched_app. cbn. by rewrite app_nil_r. Qed.

Lemma dispatched_publish tr c i :
  0 <= i ->
  dispatched L (tr ++ [StTask c (Layout.addr L i); StStatus c 1]) = dispatched L tr ++ [i].
Proof.
  intros Hi. rewrite dispatched_app. cbn.
  destruct (Z.eqb_spec (Layout.addr L i) 0) as [H0|_]; [by apply addr_nonzero in H0|].
  by rewrite index_addr.
Qed.

Lemma dag_safe_clear gr cells0 tr c :
  dag_safe L gr cells0 tr -> dag_safe L gr cells0 (tr ++ [StTask c 0]).
Proof.
  intros Htr pre c' p post Heq Hp.
  apply app_cons_split in Heq as [(post' & -> & _)|(pre' & -> & Hsuf)].
  - by eapply Htr.
  - destruct pre' as [|a pre']; cbn in Hsuf.
    + inversion Hsuf; subst. done.
    + injection Hsuf as _ Hnil. by destruct pre'.
Qed.

Lemma dag_safe_publish gr cells0 tr c v :
  dag_safe L gr cells0 tr ->
  (forall u, v ∈ fanout_of gr u -> u ∈ collected L cells0 tr) ->
  dag_safe L gr cells0 (tr ++ [StTask c (Layout.addr L v); StStatus c 1]).
Proof.
  intros Htr Hv pre c' p' post Heq Hp.
  apply app_cons_split in Heq as [(post' & -> & _)|(pre' & -> & Hsuf)].
  - by eapply Htr.
  - destruct pre' as [|a pre']; cbn in Hsuf.
    + inversion Hsuf; subst. rewrite app_nil_r. by exists v.
    + injection Hsuf as _ Hrest.
      destruct pre' as [|b pre']; cbn in Hrest; [discriminate|].
      injection Hrest as _ Hnil. by destruct pre'.
Qed.

End DagLists.

Section DagSteps.
Import Cell Loop GraphExecutor.

Variable L : Layout.t.
Hypothesis HL : Layout.wf L.
Variable gr0 : Graph.
Hypothesis Hwf : well_formed gr0.
Variable cells0 : list Handshake.

Lemma collect_core_dag c w l w' l' :
  dag_invariant L gr0 cells0 w ->
  collect_core L c (w, l) = Some (w', l') ->
  dag_invariant L gr0 cells0 w'.
Proof.
  intros Hinv. pose proof Hinv as (Ha & Hb & Hc & Hcd & Hcell & Hdist & Hg & Hq & Hint & Hsafe & Hk1 & Hk2).
  destruct Hwf as (Hwf1 & Hwf2 & Hwf3).
  unfold collect_core.
  destruct (Cell.get (hank w) c) as [h|] eqn:Hh; [|done].
  destruct (Z.eqb_spec (task_status h) 0) as [Hst|]; cbn [andb];
    [|by intros [= <- <-]].
  destruct (Z.eqb_spec (task h) 0) as [|Htk]; cbn [negb]; [by intros [= <- <-]|].
  destruct (Hcell c h Hh Htk) as (i & Hti & Hi0 & HiD & HiC).
  rewrite Hti, index_addr by done.
  destruct (get_task (g w) i) as [t|] eqn:Ht; [|done].
  rewrite Hg in Ht. destruct (get_task gr0 i) as [t0|] eqn:Ht0; [|done].
  cbn in Ht. injection Ht as <-. cbn [fanout set_fanin].
  destruct (foreach resolve_successor (fanout t0) (g w, sh w)) as [[g' s']|] eqn:Hrun;
    [|done].
  intros [= <- <-].
  pose proof (resolve_fanout_indexed _ _ _ _ _ Hint Hrun) as Hint'.
  destruct (resolve_fanout_spec _ _ _ _ _ (Hwf1 _ _ Ht0) Hint Hrun)
    as (H1 & H2 & H3 & H4 & _).
  set (C := collected L cells0 (log w)) in *.
  set (D := dispatched L (log w)) in *.
  assert (Hfo : fanout_of gr0 i = fanout t0) by (unfold fanout_of; by rewrite Ht0).
  assert (Hids : i ∈ ids gr0).
  { apply read_Some in Ht0 as [Hr _]. by apply upto_elem. }
  assert (Hfan : forall v, v ∈ fanout t0 ->
            fanin_of (g w) v = Z.of_nat (length (pending_preds gr0 C v)) /\
            length (pending_preds gr0 C v)
            = S (length (pending_preds gr0 (C ++ [i]) v))).
  { intros v Hv. split.
    - unfold fanin_of. destruct (H1 v Hv) as (tv & Htv & _).
      rewrite Hg in Htv |- *. destruct (get_task gr0 v); [|done]. done.
    - apply pending_preds_edge; [done|done|]. by rewrite Hfo. }
  set (pa := List.filter (fun v => (fanin_of (g w) v =? 1) && (kind_of (g w) v =? 0))
                (fanout t0)) in *.
  set (pv := List.filter (fun v => (fanin_of (g w) v =? 1) && negb (kind_of (g w) v =? 0))
                (fanout t0)) in *.
  assert (Hpush : forall v, v ∈ pa ++ pv ->
            v ∈ fanout t0 /\ length (pending_preds gr0 C v) = 1%nat).
  { intros v Hv. assert (Hv' : v ∈ fanout t0 /\ fanin_of (g w) v = 1).
    { apply elem_of_app in Hv as [Hv|Hv];
        apply list_elem_of_In, filter_In in Hv as [Hv Hf];
        apply andb_true_iff in Hf as [Hf _]; apply Z.eqb_eq in Hf;
        (split; [by apply list_elem_of_In|done]). }
    destruct Hv' as [Hvf Hf1]. split; [done|].
    destruct (Hfan v Hvf) as [Hfv _]. lia. }
  unfold dag_invariant, store.
  cbn [g hank sh log apply_store].
  change (queued_aic (count_completed s')) with (queued_aic s').
  change (queued_aiv (count_completed s')) with (queued_aiv s').
  rewrite dispatched_clear, (collected_clear L HL cells0 (log w) (hank w) c h i) by done.
  fold C D. cbv zeta.
  split_and!.
  - intros c'. rewrite replay_app. cbn [replay fold_left].
    by apply (same_tasks_store (StTask c 0)).
  - rewrite H3, H4.
    assert (Hperm : ((queued_aic (sh w) ++ pa) ++ queued_aiv (sh w) ++ pv) ++ D
                    ≡ₚ (pa ++ pv) ++ (queued_aic (sh w) ++ queued_aiv (sh w)) ++ D).
    { rewrite (Permutation_app_comm (queued_aic (sh w)) pa).
      rewrite <- !app_assoc. apply Permutation_app_head.
      rewrite (app_assoc (queued_aic (sh w))), (app_assoc _ pv).
      rewrite (Permutation_app_comm _ pv). by rewrite <- !app_assoc. }
    rewrite Hperm. apply NoDup_app. split_and!; [| |done].
    + apply NoDup_app. split_and!.
      * apply NoDup_ListNoDup, List.NoDup_filter. by apply NoDup_ListNoDup, Hwf1 with i.
      * intros v Hva Hvv. subst pa pv.
        apply list_elem_of_In, filter_In in Hva as [_ Hfa].
        apply list_elem_of_In, filter_In in Hvv as [_ Hfv].
        apply andb_true_iff in Hfa as [_ Hfa]. apply andb_true_iff in Hfv as [_ Hfv].
        rewrite Hfa in Hfv. done.
      * apply NoDup_ListNoDup, List.NoDup_filter. by apply NoDup_ListNoDup, Hwf1 with i.
    + intros v Hv Hv'. destruct (Hpush v Hv) as [_ Hone].
      rewrite (Hq v Hv') in Hone. done.
  - apply NoDup_app. split_and!; [done| |apply NoDup_singleton].
    intros x Hx ->%list_elem_of_singleton. done.
  - intros x [Hx | ->%list_elem_of_singleton]%elem_of_app; [by apply Hcd|done].
  - intros c' h'. rewrite get_update. case_decide as Hcc.
    + subst c'. rewrite Hh. cbn. intros [= <-]. done.
    + intros Hh' Htk'. destruct (Hcell c' h' Hh' Htk') as (i' & Hti' & Hi0' & HiD' & HiC').
      exists i'. split_and!; [done..|].
      intros [Hx | ->%list_elem_of_singleton]%elem_of_app; [done|].
      apply Hcc. apply (Hdist c' c h' h); [done|done|done|congruence].
  - intros c1 c2 h1 h2. rewrite !get_update.
    case_decide as Hc1; [subst; rewrite Hh; cbn; by intros [= <-]|].
    case_decide as Hc2.
    + subst. rewrite Hh. cbn. intros Hh1 [= <-]. cbn. congruence.
    + apply Hdist.
  - intros v. destruct (decide (v ∈ fanout t0)) as [Hv|Hv].
    + destruct (H1 v Hv) as (tv & Htv & ->). destruct (Hfan v Hv) as [Hfv Hlen].
      unfold fanin_of in Hfv. rewrite Htv in Hfv.
      rewrite Hg in Htv. destruct (get_task gr0 v) as [tv0|] eqn:Htv0; [|done].
      cbn in Htv. injection Htv as <-. cbn.
      pose proof (pending_preds_bound gr0 C v) as Hbound.
      f_equal. unfold set_fanin. cbn. f_equal. cbn in Hfv.
      unfold Int32.sub. rewrite wrap_small; [lia|].
      unfold Int32.in_range, Int32.min_int, Int32.max_int in *. lia.
    + rewrite H2, Hg by done. rewrite pending_preds_other; [done|]. by rewrite Hfo.
  - intros v Hv. rewrite H3, H4 in Hv.
    assert (Hcases : v ∈ (queued_aic (sh w) ++ queued_aiv (sh w)) ++ D \/ v ∈ pa ++ pv).
    { repeat rewrite elem_of_app in Hv. repeat rewrite elem_of_app. tauto. }
    destruct Hcases as [Hold|Hnew].
    + pose proof (Hq v Hold) as Hnil.
      rewrite pending_preds_other; [done|]. rewrite Hfo. intros Hvf.
      destruct (Hfan v Hvf) as [_ Hlen]. rewrite Hnil in Hlen. done.
    + destruct (Hpush v Hnew) as [Hvf Hone]. destruct (Hfan v Hvf) as [_ Hlen].
      apply length_zero_iff_nil. lia.
  - done.
  - by apply dag_safe_clear.
  - intros x [Hx | ->%list_elem_of_singleton]%elem_of_app; [by apply Hk1|done].
  - rewrite collections_app, Hk2, length_app.
    change (collections [StTask c 0]) with 1. cbn [length]. lia.
Qed.


Lemma get_update_twice c f1 f2 hk c' :
  Cell.get (update c f2 (update c f1 hk)) c'
  = if decide (c' = c) then f2 <$> (f1 <$> Cell.get hk c) else Cell.get hk c'.
Proof.
  rewrite get_update. case_decide as Hc.
  - subst. by rewrite get_update, decide_True.
  - by rewrite get_update, decide_False.
Qed.

Lemma publish_dag c id s' h w l w' l' :
  dag_invariant L gr0 cells0 w ->
  Cell.get (hank w) c = Some h -> task h = 0 ->
  queued_aic (sh w) ++ queued_aiv (sh w) ≡ₚ id :: (queued_aic s' ++ queued_aiv s') ->
  int_indexed s' ->
  publish L c id s' (w, l) = Some (w', l') ->
  dag_invariant L gr0 cells0 w'.
Proof.
  intros (Ha & Hb & Hc & Hcd & Hcell & Hdist & Hg & Hq & Hint & Hsafe & Hk1 & Hk2) Hh Htk Hperm Hint'.
  unfold publish. destruct (get_task (g w) id) as [t|] eqn:Ht; [|done].
  apply read_Some in Ht as [[Hid0 _] _].
  intros [= <- <-].
  set (C := collected L cells0 (log w)) in *.
  set (D := dispatched L (log w)) in *.
  assert (HidQ : id ∈ (queued_aic (sh w) ++ queued_aiv (sh w)) ++ D).
  { apply elem_of_app. left. rewrite Hperm. by left. }
  rewrite Hperm in Hb. cbn [app] in Hb. apply NoDup_cons in Hb as [HidD Hb].
  assert (HidD' : id ∉ D).
  { intros Hin. apply HidD. apply elem_of_app. by right. }
  unfold dag_invariant, store.
  cbn [g hank sh log apply_store]. rewrite <- app_assoc. cbn [app].
  rewrite dispatched_publish, collected_publish by done.
  fold C D. cbv zeta.
  split_and!.
  - intros c'. rewrite replay_app. cbn [replay fold_left].
    apply (same_tasks_store (StStatus c 1)).
    by apply (same_tasks_store (StTask c (Layout.addr L id))).
  - rewrite app_assoc. rewrite <- Permutation_cons_append.
    apply NoDup_cons. done.
  - done.
  - intros x Hx. apply elem_of_app. left. by apply Hcd.
  - intros c' h'. rewrite get_update_twice. case_decide as Hcc.
    + subst c'. rewrite Hh. cbn. intros [= <-]. cbn. intros _.
      exists id. split_and!; [done|done| |].
      * apply elem_of_app. right. by apply list_elem_of_singleton.
      * intros Hin. by apply HidD', Hcd.
    + intros Hh' Htk'. destruct (Hcell c' h' Hh' Htk') as (i' & Hti' & Hi0' & HiD' & HiC').
      exists i'. split_and!; [done|done| |done]. apply elem_of_app. by left.
  - intros c1 c2 h1 h2. rewrite !get_update_twice.
    case_decide as Hc1; case_decide as Hc2.
    + congruence.
    + subst c1. rewrite Hh. cbn. intros [= <-] Hh2. cbn. intros _ Heq.
      destruct (Hcell c2 h2 Hh2) as (i' & Hti' & Hi0' & HiD' & _).
      { rewrite <- Heq. by apply addr_nonzero. }
      rewrite Hti' in Heq. apply (addr_inj L HL) in Heq; [|done|done]. by subst.
    + subst c2. rewrite Hh. cbn. intros Hh1 [= <-]. cbn. intros Hne Heq.
      destruct (Hcell c1 h1 Hh1 Hne) as (i' & Hti' & Hi0' & HiD' & _).
      rewrite Hti' in Heq. apply (addr_inj L HL) in Heq; [|done|done]. by subst.
    + apply Hdist.
  - done.
  - intros v Hv. apply Hq.
    repeat rewrite elem_of_app in Hv. rewrite list_elem_of_singleton in Hv.
    destruct Hv as [Hv|[Hv| ->]]; [| |exact HidQ].
    + apply elem_of_app. left. rewrite Hperm. right. by apply elem_of_app.
    + apply elem_of_app. by right.
  - done.
  - apply dag_safe_publish; [done|]. intros u Hu.
    exact (pending_preds_nil gr0 C id u (Hq id HidQ) Hu).
  - done.
  - rewrite collections_app, Hk2. unfold collections. cbn [List.filter].
    destruct (Z.eqb_spec (Layout.addr L id) 0) as [H0|_]; [by apply addr_nonzero in H0|].
    cbn [length]. lia.
Qed.

Lemma dispatch_core_dag c w l w' l' :
  dag_invariant L gr0 cells0 w ->
  dispatch_core L c (w, l) = Some (w', l') ->
  dag_invariant L gr0 cells0 w'.
Proof.
  intros Hinv. pose proof Hinv as (_ & _ & _ & _ & _ & _ & _ & _ & Hint & _).
  unfold dispatch_core. cbn [fst].
  destruct (Cell.get (hank w) c) as [h|] eqn:Hh; [|done].
  destruct (Z.eqb_spec (task_status h) 0) as [Hst|]; cbn [andb];
    [|by intros [= <- <-]].
  destruct (Z.eqb_spec (task h) 0) as [Htk|]; [|by intros [= <- <-]].
  destruct (Cell.core_type h =? 0).
  { destruct (pop_aic (sh w)) as [[[id s']|]|] eqn:Hpop; [| |done].
    - destruct (pop_aic_queued _ _ _ Hint Hpop) as (Hqa & Hqv & Hint').
      apply (publish_dag c id s' h); [done..| |done].
      rewrite Hqa, Hqv. by rewrite <- Permutation_cons_append.
    - by intros [= <- <-]. }
  destruct (Cell.core_type h =? 1); [|by intros [= <- <-]].
  destruct (pop_aiv (sh w)) as [[[id s']|]|] eqn:Hpop; [| |done].
  - destruct (pop_aiv_queued _ _ _ Hint Hpop) as (Hqv & Hqa & Hint').
    apply (publish_dag c id s' h); [done..| |done].
    rewrite Hqa, Hqv, app_assoc. by rewrite <- Permutation_cons_append.
  - by intros [= <- <-].
Qed.

(** A worker's store changes no task pointer. *)
Lemma worker_store_dag c w :
  dag_invariant L gr0 cells0 w ->
  dag_invariant L gr0 cells0
    (mkWorld (g w) (update c (set_task_status 0) (hank w)) (sh w) (log w)).
Proof.
  intros (Ha & Hb & Hc & Hcd & Hcell & Hdist & Hg & Hq & Hint & Hsafe & Hk1 & Hk2).
  assert (Hsame : forall c' h',
            Cell.get (update c (set_task_status 0) (hank w)) c' = Some h' ->
            exists h'', Cell.get (hank w) c' = Some h'' /\ task h'' = task h').
  { intros c' h'. rewrite get_update. case_decide.
    - subst. destruct (Cell.get (hank w) c) as [h|]; [|done].
      cbn. intros [= <-]. by exists h.
    - intros Hh'. by exists h'. }
  unfold dag_invariant. cbn [g hank sh log]. cbv zeta. split_and!; try done.
  - intros c'. rewrite <- Ha, get_update. case_decide; [|done].
    subst. by destruct (Cell.get (hank w) c).
  - intros c' h' Hh' Htk. destruct (Hsame _ _ Hh') as (h'' & Hh'' & Heq).
    rewrite <- Heq in *. by eapply Hcell.
  - intros c1 c2 h1 h2 Hh1 Hh2 Hne Heq.
    destruct (Hsame _ _ Hh1) as (h1' & Hh1' & Heq1).
    destruct (Hsame _ _ Hh2) as (h2' & Hh2' & Heq2).
    apply (Hdist c1 c2 h1' h2'); [done|done|congruence|congruence].
Qed.

End DagSteps.

Section DagCounts.
Import Cell Loop GraphExecutor.

Variable L : Layout.t.
Hypothesis HL : Layout.wf L.

Lemma index_Some p j :
  Layout.index L p = Some j -> p = Layout.addr L j /\ 0 <= j.
Proof.
  destruct HL as [Hb Hs]. unfold Layout.index, Layout.addr.
  destruct (Z.leb_spec 0 (p - Layout.tasks_base L)) as [H0|]; cbn [andb]; [|done].
  destruct (Z.eqb_spec ((p - Layout.tasks_base L) mod Layout.task_size L) 0) as [Hm|];
    [|done].
  intros [= <-].
  pose proof (Z.div_mod (p - Layout.tasks_base L) (Layout.task_size L) ltac:(lia)) as Hd.
  split; [lia|]. apply Z.div_pos; lia.
Qed.

Lemma dispatched_count tr i :
  0 <= i ->
  length (List.filter (fun st => match st with
                                 | StTask _ p => p =? Layout.addr L i
                                 | StStatus _ _ => false
                                 end) tr)
  = length (List.filter (fun j => j =? i) (dispatched L tr)).
Proof.
  intros Hi. induction tr as [|[c p|c v] tr IH]; [done| |done].
  change (dispatched L (StTask c p :: tr))
    with ((if p =? 0 then []
           else match Layout.index L p with Some j => [j] | None => [] end)
          ++ dispatched L tr).
  cbn [List.filter]. rewrite List.filter_app, length_app, <- IH.
  destruct (Z.eqb_spec p (Layout.addr L i)) as [->|Hne].
  - destruct (Z.eqb_spec (Layout.addr L i) 0) as [H0|_]; [by apply addr_nonzero in H0|].
    rewrite index_addr by done. cbn [List.filter]. by rewrite Z.eqb_refl.
  - destruct (p =? 0); [done|].
    destruct (Layout.index L p) as [j|] eqn:Hj; [|done].
    apply index_Some in Hj as [-> _]. cbn [List.filter].
    destruct (Z.eqb_spec j i) as [->|_]; done.
Qed.

Lemma count_absent (l : list Z) i : i ∉ l -> List.filter (fun j => j =? i) l = [].
Proof.
  induction l as [|a l IH]; [done|]. intros [Hne Hl]%not_elem_of_cons. cbn.
  destruct (Z.eqb_spec a i); [congruence|]. by apply IH.
Qed.

Lemma count_NoDup (l : list Z) (i : Z) :
  NoDup l -> (length (List.filter (fun j => (j =? i)%Z) l) <= 1)%nat.
Proof.
  induction 1 as [|a l Ha Hnd IH]; [cbn; lia|]. cbn.
  destruct (Z.eqb_spec a i) as [->|_]; [|done].
  rewrite count_absent by done. done.
Qed.

Lemma count_present (l : list Z) (i : Z) :
  i ∈ l -> (1 <= length (List.filter (fun j => (j =? i)%Z) l))%nat.
Proof.
  intros Hi. assert (Hin : In i (List.filter (fun j => j =? i) l)).
  { apply filter_In. split; [by apply list_elem_of_In|apply Z.eqb_refl]. }
  destruct (List.filter _ l); [done|cbn; lia].
Qed.

Lemma chain_well_formed : well_formed Scenario.chain.
Proof.
  assert (Hcases : forall v t, get_task Scenario.chain v = Some t ->
            (v = 0 /\ t = mkTask 0 32768 0 [1] 0) \/ (v = 1 /\ t = mkTask 1 32769 1 [] 0)).
  { intros v t Ht. pose proof (read_Some _ _ _ Ht) as [Hr _].
    change (Z.of_nat (length (tasks Scenario.chain))) with 2 in Hr.
    assert (Hv : v = 0 \/ v = 1) by lia.
    destruct Hv as [-> | ->]; vm_compute in Ht; injection Ht as <-; auto. }
  split_and!.
  - intros u t Ht. destruct (Hcases u t Ht) as [[_ ->]|[_ ->]]; cbn.
    + apply NoDup_singleton.
    + apply NoDup_nil_2.
  - intros v t Ht. by destruct (Hcases v t Ht) as [[-> ->]|[-> ->]].
  - done.
Qed.

End DagCounts.


Section SoloRun.
Import Cell Loop GraphExecutor.

Variable L : Layout.t.
Hypothesis HL : Layout.wf L.
Variable gr0 : Graph.
Hypothesis Hwf : well_formed gr0.
Variable cells0 : list Handshake.
Hypothesis Hcells : Forall (fun h => task h = 0) cells0.
Variable cores : list Z.

Lemma enqueue_all_indexed l s s1 :
  int_indexed s -> foreach (enqueue_initial gr0) l s = Some s1 -> int_indexed s1.
Proof.
  apply (foreach_invariant (enqueue_initial gr0) int_indexed l).
  intros v sa sb _ Hi Hs. unfold enqueue_initial in Hs.
  destruct (get_task gr0 v); [|done].
  by destruct (push_ready_queued _ _ _ _ Hi Hs) as (_ & _ & ? & _).
Qed.

Lemma init_dag s s1 :
  int_indexed s ->
  init gr0 s = Some s1 ->
  dag_invariant L gr0 cells0 (mkWorld gr0 cells0 s1 []).
Proof.
  intros Hint Hinit. destruct Hwf as (Hwf1 & Hwf2 & Hwf3).
  unfold init in Hinit.
  set (sz := mkShared (ready_queue_aic s) 0 (ready_queue_aiv s) 0 0
               (get_task_count gr0) (init_done s) 0) in *.
  destruct (foreach (enqueue_initial gr0) (get_initial_ready_tasks gr0) sz)
    as [s2|] eqn:Hen; [|done].
  injection Hinit as <-.
  assert (Hintz : int_indexed sz) by done.
  destruct (enqueue_all_spec gr0 _ _ _ Hintz Hen) as (Hqa & Hqv & _ & _).
  pose proof (enqueue_all_indexed _ _ _ Hintz Hen) as Hint2.
  change (queued_aic sz) with (@nil Z) in Hqa.
  change (queued_aiv sz) with (@nil Z) in Hqv. cbn [app] in Hqa, Hqv.
  assert (Hready : forall v, v ∈ get_initial_ready_tasks gr0 ->
            pending_preds gr0 [] v = []).
  { intros v Hv. unfold get_initial_ready_tasks in Hv.
    apply list_elem_of_In, filter_In in Hv as [_ Hv].
    destruct (get_task gr0 v) as [t|] eqn:Ht; [|done].
    apply Z.eqb_eq in Hv. rewrite (Hwf2 _ _ Ht) in Hv.
    apply length_zero_iff_nil. lia. }
  assert (Hnd : NoDup (get_initial_ready_tasks gr0)).
  { unfold get_initial_ready_tasks. apply NoDup_ListNoDup, List.NoDup_filter.
    apply NoDup_ListNoDup, NoDup_upto. }
  unfold dag_invariant. cbn [g hank sh log dispatched collected flat_map replay fold_left].
  change (queued_aic (mkShared (ready_queue_aic s2) (ready_count_aic s2)
            (ready_queue_aiv s2) (ready_count_aiv s2) 0 (get_task_count gr0) true 0))
    with (queued_aic s2).
  change (queued_aiv (mkShared (ready_queue_aic s2) (ready_count_aic s2)
            (ready_queue_aiv s2) (ready_count_aiv s2) 0 (get_task_count gr0) true 0))
    with (queued_aiv s2).
  rewrite Hqa, Hqv, app_nil_r. cbv zeta.
  assert (Hidle : forall c h, Cell.get cells0 c = Some h -> task h = 0).
  { intros c h Hh. unfold Cell.get in Hh. destruct (0 <=? c); [|done].
    rewrite Forall_forall in Hcells. eapply Hcells, list_elem_of_lookup_2, Hh. }
  split_and!.
  - done.
  - apply NoDup_app. split_and!.
    + apply NoDup_ListNoDup, List.NoDup_filter. by apply NoDup_ListNoDup.
    + intros v Hva Hvv.
      apply list_elem_of_In, filter_In in Hva as [_ Hfa].
      apply list_elem_of_In, filter_In in Hvv as [_ Hfv].
      rewrite Hfa in Hfv. done.
    + apply NoDup_ListNoDup, List.NoDup_filter. by apply NoDup_ListNoDup.
  - apply NoDup_nil_2.
  - intros i Hi. by apply elem_of_nil in Hi.
  - intros c h Hh Hne. by apply Hidle in Hh.
  - intros c c' h h' Hh _ Hne. by apply Hidle in Hh.
  - intros v. destruct (get_task gr0 v) as [t|] eqn:Ht; [|done].
    cbn. rewrite <- (Hwf2 _ _ Ht). by destruct t.
  - intros v Hv. apply Hready.
    apply elem_of_app in Hv as [Hv|Hv];
      apply list_elem_of_In, filter_In in Hv as [Hv _]; by apply list_elem_of_In.
  - done.
  - intros pre c p post Heq. by destruct pre.
  - intros i Hi. by apply elem_of_nil in Hi.
  - done.
Qed.

Lemma init_totals s s1 :
  init gr0 s = Some s1 -> completed_tasks s1 = 0 /\ total_tasks s1 = num_tasks gr0.
Proof.
  unfold init. destruct (foreach _ _ _); [|done]. by intros [= <-].
Qed.

Lemma solo_start_invariant s s1 st :
  int_indexed s -> init gr0 s = Some s1 ->
  solo_start gr0 cells0 s = Some st ->
  solo_invariant L gr0 cells0 s1 st.
Proof.
  intros Hint Hinit. unfold solo_start. rewrite Hinit. intros [= <-].
  destruct (init_totals _ _ Hinit) as [Hc Ht].
  unfold solo_invariant. cbn [here locals at_]. split_and!.
  - by eapply init_dag.
  - exists []. change (collections []) with 0. change (publications []) with 0.
    cbn [fst snd log sh]. rewrite Hc. split_and!; (done || lia).
  - done.
Qed.

Lemma thread_next_invariant s1 st st' :
  solo_invariant L gr0 cells0 s1 st ->
  thread_next L cores st = Some st' ->
  solo_invariant L gr0 cells0 s1 st'.
Proof.
  intros (Hdag & Hacc & Hexit). unfold thread_next.
  destruct st as [w l a]. cbn [here locals at_] in *.
  destruct a as [|i|i|].
  - intros [= <-]. unfold solo_invariant. cbn [here locals at_].
    split_and!; [done|done|].
    destruct (Z.ltb_spec (completed_tasks (sh w)) (task_count l)); [done|].
    intros _. lia.
  - destruct (cores !! i) as [c|].
    + destruct (collect_core L c (w, l)) as [[w' l']|] eqn:Hc; [|done].
      intros [= <-]. unfold solo_invariant. cbn [here locals at_].
      split_and!; [|by eapply (collect_core_accounted L)|done].
      by eapply (collect_core_dag L HL gr0 Hwf cells0).
    + intros [= <-]. unfold solo_invariant. cbn [here locals at_].
      split_and!; [done|done|]. by destruct (_ <=? _).
  - destruct (cores !! i) as [c|].
    + destruct (dispatch_core L c (w, l)) as [[w' l']|] eqn:Hc; [|done].
      intros [= <-]. unfold solo_invariant. cbn [here locals at_].
      split_and!; [|by eapply (dispatch_core_accounted L HL)|done].
      by eapply (dispatch_core_dag L HL gr0 cells0).
    + intros [= <-]. by unfold solo_invariant.
  - intros [= <-]. by unfold solo_invariant.
Qed.

Lemma worker_store_invariant s1 st c :
  solo_invariant L gr0 cells0 s1 st ->
  solo_invariant L gr0 cells0 s1 (worker_store c st).
Proof.
  intros (Hdag & Hacc & Hexit). unfold solo_invariant, worker_store.
  cbn [here locals at_ sh]. split_and!; [|done|done].
  by apply (worker_store_dag L gr0 cells0).
Qed.

Lemma solo_reachable_invariant s s1 s0 st :
  int_indexed s -> init gr0 s = Some s1 ->
  solo_start gr0 cells0 s = Some s0 ->
  solo_reachable L cores s0 st ->
  solo_invariant L gr0 cells0 s1 st.
Proof.
  intros Hint Hinit Hs. induction 1 as [|st st' _ IH Hstep].
  - by eapply solo_start_invariant.
  - destruct Hstep as [st st' Hn|st c].
    + by eapply thread_next_invariant.
    + by apply worker_store_invariant.
Qed.

Lemma solo_start_init s s0 :
  solo_start gr0 cells0 s = Some s0 -> exists s1, init gr0 s = Some s1.
Proof. unfold solo_start. destruct (init gr0 s) as [s1|]; [by exists s1|done]. Qed.

End SoloRun.

Section ChainRun.
Import Cell Loop GraphExecutor.

Lemma move_step m st st' :
  Scenario.move m st = Some st' -> solo_step Scenario.GL [0] st st'.
Proof.
  destruct m as [|c]; cbn [Scenario.move].
  - apply solo_thread.
  - intros [= <-]. apply solo_worker.
Qed.

Lemma moves_reachable ms s0 st st' :
  solo_reachable Scenario.GL [0] s0 st ->
  foreach Scenario.move ms st = Some st' ->
  solo_reachable Scenario.GL [0] s0 st'.
Proof.
  revert st. induction ms as [|m ms IH]; intros st Hr; cbn [foreach].
  - by intros [= <-].
  - destruct (Scenario.move m st) as [st1|] eqn:Hm; [|done].
    apply IH. eapply solo_then; [done|]. by apply (move_step m).
Qed.

Lemma chain_first_reachable s0 st :
  Scenario.chain_start = Some s0 -> Scenario.chain_first = Some st ->
  solo_reachable Scenario.GL [0] s0 st.
Proof.
  unfold Scenario.chain_first. intros ->. cbn [mbind option_bind].
  apply moves_reachable. apply solo_start_here.
Qed.

Lemma chain_run_reachable s0 st :
  Scenario.chain_start = Some s0 -> Scenario.chain_run = Some st ->
  solo_reachable Scenario.GL [0] s0 st.
Proof.
  intros Hs. unfold Scenario.chain_run.
  destruct Scenario.chain_first as [s1|] eqn:H1; [|done]. cbn [mbind option_bind].
  apply moves_reachable. by apply chain_first_reachable.
Qed.

End ChainRun.

(** X24. In a run of [execute] with a single scheduler thread, with the
    workers' stores landing at any time, and for a graph whose fan-in
    counters hold the in-degrees, no task is published twice: among the
    stores made so far at most one writes the pointer to task [i].  No
    completion is collected twice, and a completion that was collected
    belongs to a task that was published exactly once. *)
Theorem single_thread_publishes_each_task_once (L : Layout.t)
        (gr : GraphExecutor.Graph) (cells : list Cell.Handshake)
        (s : GraphExecutor.Shared) (cores : list Z) (s0 st : GraphExecutor.Solo) :
  Layout.wf L ->
  GraphExecutor.well_formed gr ->
  GraphExecutor.int_indexed s ->
  Forall (fun h => Cell.task h = 0) cells ->
  GraphExecutor.solo_start gr cells s = Some s0 ->
  GraphExecutor.solo_reachable L cores s0 st ->
  let stores := GraphExecutor.log (GraphExecutor.here st) in
  (forall i, 0 <= i -> (GraphExecutor.published_times L i stores <= 1)%nat) /\
  NoDup (GraphExecutor.collected L cells stores) /\
  (forall i, i ∈ GraphExecutor.collected L cells stores ->
     GraphExecutor.published_times L i stores = 1%nat).
Proof.
  intros HL Hwf Hint Hcells Hs Hr.
  destruct (solo_start_init _ _ _ _ Hs) as [s1 Hinit].
  destruct (solo_reachable_invariant L HL gr Hwf cells Hcells cores s s1 s0 st
              Hint Hinit Hs Hr)
    as ((_ & Hb & Hc & Hcd & _ & _ & _ & _ & _ & _ & Hk1 & _) & _).
  apply NoDup_app in Hb as (_ & _ & Hd).
  cbv zeta. split_and!.
  - intros i Hi. unfold GraphExecutor.published_times.
    rewrite (dispatched_count L HL) by done. by apply count_NoDup.
  - done.
  - intros i Hi. assert (Hi0 : 0 <= i).
    { pose proof (Hk1 i Hi) as Hid. unfold GraphExecutor.ids in Hid.
      apply upto_elem in Hid. lia. }
    unfold GraphExecutor.published_times. rewrite (dispatched_count L HL) by done.
    pose proof (count_NoDup _ i Hd). pose proof (count_present _ i (Hcd i Hi)). lia.
Qed.

Lemma single_thread_publishes_each_task_once_witness :
  exists s0 st,
    Scenario.chain_start = Some s0 /\ Scenario.chain_run = Some st /\
    GraphExecutor.collected Scenario.GL [Cell.reset 0]
      (GraphExecutor.log (GraphExecutor.here st)) = [0; 1] /\
    GraphExecutor.published_times Scenario.GL 1
      (GraphExecutor.log (GraphExecutor.here st)) = 1%nat.
Proof.
  eexists. eexists. split; [reflexivity|]. split; [vm_compute; reflexivity|].
  split; [vm_compute; reflexivity|].
  edestruct single_thread_publishes_each_task_once
    with (L := Scenario.GL) (gr := Scenario.chain) (cells := [Cell.reset 0])
         (s := Scenario.fresh) (cores := [0]) as (_ & _ & Honce).
  - split; reflexivity.
  - exact chain_well_formed.
  - split; vm_compute; discriminate.
  - repeat constructor.
  - reflexivity.
  - apply chain_run_reachable; [reflexivity|vm_compute; reflexivity].
  - apply Honce. vm_compute. right. left.
Defined.

(** X25. In a run of [execute] with a single scheduler thread, with the
    workers' stores landing at any time: whenever the thread stores a
    task pointer in a cell, the pointer is the address of a task [v] of
    the graph, and for every task [u] that lists [v] in its fanout the
    completion of [u] was collected (the cell that held [u] was cleared)
    by an earlier store.  No task is published before the completions of
    all its predecessors have been collected. *)
Theorem single_thread_respects_dependencies (L : Layout.t)
        (gr : GraphExecutor.Graph) (cells : list Cell.Handshake)
        (s : GraphExecutor.Shared) (cores : list Z) (s0 st : GraphExecutor.Solo) :
  Layout.wf L ->
  GraphExecutor.well_formed gr ->
  GraphExecutor.int_indexed s ->
  Forall (fun h => Cell.task h = 0) cells ->
  GraphExecutor.solo_start gr cells s = Some s0 ->
  GraphExecutor.solo_reachable L cores s0 st ->
  forall pre c p post,
    GraphExecutor.log (GraphExecutor.here st) = pre ++ Cell.StTask c p :: post ->
    p <> 0 ->
    exists v, p = Layout.addr L v /\
      forall u, v ∈ GraphExecutor.fanout_of gr u ->
                u ∈ GraphExecutor.collected L cells pre.
Proof.
  intros HL Hwf Hint Hcells Hs Hr.
  destruct (solo_start_init _ _ _ _ Hs) as [s1 Hinit].
  destruct (solo_reachable_invariant L HL gr Hwf cells Hcells cores s s1 s0 st
              Hint Hinit Hs Hr)
    as ((_ & _ & _ & _ & _ & _ & _ & _ & _ & Hsafe & _) & _).
  exact Hsafe.
Qed.

Lemma single_thread_respects_dependencies_witness :
  exists s0 st,
    Scenario.chain_start = Some s0 /\ Scenario.chain_run = Some st /\
    GraphExecutor.log (GraphExecutor.here st)
      = [Cell.StTask 0 (Layout.addr Scenario.GL 0); Cell.StStatus 0 1; Cell.StTask 0 0;
         Cell.StTask 0 (Layout.addr Scenario.GL 1); Cell.StStatus 0 1; Cell.StTask 0 0] /\
    1 ∈ GraphExecutor.fanout_of Scenario.chain 0 /\
    exists v, Layout.addr Scenario.GL 1 = Layout.addr Scenario.GL v /\
      forall u, v ∈ GraphExecutor.fanout_of Scenario.chain u ->
        u ∈ GraphExecutor.collected Scenario.GL [Cell.reset 0]
              [Cell.StTask 0 (Layout.addr Scenario.GL 0); Cell.StStatus 0 1;
               Cell.StTask 0 0].
Proof.
  eexists. eexists. split; [reflexivity|]. split; [vm_compute; reflexivity|].
  split; [vm_compute; reflexivity|]. split; [vm_compute; left|].
  eapply (single_thread_respects_dependencies Scenario.GL Scenario.chain [Cell.reset 0]
            Scenario.fresh [0]).
  - split; reflexivity.
  - exact chain_well_formed.
  - split; vm_compute; discriminate.
  - repeat constructor.
  - reflexivity.
  - apply chain_run_reachable; [reflexivity|vm_compute; reflexivity].
  - vm_compute. reflexivity.
  - vm_compute. discriminate.
Defined.

(** X26. At every moment of a run of [execute] with a single scheduler
    thread the graph in memory is the graph the run started with, except
    that the [fanin] counter of each task holds the number of its
    predecessors whose completion has not been collected yet.  The two
    ready queues hold no task twice, every queued task has the
    completions of all its predecessors collected, and it has not been
    published. *)
Theorem single_thread_fanin_counts_uncollected (L : Layout.t)
        (gr : GraphExecutor.Graph) (cells : list Cell.Handshake)
        (s : GraphExecutor.Shared) (cores : list Z) (s0 st : GraphExecutor.Solo) :
  Layout.wf L ->
  GraphExecutor.well_formed gr ->
  GraphExecutor.int_indexed s ->
  Forall (fun h => Cell.task h = 0) cells ->
  GraphExecutor.solo_start gr cells s = Some s0 ->
  GraphExecutor.solo_reachable L cores s0 st ->
  let w := GraphExecutor.here st in
  let collected_ids := GraphExecutor.collected L cells (GraphExecutor.log w) in
  let queue := GraphExecutor.queued_aic (GraphExecutor.sh w)
               ++ GraphExecutor.queued_aiv (GraphExecutor.sh w) in
  (forall v, GraphExecutor.get_task (GraphExecutor.g w) v
             = GraphExecutor.set_fanin
                 (Z.of_nat (length (GraphExecutor.pending_preds gr collected_ids v)))
               <$> GraphExecutor.get_task gr v) /\
  NoDup queue /\
  (forall v, v ∈ queue ->
     GraphExecutor.pending_preds gr collected_ids v = [] /\
     v ∉ GraphExecutor.dispatched L (GraphExecutor.log w)).
Proof.
  intros HL Hwf Hint Hcells Hs Hr.
  destruct (solo_start_init _ _ _ _ Hs) as [s1 Hinit].
  destruct (solo_reachable_invariant L HL gr Hwf cells Hcells cores s s1 s0 st
              Hint Hinit Hs Hr)
    as ((_ & Hb & _ & _ & _ & _ & Hg & Hq & _) & _).
  apply NoDup_app in Hb as (Hnq & Hqd & _).
  cbv zeta. split_and!; [done|done|].
  intros v Hv. split; [|by apply Hqd].
  apply Hq. apply elem_of_app. by left.
Qed.

Lemma single_thread_fanin_counts_uncollected_witness :
  exists s0 st,
    Scenario.chain_start = Some s0 /\ Scenario.chain_first = Some st /\
    GraphExecutor.collected Scenario.GL [Cell.reset 0]
      (GraphExecutor.log (GraphExecutor.here st)) = [] /\
    GraphExecutor.fanin_of (GraphExecutor.g (GraphExecutor.here st)) 1 = 1 /\
    GraphExecutor.get_task (GraphExecutor.g (GraphExecutor.here st)) 1
    = GraphExecutor.set_fanin
        (Z.of_nat (length (GraphExecutor.pending_preds Scenario.chain
           (GraphExecutor.collected Scenario.GL [Cell.reset 0]
              (GraphExecutor.log (GraphExecutor.here st))) 1)))
      <$> GraphExecutor.get_task Scenario.chain 1.
Proof.
  eexists. eexists. split; [reflexivity|]. split; [vm_compute; reflexivity|].
  split; [vm_compute; reflexivity|]. split; [vm_compute; reflexivity|].
  edestruct single_thread_fanin_counts_uncollected
    with (L := Scenario.GL) (gr := Scenario.chain) (cells := [Cell.reset 0])
         (s := Scenario.fresh) (cores := [0]) as (Hg & _).
  - split; reflexivity.
  - exact chain_well_formed.
  - split; vm_compute; discriminate.
  - repeat constructor.
  - reflexivity.
  - apply chain_first_reachable; [reflexivity|vm_compute; reflexivity].
  - apply Hg.
Defined.

(** X27. When a single scheduler thread has left the loop of [execute]
    (it found [completed_tasks] no longer below the number of tasks), the
    completion of every task of the graph has been collected, and every
    task was published exactly once. *)
Theorem single_thread_exit_means_all_collected (L : Layout.t)
        (gr : GraphExecutor.Graph) (cells : list Cell.Handshake)
        (s : GraphExecutor.Shared) (cores : list Z) (s0 st : GraphExecutor.Solo) :
  Layout.wf L ->
  GraphExecutor.well_formed gr ->
  GraphExecutor.num_tasks gr = Z.of_nat (length (GraphExecutor.tasks gr)) ->
  GraphExecutor.int_indexed s ->
  Forall (fun h => Cell.task h = 0) cells ->
  GraphExecutor.solo_start gr cells s = Some s0 ->
  GraphExecutor.solo_reachable L cores s0 st ->
  GraphExecutor.at_ st = GraphExecutor.Exited ->
  forall i, 0 <= i < GraphExecutor.num_tasks gr ->
    i ∈ GraphExecutor.collected L cells (GraphExecutor.log (GraphExecutor.here st)) /\
    GraphExecutor.published_times L i (GraphExecutor.log (GraphExecutor.here st)) = 1%nat.
Proof.
  intros HL Hwf Hnum Hint Hcells Hs Hr Hexit i Hi.
  destruct (solo_start_init _ _ _ _ Hs) as [s1 Hinit].
  destruct (solo_reachable_invariant L HL gr Hwf cells Hcells cores s s1 s0 st
              Hint Hinit Hs Hr)
    as ((_ & Hb & Hc & Hcd & _ & _ & _ & _ & _ & _ & Hk1 & Hk2) & Hacc & Hleft).
  specialize (Hleft Hexit).
  destruct Hacc as (tr & Hlog & _ & _ & Htc & Hct & _).
  cbn [fst snd GraphExecutor.log GraphExecutor.sh app] in Hlog, Htc, Hct.
  destruct (init_totals _ _ _ Hinit) as [Hc0 Ht0].
  change (GraphExecutor.task_count (GraphExecutor.enter s1))
    with (GraphExecutor.total_tasks s1) in Htc.
  rewrite Hc0, Z.add_0_l, <- Hlog, Hk2 in Hct.
  destruct Hwf as (_ & _ & Hfit).
  apply NoDup_app in Hb as (_ & _ & Hd).
  set (C := GraphExecutor.collected L cells (GraphExecutor.log (GraphExecutor.here st)))
    in *.
  assert (Hlen_ids : length (GraphExecutor.ids gr) = length (GraphExecutor.tasks gr)).
  { unfold GraphExecutor.ids, Loop.upto. rewrite length_map, length_seq. lia. }
  assert (Hincl : incl C (GraphExecutor.ids gr)).
  { intros x Hx. by apply list_elem_of_In, Hk1, list_elem_of_In. }
  pose proof (NoDup_incl_length (proj1 (NoDup_ListNoDup _) Hc) Hincl) as Hle.
  rewrite wrap_small in Hct
    by (unfold Int32.in_range, Int32.min_int, Int32.max_int in *; lia).
  assert (Hall : incl (GraphExecutor.ids gr) C).
  { apply NoDup_length_incl; [by apply NoDup_ListNoDup|lia|done]. }
  assert (HiC : i ∈ C).
  { apply list_elem_of_In, Hall, list_elem_of_In. unfold GraphExecutor.ids.
    apply upto_elem. lia. }
  split; [done|].
  unfold GraphExecutor.published_times. rewrite (dispatched_count L HL) by lia.
  pose proof (count_NoDup _ i Hd). pose proof (count_present _ i (Hcd i HiC)). lia.
Qed.

Lemma single_thread_exit_means_all_collected_witness :
  exists s0 st,
    Scenario.chain_start = Some s0 /\ Scenario.chain_run = Some st /\
    GraphExecutor.at_ st = GraphExecutor.Exited /\
    1 ∈ GraphExecutor.collected Scenario.GL [Cell.reset 0]
          (GraphExecutor.log (GraphExecutor.here st)) /\
    GraphExecutor.published_times Scenario.GL 1
      (GraphExecutor.log (GraphExecutor.here st)) = 1%nat.
Proof.
  eexists. eexists. split; [reflexivity|]. split; [vm_compute; reflexivity|].
  split; [vm_compute; reflexivity|].
  eapply (single_thread_exit_means_all_collected Scenario.GL Scenario.chain
            [Cell.reset 0] Scenario.fresh [0]).
  - split; reflexivity.
  - exact chain_well_formed.
  - reflexivity.
  - split; vm_compute; discriminate.
  - repeat constructor.
  - reflexivity.
  - apply chain_run_reachable; [reflexivity|vm_compute; reflexivity].
  - vm_compute. reflexivity.
  - split; [vm_compute; discriminate|reflexivity].
Defined.
